(** * OPD token allocation engine: a shallow embedding and its properties

    The development follows [src/models/index.js] (the classes [Doctor],
    [Slot], [Token] and the tables [TOKEN_SOURCES], [TOKEN_STATUS]) and
    [src/services/TokenAllocationEngine.js] (the class
    [TokenAllocationEngine]).

    Modelling conventions.
    - A JavaScript [Map] is an insertion-ordered association list
      ([Map_get], [Map_set]); the token registry, whose order is never
      observed, is a [gmap].
    - Every [Token] object is created once, with a fresh identifier, and is
      then shared by reference between slots, the waiting queue and the
      registry.  The fields that are never written after construction are
      kept by value in the record [Token]; the two fields the engine writes
      later ([slotTime], [status]) live in an object store ([fields]) keyed
      by the token identifier, so that a write through one alias is seen
      through every other alias.  [createdAt] and [estimatedTime] are never
      read by the engine and are left out.
    - [uuid.v4()] is a counter ([nextId]): any collision-free generator.
    - A method that may throw returns a [completion]; the state reached at
      the point of the throw is kept.
    - A string is the sequence of bytes of its UTF-8 encoding.
    - The hours the engine parses and counts are mathematical integers
      here and doubles in JavaScript.  The two agree on the integers of
      magnitude up to 2^53, and so do [Js.parseInt], [Js.plus],
      [Js.toString] and the loop of [initializeDoctorSlots]; beyond, the
      double rounds, [hour++] can stall and [toString] changes notation.
      The properties that depend on the value of a parsed hour are stated
      for the time strings [plainTime] accepts, whose hours stay far
      inside that range. *)

From Stdlib Require Import ZArith String Ascii DecimalString Lia Sorted.
From Stdlib Require DecimalPos.
From stdpp Require Import base list strings gmap.

Set Default Proof Using "Type".

(** ** JavaScript strings and numbers, as far as the engine uses them *)

Module Js.

(** [s.split(':')[0]]: the part of [s] before the first colon. *)
Fixpoint beforeColon (s : string) : string :=
  match s with
  | EmptyString => EmptyString
  | String c r => if Ascii.eqb c ":" then EmptyString else String c (beforeColon r)
  end.

(** The white space [parseInt] skips (StrWhiteSpaceChar).  One byte: TAB,
    LF, VT, FF, CR, SP. *)
Definition isWhiteSpace (c : ascii) : bool :=
  let n := nat_of_ascii c in
  (Nat.eqb n 9 || Nat.eqb n 10 || Nat.eqb n 11 || Nat.eqb n 12 || Nat.eqb n 13 || Nat.eqb n 32)%bool.

(** Two bytes: U+00A0 (C2 A0). *)
Definition isWhiteSpace2 (c1 c2 : ascii) : bool :=
  (Nat.eqb (nat_of_ascii c1) 194 && Nat.eqb (nat_of_ascii c2) 160)%bool.

(** Three bytes: U+1680 (E1 9A 80), U+2000 to U+200A (E2 80 80 to E2 80 8A),
    U+2028, U+2029, U+202F (E2 80 A8, A9, AF), U+205F (E2 81 9F), U+3000
    (E3 80 80) and U+FEFF (EF BB BF). *)
Definition isWhiteSpace3 (c1 c2 c3 : ascii) : bool :=
  let n1 := nat_of_ascii c1 in
  let n2 := nat_of_ascii c2 in
  let n3 := nat_of_ascii c3 in
  (Nat.eqb n1 225 && Nat.eqb n2 154 && Nat.eqb n3 128
   || Nat.eqb n1 226 && Nat.eqb n2 128
      && (Nat.leb 128 n3 && Nat.leb n3 138
          || Nat.eqb n3 168 || Nat.eqb n3 169 || Nat.eqb n3 175)
   || Nat.eqb n1 226 && Nat.eqb n2 129 && Nat.eqb n3 159
   || Nat.eqb n1 227 && Nat.eqb n2 128 && Nat.eqb n3 128
   || Nat.eqb n1 239 && Nat.eqb n2 187 && Nat.eqb n3 191)%bool.

Fixpoint trimStart (s : string) : string :=
  match s with
  | EmptyString => EmptyString
  | String c r =>
      if isWhiteSpace c then trimStart r
      else
        match r with
        | EmptyString => s
        | String c2 r2 =>
            if isWhiteSpace2 c c2 then trimStart r2
            else
              match r2 with
              | EmptyString => s
              | String c3 r3 => if isWhiteSpace3 c c2 c3 then trimStart r3 else s
              end
        end
  end.

(** The string has no byte above 127. *)
Fixpoint isAscii (s : string) : bool :=
  match s with
  | EmptyString => true
  | String c r => Nat.ltb (nat_of_ascii c) 128 && isAscii r
  end.

(** Value of a character as a digit (radix up to 36). *)
Definition digitValue (c : ascii) : option Z :=
  let n := Z.of_nat (nat_of_ascii c) in
  if ((48 <=? n) && (n <=? 57))%Z then Some (n - 48)%Z
  else if ((97 <=? n) && (n <=? 122))%Z then Some (n - 87)%Z
  else if ((65 <=? n) && (n <=? 90))%Z then Some (n - 55)%Z
  else None.

(** The longest prefix of radix-[R] digits, as a number; [None] when the
    prefix is empty. *)
Fixpoint digitsPrefix (R : Z) (s : string) (acc : option Z) : option Z :=
  match s with
  | EmptyString => acc
  | String c r =>
      match digitValue c with
      | Some d =>
          if (d <? R)%Z then digitsPrefix R r (Some (default 0 acc * R + d))%Z
          else acc
      | None => acc
      end
  end.

(** [parseInt(s)] without a radix argument; [None] is [NaN].  The result is
    the mathematical integer the digits denote.  JavaScript returns the
    double nearest to it: the same number up to 2^53 in magnitude, a
    rounded one beyond.  [-0] is identified with [0] (both print as "0" and
    compare alike). *)
Definition parseInt (s : string) : option Z :=
  let s1 := trimStart s in
  let '(negative, s2) :=
    match s1 with
    | String "-" r => (true, r)
    | String "+" r => (false, r)
    | _ => (false, s1)
    end in
  let '(R, s3) :=
    match s2 with
    | String "0" (String "x" r) => (16, r)
    | String "0" (String "X" r) => (16, r)
    | _ => (10, s2)
    end%Z in
  match digitsPrefix R s3 None with
  | None => None
  | Some n => Some (if negative then - n else n)%Z
  end.

(** [n.toString()] for an integral number or [NaN]: the decimal digits of
    the integer, which is what JavaScript prints for the integers up to
    2^53 in magnitude (beyond, it prints the shortest digits that identify
    the double, and from 1e21 on the exponent notation). *)
Definition toString (n : option Z) : string :=
  match n with
  | None => "NaN"
  | Some z => NilZero.string_of_int (Z.to_int z)
  end.

(** [s.padStart(2, '0')]. *)
Definition padStart2 (s : string) : string :=
  match s with
  | EmptyString => "00"
  | String c EmptyString => String "0" s
  | _ => s
  end.

(** [n + k] on numbers, [NaN] absorbing: the exact sum, which is the sum of
    the doubles as long as it stays within 2^53 in magnitude. *)
Definition plus (n : option Z) (k : Z) : option Z :=
  match n with Some z => Some (z + k)%Z | None => None end.

(** Truthiness of a string value: only the empty string is falsy. *)
Definition truthy (s : string) : bool :=
  match s with EmptyString => false | _ => true end.

(** The numbers [getSystemStats] computes with: doubles, given by the
    quotient of two integers they are equal to, [NaN] and the two
    infinities. *)
Inductive number :=
  | Finite (num : Z) (den : positive)
  | NaN
  | Infinity (negative : bool).

(** The double nearest to the quotient [num / den], the one with the even
    significand on a tie: the quotient is scaled by a power of two [2 ^ e]
    into the range of the 53-bit significands, rounded to an integer [m],
    and the double is [m * 2 ^ e].  The limits of the exponent are not
    modelled; the quotients of the engine's counters are far from them. *)
Definition roundDouble (num : Z) (den : positive) : Z * positive :=
  if (num =? 0)%Z then (0%Z, 1%positive)
  else
    let p := Z.abs num in
    let q := Z.pos den in
    let scaled (e : Z) : Z * Z :=
      if (e <=? 0)%Z then (p * 2 ^ (- e), q)%Z else (p, q * 2 ^ e)%Z in
    let e0 := (Z.log2 p - Z.log2 q - 53)%Z in
    let e := if (2 ^ 53 <=? (scaled e0).1 / (scaled e0).2)%Z then (e0 + 1)%Z else e0 in
    let n := (scaled e).1 in
    let d := (scaled e).2 in
    let m0 := (n / d)%Z in
    let rest := (n mod d)%Z in
    let m := if ((d <? 2 * rest) || ((2 * rest =? d) && Z.odd m0))%Z
             then (m0 + 1)%Z else m0 in
    if (0 <=? e)%Z then (Z.sgn num * m * 2 ^ e, 1%positive)%Z
    else (Z.sgn num * m, Z.to_pos (2 ^ (- e)))%Z.

(** [a / b] on integers. *)
Definition div (a b : Z) : number :=
  if (b =? 0)%Z then
    (if (a =? 0)%Z then NaN else Infinity (a <? 0)%Z)
  else
    let '(n, d) := roundDouble (Z.sgn b * a) (Z.to_pos (Z.abs b)) in
    Finite n d.

(** [x * 100]. *)
Definition times100 (x : number) : number :=
  match x with
  | Finite n d => let '(n', d') := roundDouble (n * 100) d in Finite n' d'
  | other => other
  end.

(** [x.toFixed(2)]: the integer nearest to [100 x] (the larger one on a
    tie), printed with two decimals.  (From 1e21 on JavaScript prints the
    number as [toString] does, which is not modelled.) *)
Definition toFixed2 (x : number) : string :=
  match x with
  | NaN => "NaN"
  | Infinity negative => if negative then "-Infinity" else "Infinity"
  | Finite n d =>
      let a := Z.abs n in
      let m := ((2 * 100 * a + Z.pos d) / (2 * Z.pos d))%Z in
      let digits := NilZero.string_of_int (Z.to_int m) in
      let padded :=
        match String.length digits with
        | 1 => "00" +:+ digits
        | 2 => "0" +:+ digits
        | _ => digits
        end in
      let k := String.length padded in
      (if (n <? 0)%Z then "-" else "") +:+
      substring 0 (k - 2) padded +:+ "." +:+ substring (k - 2) 2 padded
  end.

(** The template [`${hour.toString().padStart(2, '0')}:00`]. *)
Definition hourString (hour : option Z) : string :=
  padStart2 (toString hour) +:+ ":00".

End Js.

(** ** JavaScript [Map] as an insertion-ordered association list *)

Section JsMap.
Context {K V : Type} `{EqDecision K}.

Fixpoint Map_get (k : K) (m : list (K * V)) : option V :=
  match m with
  | [] => None
  | (k', v) :: r => if decide (k = k') then Some v else Map_get k r
  end.

(** [m.set(k, v)]: an existing key keeps its position, a new key goes last. *)
Fixpoint Map_set (k : K) (v : V) (m : list (K * V)) : list (K * V) :=
  match m with
  | [] => [(k, v)]
  | (k', v') :: r =>
      if decide (k = k') then (k, v) :: r else (k', v') :: Map_set k v r
  end.

Definition Map_values (m : list (K * V)) : list V := m.*2.
End JsMap.

(** ** Data model ([src/models/index.js]) *)

Inductive TokenStatus := ALLOCATED | CONFIRMED | CANCELLED | COMPLETED | NO_SHOW.

(** The fields of a [Token] object fixed at construction. *)
Record Token := mkToken {
  id : nat;
  patientId : string;
  doctorId : string;
  source : string;
  priority : nat
}.

(** The fields of a [Token] object the engine assigns to. *)
Record TokenFields := mkFields {
  slotTime : string;
  status : TokenStatus
}.

Record Slot := mkSlot {
  slotDoctorId : string;
  startTime : string;
  endTime : string;
  maxCapacity : Z;
  slotTokens : list Token;
  availableCapacity : Z
}.

Record Doctor := mkDoctor {
  doctorKey : string;               (* Doctor.id *)
  name : string;
  specialization : string;
  workingHoursStart : string;       (* workingHours.start *)
  workingHoursEnd : string;         (* workingHours.end *)
  slots : list (string * Slot)
}.

#[global] Instance Token_eq_dec : EqDecision Token.
Proof. solve_decision. Defined.
#[global] Instance TokenStatus_eq_dec : EqDecision TokenStatus.
Proof. solve_decision. Defined.

(** [new Slot(doctorId, startTime, endTime)], with the default capacity 10. *)
Definition newSlot (doctorId startTime endTime : string) : Slot :=
  {| slotDoctorId := doctorId; startTime := startTime; endTime := endTime;
     maxCapacity := 10; slotTokens := []; availableCapacity := 10 |}.

(** [new Doctor(id, name, specialization, workingHours)]. *)
Definition newDoctor (id name specialization whStart whEnd : string) : Doctor :=
  {| doctorKey := id; name := name; specialization := specialization;
     workingHoursStart := whStart; workingHoursEnd := whEnd; slots := [] |}.

(** [TOKEN_SOURCES], in the order of [Object.values]. *)
Definition TOKEN_SOURCES : list (string * nat) :=
  [("emergency", 10); ("priority", 8); ("followup", 6); ("online", 4); ("walkin", 2)].

Definition EMERGENCY : string * nat := ("emergency", 10).
Definition WALKIN : string * nat := ("walkin", 2).

(** [Slot.addToken]. *)
Definition addToken (token : Token) (slot : Slot) : bool * Slot :=
  if (0 <? availableCapacity slot)%Z then
    (true, {| slotDoctorId := slotDoctorId slot; startTime := startTime slot;
              endTime := endTime slot; maxCapacity := maxCapacity slot;
              slotTokens := slotTokens slot ++ [token];
              availableCapacity := availableCapacity slot - 1 |})
  else (false, slot).

(** [tokens.findIndex(t => t.id === tokenId)]; [None] is [-1]. *)
Fixpoint findIndex (tokenId : nat) (l : list Token) : option nat :=
  match l with
  | [] => None
  | t :: r => if Nat.eqb (id t) tokenId then Some 0 else S <$> findIndex tokenId r
  end.

(** [Slot.removeToken]. *)
Definition removeToken (tokenId : nat) (slot : Slot) : bool * Slot :=
  match findIndex tokenId (slotTokens slot) with
  | Some index =>
      (true, {| slotDoctorId := slotDoctorId slot; startTime := startTime slot;
                endTime := endTime slot; maxCapacity := maxCapacity slot;
                slotTokens := delete index (slotTokens slot);
                availableCapacity := availableCapacity slot + 1 |})
  | None => (false, slot)
  end.

(** ** The engine ([src/services/TokenAllocationEngine.js]) *)

(** The scan of [tryBumpLowerPriorityToken]: the loop variables
    [lowestPriorityToken] ([None] is [null]) and [lowestPriority]. *)
Fixpoint scanLowest (l : list Token) (lowestPriorityToken : option Token)
    (lowestPriority : nat) : option Token :=
  match l with
  | [] => lowestPriorityToken
  | existingToken :: r =>
      if priority existingToken <? lowestPriority
      then scanLowest r (Some existingToken) (priority existingToken)
      else scanLowest r lowestPriorityToken lowestPriority
  end.

(** [tryBumpLowerPriorityToken(slot, newToken)]: the slot and the waiting
    queue it mutates are passed in and returned. *)
Definition tryBumpLowerPriorityToken (slot : Slot) (newToken : Token)
    (waitingQueue : list Token) : bool * Slot * list Token :=
  match scanLowest (slotTokens slot) None (priority newToken) with
  | Some lowestPriorityToken =>
      let slot1 := (removeToken (id lowestPriorityToken) slot).2 in
      let waitingQueue1 := waitingQueue ++ [lowestPriorityToken] in
      let slot2 := (addToken newToken slot1).2 in
      (true, slot2, waitingQueue1)
  | None => (false, slot, waitingQueue)
  end.

(** [canBumpTokenInSlot(slot, newPriority)]. *)
Definition canBumpTokenInSlot (slot : Slot) (newPriority : nat) : bool :=
  existsb (λ token, priority token <? newPriority) (slotTokens slot).

(** The engine object, together with the object store of the mutable token
    fields and the identifier generator. *)
Record Engine := mkEngine {
  doctors : list (string * Doctor);     (* this.doctors : Map doctorId -> Doctor *)
  tokens : gmap nat Token;              (* this.tokens  : Map tokenId -> Token *)
  waitingQueue : list Token;            (* this.waitingQueue *)
  fields : gmap nat TokenFields;        (* slotTime and status of every Token object *)
  nextId : nat                          (* the next identifier uuid.v4() returns *)
}.

(** [new TokenAllocationEngine()]. *)
Definition newEngine : Engine :=
  {| doctors := []; tokens := ∅; waitingQueue := []; fields := ∅; nextId := 0 |}.

Definition setDoctors (d : list (string * Doctor)) (s : Engine) : Engine :=
  {| doctors := d; tokens := tokens s; waitingQueue := waitingQueue s;
     fields := fields s; nextId := nextId s |}.

Definition setTokens (t : gmap nat Token) (s : Engine) : Engine :=
  {| doctors := doctors s; tokens := t; waitingQueue := waitingQueue s;
     fields := fields s; nextId := nextId s |}.

Definition setWaitingQueue (q : list Token) (s : Engine) : Engine :=
  {| doctors := doctors s; tokens := tokens s; waitingQueue := q;
     fields := fields s; nextId := nextId s |}.

Definition setFields (f : gmap nat TokenFields) (s : Engine) : Engine :=
  {| doctors := doctors s; tokens := tokens s; waitingQueue := waitingQueue s;
     fields := f; nextId := nextId s |}.

(** Reading and writing [token.slotTime] and [token.status].  A token that
    has no entry in the store reads as [undefined]. *)
Definition getSlotTime (token : Token) (s : Engine) : string :=
  match fields s !! id token with
  | Some f => slotTime f
  | None => "undefined"
  end.

Definition getStatus (token : Token) (s : Engine) : option TokenStatus :=
  status <$> fields s !! id token.

Definition setSlotTime (token : Token) (t : string) (s : Engine) : Engine :=
  setFields (<[id token := {| slotTime := t;
                              status := default ALLOCATED (getStatus token s) |}]>
             (fields s)) s.

Definition setStatus (token : Token) (st : TokenStatus) (s : Engine) : Engine :=
  setFields (<[id token := {| slotTime := getSlotTime token s; status := st |}]>
             (fields s)) s.

(** Writing a mutated [Slot] object back at its place: the slot with key
    [slotKey] of the doctor registered as [doctorId]. *)
Definition putSlot (doctorId : string) (doctor : Doctor) (slotKey : string)
    (slot : Slot) (s : Engine) : Engine :=
  setDoctors
    (Map_set doctorId
       {| doctorKey := doctorKey doctor; name := name doctor;
          specialization := specialization doctor;
          workingHoursStart := workingHoursStart doctor;
          workingHoursEnd := workingHoursEnd doctor;
          slots := Map_set slotKey slot (slots doctor) |}
       (doctors s)) s.

(** *** Completions: normal return, exception, or an exhausted loop budget *)

Inductive completion (A : Type) :=
  | Normal (a : A)
  | Throw (message : string)
  | OutOfFuel.
Arguments Normal {A} a.
Arguments Throw {A} message.
Arguments OutOfFuel {A}.

Definition M (A : Type) : Type := Engine → completion A * Engine.

Definition ret {A} (a : A) : M A := λ s, (Normal a, s).

Definition bind {A B} (m : M A) (k : A → M B) : M B := λ s,
  match m s with
  | (Normal a, s') => k a s'
  | (Throw e, s') => (Throw e, s')
  | (OutOfFuel, s') => (OutOfFuel, s')
  end.

Definition throw {A} (message : string) : M A := λ s, (Throw message, s).

(** [try { m } catch (error) { h error.message }]. *)
Definition tryCatch {A} (m : M A) (h : string → M A) : M A := λ s,
  match m s with
  | (Throw e, s') => h e s'
  | r => r
  end.

Definition gets {A} (f : Engine → A) : M A := λ s, (Normal (f s), s).
Definition modify (f : Engine → Engine) : M unit := λ s, (Normal tt, f s).

Notation "'let*' x ':=' m 'in' k" := (bind m (λ x, k))
  (at level 10, x pattern, m at level 100, k at level 200).
Notation "m ';;' k" := (bind m (λ _ : unit, k))
  (at level 100, k at level 200, right associativity).

(** What reading a property of [undefined] throws ([this.doctors.get] found
    no doctor and [doctor.slots] is evaluated). *)
Definition TypeError_slots : string :=
  "Cannot read properties of undefined (reading 'slots')".

(** [this.doctors.get(doctorId)] followed by a property access on the result. *)
Definition getDoctor (doctorId : string) : M Doctor := λ s,
  match Map_get doctorId (doctors s) with
  | Some doctor => (Normal doctor, s)
  | None => (Throw TypeError_slots, s)
  end.

Definition slotKeyOf (doctorId slotTime : string) : string :=
  doctorId +:+ "-" +:+ slotTime.

(** [new Token(patientId, doctorId, slotTime, source, priority)]. *)
Definition newToken (patientId doctorId slotTime source : string) (priority : nat)
    : M Token := λ s,
  let token := {| id := nextId s; patientId := patientId; doctorId := doctorId;
                  source := source; priority := priority |} in
  (Normal token,
   {| doctors := doctors s; tokens := tokens s; waitingQueue := waitingQueue s;
      fields := <[nextId s := {| slotTime := slotTime; status := ALLOCATED |}]> (fields s);
      nextId := S (nextId s) |}).

(** [initializeDoctorSlots(doctor)]: the slot table after the loop.  The
    loop counts the hours from the start hour up to the end hour on
    mathematical integers, which is what [hour++] does on the doubles of
    JavaScript as long as the hours are within 2^53 in magnitude; beyond,
    the increment rounds and can stall, and the call need not return. *)
Definition initializeDoctorSlots (doctor : Doctor) : list (string * Slot) :=
  let startHour := Js.parseInt (Js.beforeColon (workingHoursStart doctor)) in
  let endHour := Js.parseInt (Js.beforeColon (workingHoursEnd doctor)) in
  let hours :=
    match startHour, endHour with
    | Some a, Some b => seqZ a (b - a)
    | _, _ => []                          (* a comparison with NaN is false *)
    end in
  foldl (λ table hour,
           let startTime := Js.hourString (Some hour) in
           let endTime := Js.hourString (Some (hour + 1)%Z) in
           let slotKey := slotKeyOf (doctorKey doctor) startTime in
           Map_set slotKey (newSlot (doctorKey doctor) startTime endTime) table)
        (slots doctor) hours.

(** [addDoctor(doctor)]. *)
Definition addDoctor (doctor : Doctor) : M unit :=
  modify (λ s,
    setDoctors
      (Map_set (doctorKey doctor)
         {| doctorKey := doctorKey doctor; name := name doctor;
            specialization := specialization doctor;
            workingHoursStart := workingHoursStart doctor;
            workingHoursEnd := workingHoursEnd doctor;
            slots := initializeDoctorSlots doctor |}
         (doctors s)) s).

(** [tryAllocateToSlot(token, slotTime)]. *)
Definition tryAllocateToSlot (token : Token) (slotTime : string) : M bool :=
  let* doctor := getDoctor (doctorId token) in
  let slotKey := slotKeyOf (doctorId token) slotTime in
  match Map_get slotKey (slots doctor) with
  | None => ret false
  | Some slot =>
      if (0 <? availableCapacity slot)%Z then
        let '(r, slot') := addToken token slot in
        modify (putSlot (doctorId token) doctor slotKey slot');;
        ret r
      else
        let* queue := gets waitingQueue in
        let '(r, slot', queue') := tryBumpLowerPriorityToken slot token queue in
        modify (λ s, setWaitingQueue queue' (putSlot (doctorId token) doctor slotKey slot' s));;
        ret r
  end.

(** The test both slot searches apply to a slot. *)
Definition eligible (slot : Slot) (priority : nat) : bool :=
  (0 <? availableCapacity slot)%Z || canBumpTokenInSlot slot priority.

(** The loop of [findAlternativeSlot] over [timeRange]. *)
Fixpoint probeOffsets (doctorId : string) (table : list (string * Slot))
    (preferredHour : option Z) (priority : nat) (timeRange : list Z) : option string :=
  match timeRange with
  | [] => None
  | offset :: rest =>
      let alternativeHour := Js.plus preferredHour offset in
      let alternativeTime := Js.hourString alternativeHour in
      let slotKey := slotKeyOf doctorId alternativeTime in
      match Map_get slotKey table with
      | Some slot =>
          if eligible slot priority then Some alternativeTime
          else probeOffsets doctorId table preferredHour priority rest
      | None => probeOffsets doctorId table preferredHour priority rest
      end
  end.

Definition timeRange : list Z := [-2; -1; 1; 2]%Z.

(** [findAlternativeSlot(doctorId, preferredTime, priority)]; [None] is [null]. *)
Definition findAlternativeSlot (doctorId preferredTime : string) (priority : nat)
    : M (option string) :=
  let* doctor := getDoctor doctorId in
  let preferredHour := Js.parseInt (Js.beforeColon preferredTime) in
  ret (probeOffsets doctorId (slots doctor) preferredHour priority timeRange).

(** The loop of [findAnyAvailableSlot] over [doctor.slots]. *)
Fixpoint firstEligible (table : list (string * Slot)) (priority : nat) : option string :=
  match table with
  | [] => None
  | (slotKey, slot) :: rest =>
      if eligible slot priority then Some (startTime slot)
      else firstEligible rest priority
  end.

(** [findAnyAvailableSlot(doctorId, priority)]. *)
Definition findAnyAvailableSlot (doctorId : string) (priority : nat) : M (option string) :=
  let* doctor := getDoctor doctorId in
  ret (firstEligible (slots doctor) priority).

(** [getSourceConfig(source)]. *)
Definition getSourceConfig (source : string) : string * nat :=
  default WALKIN (List.find (λ s, String.eqb s.1 source) TOKEN_SOURCES).

(** The result objects of the public methods. *)
Record Outcome := mkOutcome {
  success : bool;
  token : option Token;
  message : option string;
  error : option string
}.

(** [this.tokens.set(token.id, token)]. *)
Definition registerToken (token : Token) (s : Engine) : Engine :=
  setTokens (<[id token := token]> (tokens s)) s.

(** [this.waitingQueue.push(token)]. *)
Definition pushWaiting (token : Token) (s : Engine) : Engine :=
  setWaitingQueue (waitingQueue s ++ [token]) s.

(** [allocateToken(patientId, doctorId, preferredTime, source)]. *)
Definition allocateToken (patientId doctorId preferredTime source : string) : M Outcome :=
  tryCatch
    (let* doctor := gets (λ s, Map_get doctorId (doctors s)) in
     match doctor with
     | None => throw "Doctor not found"
     | Some _ =>
         let sourceConfig := getSourceConfig source in
         let* token := newToken patientId doctorId preferredTime source sourceConfig.2 in
         let queued : M Outcome :=
           modify (pushWaiting token);;
           ret {| success := false; token := Some token;
                  message := Some "No slots available, added to waiting queue";
                  error := None |} in
         let* placed := tryAllocateToSlot token preferredTime in
         if placed then
           modify (registerToken token);;
           ret {| success := true; token := Some token;
                  message := Some "Token allocated successfully"; error := None |}
         else
           let* alternativeSlot := findAlternativeSlot doctorId preferredTime sourceConfig.2 in
           match alternativeSlot with
           | Some alternative =>
               if Js.truthy alternative then
                 modify (setSlotTime token alternative);;
                 let* placed' := tryAllocateToSlot token alternative in
                 if placed' then
                   modify (registerToken token);;
                   ret {| success := true; token := Some token;
                          message := Some ("Token allocated to alternative slot: " +:+ alternative);
                          error := None |}
                 else queued
               else queued
           | None => queued
           end
     end)
    (λ e, ret {| success := false; token := None; message := None; error := Some e |}).

(** The body of the loop of [processWaitingQueue], for the element [token]
    of the queue; the loop variables [reallocated] and [stillWaiting] are
    passed in and returned. *)
Definition replayBody (token : Token) (reallocated stillWaiting : list Token)
    : M (list Token * list Token) :=
  let* availableSlot := findAnyAvailableSlot (doctorId token) (priority token) in
  match availableSlot with
  | Some available =>
      if Js.truthy available then
        modify (setSlotTime token available);;
        let* placed := tryAllocateToSlot token available in
        if placed then ret (reallocated ++ [token], stillWaiting)
        else ret (reallocated, stillWaiting ++ [token])
      else ret (reallocated, stillWaiting ++ [token])
  | None => ret (reallocated, stillWaiting ++ [token])
  end.

(** The loop [for (const token of this.waitingQueue)].  The array iterator
    holds the array object and an index, and compares the index with the
    current length at every step: elements pushed onto the array by the
    body ([tryBumpLowerPriorityToken]) are visited by the same loop.  [index]
    is the iterator's position; [fuel] bounds the number of steps. *)
Fixpoint replayLoop (fuel index : nat) (reallocated stillWaiting : list Token)
    : M (list Token * list Token) :=
  match fuel with
  | 0 => λ s, (OutOfFuel, s)
  | S fuel' => λ s,
      match waitingQueue s !! index with
      | None => (Normal (reallocated, stillWaiting), s)
      | Some token =>
          bind (replayBody token reallocated stillWaiting)
               (λ '(r, w), replayLoop fuel' (S index) r w) s
      end
  end.

(** A number of steps no replay exceeds (see [replayLoop_fuel]): every step
    either consumes an element or replaces it by one of lower priority. *)
Definition replayWeight (queue : list Token) : nat :=
  sum_list ((λ t, S (priority t)) <$> queue).

(** [processWaitingQueue()]. *)
Definition processWaitingQueue : M (list Token) :=
  let* queue := gets waitingQueue in
  let* result := replayLoop (S (replayWeight queue)) 0 [] [] in
  let '(reallocated, stillWaiting) := result in
  modify (setWaitingQueue stillWaiting);;
  ret reallocated.

(** [cancelToken(tokenId)]. *)
Definition cancelToken (tokenId : nat) : M Outcome :=
  let* found := gets (λ s, tokens s !! tokenId) in
  match found with
  | None =>
      ret {| success := false; token := None;
             message := Some "Token not found"; error := None |}
  | Some token =>
      let* doctor := getDoctor (doctorId token) in
      let* time := gets (getSlotTime token) in
      let slotKey := slotKeyOf (doctorId token) time in
      match Map_get slotKey (slots doctor) with
      | Some slot =>
          modify (putSlot (doctorId token) doctor slotKey (removeToken tokenId slot).2)
      | None => ret tt
      end;;
      modify (setStatus token CANCELLED);;
      let* _ := processWaitingQueue in
      ret {| success := true; token := None;
             message := Some "Token cancelled successfully"; error := None |}
  end.

(** [insertEmergencyToken(patientId, doctorId, urgentTime)]. *)
Definition insertEmergencyToken (patientId doctorId urgentTime : string) : M Outcome :=
  let* emergencyToken := newToken patientId doctorId urgentTime EMERGENCY.1 EMERGENCY.2 in
  let* placed := tryAllocateToSlot emergencyToken urgentTime in
  if placed then
    modify (registerToken emergencyToken);;
    let* _ := processWaitingQueue in
    ret {| success := true; token := Some emergencyToken;
           message := Some "Emergency token allocated successfully"; error := None |}
  else
    ret {| success := false; token := None;
           message := Some "Failed to allocate emergency token"; error := None |}.

(** The result object of [getSystemStats]. *)
Record Stats := mkStats {
  totalDoctors : Z;
  totalSlots : Z;
  occupiedSlots : Z;
  totalCapacity : Z;
  allocatedTokens : Z;
  waitingQueueLength : Z;
  utilizationRate : string
}.

(** All slots, in the order the two nested loops of [getSystemStats] visit
    them. *)
Definition allSlots (s : Engine) : list Slot :=
  Map_values (doctors s) ≫= (λ doctor, Map_values (slots doctor)).

(** [getSystemStats()]. *)
Definition getSystemStats (s : Engine) : Stats :=
  let '(totalSlots, occupiedSlots, totalCapacity, allocatedTokens) :=
    foldl (λ (counters : Z * Z * Z * Z) slot,
             let '(totalSlots, occupiedSlots, totalCapacity, allocatedTokens) := counters in
             let n := Z.of_nat (length (slotTokens slot)) in
             (totalSlots + 1,
              if 0 <? n then occupiedSlots + 1 else occupiedSlots,
              totalCapacity + maxCapacity slot,
              allocatedTokens + n)%Z)
          (0, 0, 0, 0)%Z (allSlots s) in
  {| totalDoctors := Z.of_nat (length (doctors s));
     totalSlots := totalSlots;
     occupiedSlots := occupiedSlots;
     totalCapacity := totalCapacity;
     allocatedTokens := allocatedTokens;
     waitingQueueLength := Z.of_nat (length (waitingQueue s));
     utilizationRate :=
       Js.toFixed2 (Js.times100 (Js.div allocatedTokens totalCapacity)) +:+ "%" |}.

(** *** The schedule of a doctor *)

(** [array.sort(comparefn)].  The sort is stable, so for a consistent
    comparator its result is the one insertion from the right yields: an
    element passes the elements the comparator puts before it
    ([comparefn(x, y) > 0]) and stops at the first other one. *)
Fixpoint sortInsert {A} (comparefn : A → A → Z) (x : A) (l : list A) : list A :=
  match l with
  | [] => [x]
  | y :: r => if (0 <? comparefn x y)%Z then y :: sortInsert comparefn x r
              else x :: y :: r
  end.

Definition Array_sort {A} (comparefn : A → A → Z) (l : list A) : list A :=
  foldr (sortInsert comparefn) [] l.

(** The objects [getDoctorSchedule] builds: the view of a token, the entry
    of a slot and the result. *)
Module View.
Record t := mk {
  id : nat;
  patientId : string;
  source : string;
  priority : nat;
  status : option TokenStatus
}.
End View.

Module Entry.
Record t := mk {
  time : string;
  capacity : Z;
  allocated : Z;
  available : Z;
  tokens : list View.t
}.
End Entry.

Module Schedule.
Record t := mk {
  doctorId : string;
  doctorName : string;
  doctorSpecialization : string;
  schedule : list Entry.t
}.
End Schedule.

(** The view [{id, patientId, source, priority, status}] of a token. *)
Definition tokenView (s : Engine) (t : Token) : View.t :=
  {| View.id := id t; View.patientId := patientId t; View.source := source t;
     View.priority := priority t; View.status := getStatus t s |}.

(** The body of the loop of [getDoctorSchedule]: the entry pushed for
    [slot]. *)
Definition scheduleEntry (s : Engine) (slot : Slot) : Entry.t :=
  let sortedTokens :=
    Array_sort (λ a b, Z.of_nat (View.priority b) - Z.of_nat (View.priority a))%Z
               (tokenView s <$> slotTokens slot) in
  {| Entry.time := startTime slot +:+ "-" +:+ endTime slot;
     Entry.capacity := maxCapacity slot;
     Entry.allocated := Z.of_nat (length (slotTokens slot));
     Entry.available := availableCapacity slot;
     Entry.tokens := sortedTokens |}.

(** [getDoctorSchedule(doctorId)]; [None] is [null].  [localeCompare] is the
    collation of the host, a parameter of the model. *)
Definition getDoctorSchedule (localeCompare : string → string → Z)
    (doctorId : string) (s : Engine) : option Schedule.t :=
  match Map_get doctorId (doctors s) with
  | None => None
  | Some doctor =>
      let schedule := scheduleEntry s <$> Map_values (slots doctor) in
      Some {| Schedule.doctorId := doctorKey doctor;
              Schedule.doctorName := name doctor;
              Schedule.doctorSpecialization := specialization doctor;
              Schedule.schedule :=
                Array_sort (λ a b, localeCompare (Entry.time a) (Entry.time b)) schedule |}
  end.

(** ** Sequences of calls *)

(** The public methods, with their arguments.  A doctor is registered the
    way the callers do it: [addDoctor(new Doctor(...))]. *)
Inductive Call :=
  | CallAddDoctor (id name specialization whStart whEnd : string)
  | CallAllocateToken (patientId doctorId preferredTime source : string)
  | CallInsertEmergencyToken (patientId doctorId urgentTime : string)
  | CallCancelToken (tokenId : nat)
  | CallProcessWaitingQueue.

(** The engine after a call, however the call completes. *)
Definition exec (c : Call) (s : Engine) : Engine :=
  match c with
  | CallAddDoctor i n sp a b => (addDoctor (newDoctor i n sp a b) s).2
  | CallAllocateToken p d t src => (allocateToken p d t src s).2
  | CallInsertEmergencyToken p d t => (insertEmergencyToken p d t s).2
  | CallCancelToken k => (cancelToken k s).2
  | CallProcessWaitingQueue => (processWaitingQueue s).2
  end.

Definition execAll (calls : list Call) (s : Engine) : Engine :=
  foldl (λ s c, exec c s) s calls.

(** The states the engine can be in: those a sequence of calls produces from
    a new engine. *)
Definition reachable (s : Engine) : Prop :=
  ∃ calls, s = execAll calls newEngine.

(** All occupants of all slots. *)
Definition occupants (s : Engine) : list Token :=
  allSlots s ≫= slotTokens.

(** * Vocabulary of the properties *)

(** ** Predicates *)

(** What makes a candidate time a match: its slot exists and has spare
    capacity or an occupant of strictly lower priority. *)
Definition qualifies (doctorId : string) (table : list (string * Slot))
    (p : nat) (time : string) : Prop :=
  ∃ slot, Map_get (slotKeyOf doctorId time) table = Some slot
          ∧ ((0 < availableCapacity slot)%Z
             ∨ ∃ t, t ∈ slotTokens slot ∧ priority t < p).

(** A slot is consistent: capacity 10, the stored free capacity is what the
    occupants leave, and it is not negative. *)
Definition slotOK (slot : Slot) : Prop :=
  maxCapacity slot = 10%Z
  ∧ availableCapacity slot = (maxCapacity slot - Z.of_nat (length (slotTokens slot)))%Z
  ∧ (0 ≤ availableCapacity slot)%Z.

(** How a successful [tryAllocateToSlot] changes the slot it finds: the
    token is added to spare capacity, or the scan's victim is removed first
    and goes to the waiting queue ([ev] is what is pushed onto the queue). *)
Definition placed (t : Token) (slot slot' : Slot) (ev : list Token) : Prop :=
  ((0 < availableCapacity slot)%Z ∧ ev = [] ∧ slot' = (addToken t slot).2)
  ∨ ((availableCapacity slot ≤ 0)%Z
     ∧ ∃ v, scanLowest (slotTokens slot) None (priority t) = Some v
            ∧ ev = [v]
            ∧ slot' = (addToken t (removeToken (id v) slot).2).2).

(** An entry of a doctor's slot table: the key is the one [tryAllocateToSlot]
    computes from the slot's start time, the start time is a non-empty
    string, and the slot is consistent. *)
Definition entryOK (k : string) (e : string * Slot) : Prop :=
  e.1 = slotKeyOf k (startTime e.2) ∧ Js.truthy (startTime e.2) = true ∧ slotOK e.2.

(** A doctor's slot table has distinct keys and consistent entries. *)
Definition tableOK (e : string * Doctor) : Prop :=
  NoDup (slots e.2).*1 ∧ Forall (entryOK e.1) (slots e.2).

Definition doctorsOK (s : Engine) : Prop := Forall tableOK (doctors s).

(** The tokens held by the slots and by [pool] (the waiting queue, or what
    is left of it during a replay) are pairwise distinct objects, were
    created by this engine, and belong to registered doctors. *)
Definition poolOK (pool : list Token) (s : Engine) : Prop :=
  NoDup (id <$> (occupants s ++ pool))
  ∧ Forall (λ t, id t < nextId s ∧ is_Some (Map_get (doctorId t) (doctors s)))
           (occupants s ++ pool).

(** Every registered identifier has been handed out. *)
Definition registryOK (s : Engine) : Prop :=
  ∀ k t, tokens s !! k = Some t → k < nextId s.

(** The invariant of the engine between calls. *)
Definition wellFormed (s : Engine) : Prop :=
  doctorsOK s ∧ poolOK (waitingQueue s) s ∧ registryOK s.

(** The array at the end of the loop of [processWaitingQueue]: the waiting
    queue the call started with, followed by what the evictions of this call
    appended. *)
Definition replayArray (s : Engine) : list Token :=
  waitingQueue (replayLoop (S (replayWeight (waitingQueue s))) 0 [] [] s).2.


(** No slot of the token's doctor passes the eligibility test for it:
    [findAnyAvailableSlot] returns [null]. *)
Definition blockedAt (s : Engine) (x : Token) : Prop :=
  ∃ d, Map_get (doctorId x) (doctors s) = Some d
       ∧ Forall (λ e, eligible e.2 (priority x) = false) (slots d).

(** The registry only grows, and only by identifiers not yet handed out. *)
Definition extends (s s' : Engine) : Prop :=
  nextId s ≤ nextId s' ∧ ∀ k, k < nextId s → tokens s' !! k = tokens s !! k.

(** An entry as [initializeDoctorSlots] creates it. *)
Definition freshEntry (k : string) (e : string * Slot) : Prop :=
  ∃ h, e = (slotKeyOf k (Js.hourString (Some h)),
            newSlot k (Js.hourString (Some h)) (Js.hourString (Some (h + 1)%Z))).

(** The slots of a list of doctors, in order. *)
Definition slotsOf (m : list (string * Doctor)) : list Slot :=
  m.*2 ≫= λ doctor, Map_values (slots doctor).

(** The state right after [new Token(...)], and the token it returns. *)
Definition afterNew (slotTime : string) (s : Engine) : Engine :=
  {| doctors := doctors s; tokens := tokens s; waitingQueue := waitingQueue s;
     fields := <[nextId s := {| slotTime := slotTime; status := ALLOCATED |}]> (fields s);
     nextId := S (nextId s) |}.

(** ** Further predicates *)

(** A time string the embedding reads as JavaScript does: the part before
    the colon consists of ASCII characters and, when it parses, denotes an
    hour of magnitude at most 10^15, so that the hour, its neighbours and
    the hours counted up from it are integers the numbers of JavaScript
    represent exactly. *)
Definition plainTime (time : string) : bool :=
  let hour := Js.beforeColon time in
  Js.isAscii hour
  && match Js.parseInt hour with
     | Some h => (Z.abs h <=? 10 ^ 15)%Z
     | None => true
     end.

(** A step of the loop of [processWaitingQueue], as seen from outside: the
    element of the array it visits, whether it pushes the element onto
    [reallocated], and what it appends to the array. *)
Record Visit := mkVisit {
  visitToken : Token;
  visitPlaced : bool;
  visitEvicted : list Token
}.

(** The steps [replayLoop] takes, in order: the same loop, recording each
    step instead of returning the result. *)
Fixpoint replayLog (fuel index : nat) (reallocated stillWaiting : list Token)
    (s : Engine) : list Visit :=
  match fuel with
  | 0 => []
  | S fuel' =>
      match waitingQueue s !! index with
      | None => []
      | Some token =>
          match replayBody token reallocated stillWaiting s with
          | (Normal (r, w), s') =>
              {| visitToken := token;
                 visitPlaced := length reallocated <? length r;
                 visitEvicted := drop (length (waitingQueue s)) (waitingQueue s') |}
              :: replayLog fuel' (S index) r w s'
          | _ => []
          end
      end
  end.

(** The steps of a call of [processWaitingQueue] in the state [s]. *)
Definition replayVisits (s : Engine) : list Visit :=
  replayLog (S (replayWeight (waitingQueue s))) 0 [] [] s.

(** The tokens the steps appended to the array, the elements they pushed
    onto [reallocated], and those they pushed onto [stillWaiting]. *)
Definition evictions (log : list Visit) : list Token := log ≫= visitEvicted.

Definition placements (log : list Visit) : list Token :=
  visitToken <$> filter (λ e, visitPlaced e = true) log.

Definition refusals (log : list Visit) : list Token :=
  visitToken <$> filter (λ e, visitPlaced e = false) log.

(** The candidate time [findAlternativeSlot] forms for [offset]. *)
Definition candidateTime (preferredTime : string) (offset : Z) : string :=
  Js.hourString (Js.plus (Js.parseInt (Js.beforeColon preferredTime)) offset).

(** The test of both searches on the slot addressed by [time], as a boolean:
    the slot exists and is eligible. *)
Definition qualifiesb (doctorId : string) (table : list (string * Slot))
    (p : nat) (time : string) : bool :=
  match Map_get (slotKeyOf doctorId time) table with
  | Some slot => eligible slot p
  | None => false
  end.

(** The four counters [getSystemStats] accumulates, as functions of the
    list of slots. *)
Definition capacityOf (l : list Slot) : Z :=
  foldr (λ slot acc, (maxCapacity slot + acc)%Z) 0%Z l.

Definition occupiedOf (l : list Slot) : Z :=
  foldr (λ slot acc, (if (0 <? Z.of_nat (length (slotTokens slot)))%Z
                      then 1 + acc else acc)%Z) 0%Z l.

(** The entry [initializeDoctorSlots] creates for [hour]: an empty slot of
    one hour under the key of its start time. *)
Definition hourEntry (doctorId : string) (hour : Z) : string * Slot :=
  (slotKeyOf doctorId (Js.hourString (Some hour)),
   newSlot doctorId (Js.hourString (Some hour)) (Js.hourString (Some (hour + 1)%Z))).

(** The token [x] occupies the slot stored under [slotKey] in the table of
    the doctor registered as [doctorId]. *)
Definition seated (s : Engine) (doctorId slotKey : string) (x : Token) : Prop :=
  ∃ doctor slot, Map_get doctorId (doctors s) = Some doctor
                 ∧ Map_get slotKey (slots doctor) = Some slot
                 ∧ x ∈ slotTokens slot.

(** No token held by a slot or by the waiting queue has a priority above
    that of an emergency. *)
Definition bounded (s : Engine) : Prop :=
  Forall (λ t, priority t ≤ 10) (occupants s ++ waitingQueue s).

(** Every token is registered under its own identifier. *)
Definition keyed (s : Engine) : Prop :=
  ∀ k t, tokens s !! k = Some t → id t = k.

(** The slot stored under [slotKey] in the table of the doctor registered
    as [doctorId], if there is one. *)
Definition slotAt (s : Engine) (doctorId slotKey : string) : option Slot :=
  match Map_get doctorId (doctors s) with
  | Some doctor => Map_get slotKey (slots doctor)
  | None => None
  end.

(** The calls that leave the seat of token [x] of doctor [doctorId] alone:
    all but a new registration of that doctor and the cancellation of [x]. *)
Definition spares (c : Call) (doctorId : string) (x : Token) : Prop :=
  match c with
  | CallAddDoctor i _ _ _ _ => i ≠ doctorId
  | CallCancelToken k => k ≠ id x
  | _ => True
  end.

(** ** Scenarios and sample values *)

(** Sample tokens and slots for the examples. *)
Definition demoToken (k p : nat) : Token :=
  {| id := k; patientId := "P"; doctorId := "D"; source := "s"; priority := p |}.

Definition demoSlot (l : list Token) : Slot :=
  {| slotDoctorId := "D"; startTime := "09:00"; endTime := "10:00"; maxCapacity := 10;
     slotTokens := l; availableCapacity := 10 - Z.of_nat (length l) |}.

(** The calls of the scenario for C2: one slot, ten walk-in tokens (ids 0 to
    9) fill it, a priority token (id 10) evicts token 0 into the waiting
    queue. *)
Definition cancelScenario : list Call :=
  CallAddDoctor "D1" "Dr" "Gen" "09:00" "10:00"
  :: replicate 10 (CallAllocateToken "W" "D1" "09:00" "walkin")
  ++ [CallAllocateToken "V" "D1" "09:00" "priority"].

Definition evictedToken : Token :=
  {| id := 0; patientId := "W"; doctorId := "D1"; source := "walkin"; priority := 2 |}.

(** The calls of the scenario for C9: four slots; priority tokens fill
    09:00, 10:00 and 11:00 (ids 0 to 29) and leave one unit free at 12:00
    (ids 30 to 38); then an online, a priority and a walk-in request for
    09:00 (ids 39, 40, 41) find no room within two hours and are queued in
    that order. *)
Definition orderScenario : list Call :=
  CallAddDoctor "D1" "Dr" "Gen" "09:00" "13:00"
  :: replicate 10 (CallAllocateToken "V" "D1" "09:00" "priority")
  ++ replicate 10 (CallAllocateToken "V" "D1" "10:00" "priority")
  ++ replicate 10 (CallAllocateToken "V" "D1" "11:00" "priority")
  ++ replicate 9 (CallAllocateToken "V" "D1" "12:00" "priority")
  ++ [CallAllocateToken "X" "D1" "09:00" "online";
      CallAllocateToken "Y" "D1" "09:00" "priority";
      CallAllocateToken "Z" "D1" "09:00" "walkin"].

Definition tokenX : Token :=
  {| id := 39; patientId := "X"; doctorId := "D1"; source := "online"; priority := 4 |}.

Definition tokenY : Token :=
  {| id := 40; patientId := "Y"; doctorId := "D1"; source := "priority"; priority := 8 |}.

Definition tokenZ : Token :=
  {| id := 41; patientId := "Z"; doctorId := "D1"; source := "walkin"; priority := 2 |}.

Definition walkinToken (k : nat) : Token :=
  {| id := k; patientId := "W"; doctorId := "D1"; source := "walkin"; priority := 2 |}.

Definition priorityToken (k : nat) : Token :=
  {| id := k; patientId := "V"; doctorId := "D1"; source := "priority"; priority := 8 |}.

(** The only slot of [cancelScenario] after its calls. *)
Definition fullSlot : Slot :=
  {| slotDoctorId := "D1"; startTime := "09:00"; endTime := "10:00"; maxCapacity := 10;
     slotTokens := (walkinToken <$> seq 1 9)
                   ++ [{| id := 10; patientId := "V"; doctorId := "D1";
                          source := "priority"; priority := 8 |}];
     availableCapacity := 0 |}.

(** The calls of the scenario for C1: three slots; ten priority tokens (ids
    0 to 9) fill 09:00, ten walk-in tokens (ids 10 to 19) fill 10:00, 11:00
    stays empty; an emergency request for 09:00 evicts token 0 into the
    waiting queue. *)
Definition cascadeScenario : list Call :=
  CallAddDoctor "D1" "Dr" "Gen" "09:00" "12:00"
  :: replicate 10 (CallAllocateToken "V" "D1" "09:00" "priority")
  ++ replicate 10 (CallAllocateToken "W" "D1" "10:00" "walkin")
  ++ [CallAllocateToken "E" "D1" "09:00" "emergency"].

(** The emergency token of [cascadeScenario]. *)
Definition emergencyToken : Token :=
  {| id := 20; patientId := "E"; doctorId := "D1"; source := "emergency"; priority := 10 |}.

(** * Properties *)

Ltac unfoldM :=
  unfold bind, ret, gets, modify, throw, tryCatch, getDoctor in *; simpl in *.

(** ** The scan for the token to evict *)

Section Scan.
Implicit Types (l : list Token) (acc : option Token) (p : nat).

Lemma scanLowest_spec l acc p :
  (scanLowest l acc p = acc ∧ ∀ t, t ∈ l → p ≤ priority t)
  ∨ ∃ i v, scanLowest l acc p = Some v ∧ l !! i = Some v
      ∧ priority v < p
      ∧ (∀ t, t ∈ l → priority v ≤ priority t)
      ∧ (∀ j t, j < i → l !! j = Some t → priority v < priority t).
Proof.
  revert acc p. induction l as [|t r IH]; intros acc p; simpl.
  - left. split; [done|]. intros t Ht. by apply elem_of_nil in Ht.
  - destruct (Nat.ltb_spec (priority t) p) as [Hlt|Hge].
    + right. destruct (IH (Some t) (priority t)) as [[-> Hall]|(i & v & -> & Hi & Hv & Hmin & Hfirst)].
      * exists 0, t. repeat split; try done.
        -- intros u [->|Hu]%elem_of_cons; [lia|by apply Hall].
        -- intros j u Hj. lia.
      * exists (S i), v. repeat split; try done; [lia| |].
        -- intros u [->|Hu]%elem_of_cons; [lia|by apply Hmin].
        -- intros [|j] u Hj Hu; simpl in Hu.
           ++ injection Hu as <-. lia.
           ++ apply (Hfirst j); [lia|done].
    + destruct (IH acc p) as [[-> Hall]|(i & v & -> & Hi & Hv & Hmin & Hfirst)].
      * left. split; [done|]. intros u [->|Hu]%elem_of_cons; [lia|by apply Hall].
      * right. exists (S i), v. repeat split; try done.
        -- intros u [->|Hu]%elem_of_cons; [lia|by apply Hmin].
        -- intros [|j] u Hj Hu; simpl in Hu.
           ++ injection Hu as <-. lia.
           ++ apply (Hfirst j); [lia|done].
Qed.

Lemma findIndex_Some l k i : findIndex k l = Some i → ∃ t, l !! i = Some t ∧ id t = k.
Proof.
  revert i. induction l as [|t r IH]; intros i; simpl; [done|].
  destruct (Nat.eqb_spec (id t) k) as [He|Hne].
  - intros [= <-]. by exists t.
  - destruct (findIndex k r) as [j|] eqn:Hj; [|done].
    intros [= <-]. by apply IH.
Qed.

Lemma findIndex_None l k : findIndex k l = None → k ∉ id <$> l.
Proof.
  induction l as [|t r IH]; simpl; [intros _; apply not_elem_of_nil|].
  destruct (Nat.eqb_spec (id t) k) as [He|Hne]; [done|].
  destruct (findIndex k r); [done|]. intros _.
  rewrite elem_of_cons. intros [?|?]; [done|by apply IH].
Qed.

Lemma findIndex_NoDup l i v :
  NoDup (id <$> l) → l !! i = Some v → findIndex (id v) l = Some i.
Proof.
  revert i. induction l as [|t r IH]; intros i Hnd Hi; [done|].
  simpl in *. apply NoDup_cons in Hnd as [Hnotin Hnd].
  destruct i as [|i]; simpl in Hi.
  - injection Hi as ->. by rewrite Nat.eqb_refl.
  - destruct (Nat.eqb_spec (id t) (id v)) as [He|Hne].
    + exfalso. apply Hnotin. rewrite He. apply list_elem_of_fmap.
      exists v. split; [done|]. by eapply list_elem_of_lookup_2.
    + by rewrite (IH i Hnd Hi).
Qed.

Lemma elem_of_delete_ne l i (v t : Token) :
  l !! i = Some v → t ∈ l → t ≠ v → t ∈ delete i l.
Proof.
  revert i. induction l as [|u r IH]; intros i Hi Ht Hne; [done|].
  destruct i as [|i]; simpl in *.
  - injection Hi as ->. apply elem_of_cons in Ht as [?|?]; done.
  - apply elem_of_cons in Ht as [->|Ht]; [apply elem_of_cons; by left|].
    apply elem_of_cons. right. by eapply IH.
Qed.
End Scan.

(** C5. Preemption evicts the occupant of lowest priority among those of
    priority strictly below the incoming token's, the first such occupant in
    scan order when several share that priority: the evicted token's
    priority is strictly below the incoming one, and an occupant whose
    priority is equal to or above the incoming one stays in the slot.  When
    no occupant has lower priority, nothing changes. *)
Theorem C5_preemption_selects_first_lowest
    (slot : Slot) (incoming : Token) (queue : list Token) :
  NoDup (id <$> slotTokens slot) →
  (∀ t, t ∈ slotTokens slot → priority incoming ≤ priority t →
        t ∈ slotTokens (tryBumpLowerPriorityToken slot incoming queue).1.2)
  ∧ ((tryBumpLowerPriorityToken slot incoming queue = (false, slot, queue)
      ∧ ∀ t, t ∈ slotTokens slot → priority incoming ≤ priority t)
     ∨ ∃ i victim slot1,
         slotTokens slot !! i = Some victim
         ∧ priority victim < priority incoming
         ∧ (∀ t, t ∈ slotTokens slot → priority victim ≤ priority t)
         ∧ (∀ j t, j < i → slotTokens slot !! j = Some t → priority victim < priority t)
         ∧ removeToken (id victim) slot = (true, slot1)
         ∧ slotTokens slot1 = delete i (slotTokens slot)
         ∧ tryBumpLowerPriorityToken slot incoming queue
           = (true, (addToken incoming slot1).2, queue ++ [victim])).
Proof.
  intros Hnd. unfold tryBumpLowerPriorityToken.
  destruct (scanLowest_spec (slotTokens slot) None (priority incoming))
    as [[-> Hall]|(i & v & -> & Hi & Hv & Hmin & Hfirst)].
  - split; [by intros|]. left. done.
  - pose proof (findIndex_NoDup _ _ _ Hnd Hi) as Hfind.
    assert (Hrm : removeToken (id v) slot
              = (true, {| slotDoctorId := slotDoctorId slot; startTime := startTime slot;
                          endTime := endTime slot; maxCapacity := maxCapacity slot;
                          slotTokens := delete i (slotTokens slot);
                          availableCapacity := availableCapacity slot + 1 |})).
    { unfold removeToken. by rewrite Hfind. }
    split.
    + intros t Ht Hge. simpl. rewrite Hrm. simpl.
      assert (t ∈ delete i (slotTokens slot)) as Hin.
      { eapply elem_of_delete_ne; [done..|]. intros ->. lia. }
      unfold addToken; simpl. case_match; simpl; [|done].
      apply elem_of_app. by left.
    + right. eexists i, v, _. rewrite Hrm. simpl. done.
Qed.

Lemma C5_witness :
  let slot := demoSlot [demoToken 0 8; demoToken 1 4; demoToken 2 2; demoToken 3 2;
                        demoToken 4 6; demoToken 5 6; demoToken 6 6; demoToken 7 6;
                        demoToken 8 10; demoToken 9 2] in
  tryBumpLowerPriorityToken slot (demoToken 10 6) []
  = (true, demoSlot [demoToken 0 8; demoToken 1 4; demoToken 3 2;
                     demoToken 4 6; demoToken 5 6; demoToken 6 6; demoToken 7 6;
                     demoToken 8 10; demoToken 9 2; demoToken 10 6], [demoToken 2 2])
  ∧ demoToken 4 6 ∈ slotTokens (tryBumpLowerPriorityToken slot (demoToken 10 6) []).1.2.
Proof.
  intros slot. split; [reflexivity|].
  assert (Hnd : NoDup (id <$> slotTokens slot)) by (by apply (bool_decide_unpack _)).
  apply (proj1 (C5_preemption_selects_first_lowest slot (demoToken 10 6) [] Hnd)).
  - by apply (bool_decide_unpack _).
  - simpl. lia.
Defined.

(** ** Association lists *)

Section JsMapFacts.
Context {K V : Type} `{EqDecision K}.
Implicit Types (m : list (K * V)).

Lemma Map_set_same k v m : Map_get k m = Some v → Map_set k v m = m.
Proof.
  induction m as [|[k' v'] r IH]; simpl; [done|].
  case_decide as Hk; [intros [= ->]; by subst|].
  intros Hr. by rewrite IH.
Qed.

Lemma Map_get_split k v m :
  Map_get k m = Some v →
  ∃ m1 m2, m = m1 ++ (k, v) :: m2 ∧ ∀ v', Map_set k v' m = m1 ++ (k, v') :: m2.
Proof.
  induction m as [|[k' v0] r IH]; simpl; [done|].
  case_decide as Hk.
  - intros [= ->]. subst k'. exists [], r. split; [done|]. intros v'. done.
  - intros Hr. destruct (IH Hr) as (m1 & m2 & -> & Hset).
    exists ((k', v0) :: m1), m2. split; [done|]. intros v'. simpl. by rewrite Hset.
Qed.

Lemma Map_get_elem_of k v m : Map_get k m = Some v → (k, v) ∈ m.
Proof.
  intros (m1 & m2 & -> & _)%Map_get_split. apply elem_of_app. right. apply elem_of_cons. by left.
Qed.

Lemma Map_get_set k k' v m :
  Map_get k' (Map_set k v m) = if decide (k' = k) then Some v else Map_get k' m.
Proof.
  induction m as [|[k0 v0] r IH]; simpl.
  - repeat case_decide; congruence.
  - repeat (case_decide; simpl; subst); try congruence.
Qed.

Lemma Map_set_keys k v m :
  (Map_set k v m).*1 = if decide (k ∈ m.*1) then m.*1 else m.*1 ++ [k].
Proof.
  induction m as [|[k0 v0] r IH].
  - destruct (decide (k ∈ ([] : list (K * V)).*1)) as [Hin|_]; [|done].
    by apply elem_of_nil in Hin.
  - cbn [Map_set]. destruct (decide (k = k0)) as [->|Hk].
    + destruct (decide (k0 ∈ ((k0, v0) :: r).*1)) as [_|Hnotin]; [done|].
      exfalso. apply Hnotin. cbn. apply elem_of_cons. by left.
    + rewrite !fmap_cons, IH. cbn [fst].
      destruct (decide (k ∈ r.*1)) as [Hin|Hnotin];
        destruct (decide (k ∈ k0 :: r.*1)) as [Hin'|Hnotin']; try done.
      * exfalso. apply Hnotin'. apply elem_of_cons. by right.
      * apply elem_of_cons in Hin' as [?|?]; done.
Qed.

Lemma Map_set_keys_NoDup k v m : NoDup m.*1 → NoDup (Map_set k v m).*1.
Proof.
  intros Hnd. rewrite Map_set_keys. case_decide as Hk; [done|].
  apply NoDup_app. split; [done|]. split; [|apply NoDup_singleton].
  intros x Hx ->%list_elem_of_singleton. done.
Qed.

Lemma elem_of_Map_set k v m x :
  x ∈ Map_set k v m → x = (k, v) ∨ x ∈ m.
Proof.
  induction m as [|[k0 v0] r IH]; simpl.
  - intros ?%list_elem_of_singleton. by left.
  - case_decide; subst.
    + intros [->|?]%elem_of_cons; [by left|]. right. apply elem_of_cons. by right.
    + intros [->|Hx]%elem_of_cons.
      * right. apply elem_of_cons. by left.
      * destruct (IH Hx) as [->|?]; [by left|]. right. apply elem_of_cons. by right.
Qed.

Lemma NoDup_keys_Map_get k v m : NoDup m.*1 → (k, v) ∈ m → Map_get k m = Some v.
Proof.
  induction m as [|[k0 v0] r IH]; simpl; intros Hnd Hin.
  - by apply elem_of_nil in Hin.
  - apply NoDup_cons in Hnd as [Hnotin Hnd].
    apply elem_of_cons in Hin as [[= -> ->]|Hin].
    + by rewrite decide_True.
    + case_decide; subst.
      * exfalso. apply Hnotin. apply list_elem_of_fmap. by exists (k0, v).
      * by apply IH.
Qed.
End JsMapFacts.

Lemma Engine_eta s :
  {| doctors := doctors s; tokens := tokens s; waitingQueue := waitingQueue s;
     fields := fields s; nextId := nextId s |} = s.
Proof. by destruct s. Qed.

Lemma Doctor_eta d :
  {| doctorKey := doctorKey d; name := name d; specialization := specialization d;
     workingHoursStart := workingHoursStart d; workingHoursEnd := workingHoursEnd d;
     slots := slots d |} = d.
Proof. by destruct d. Qed.

Lemma putSlot_same k d key slot s :
  Map_get k (doctors s) = Some d → Map_get key (slots d) = Some slot →
  putSlot k d key slot s = s.
Proof.
  intros Hd Hs. unfold putSlot, setDoctors.
  rewrite (Map_set_same _ _ _ Hs), Doctor_eta, (Map_set_same _ _ _ Hd).
  apply Engine_eta.
Qed.

(** A placement that reports failure has changed nothing. *)
Lemma tryAllocateToSlot_false t time s s' :
  tryAllocateToSlot t time s = (Normal false, s') → s' = s.
Proof.
  unfold tryAllocateToSlot. unfoldM.
  destruct (Map_get (doctorId t) (doctors s)) as [d|] eqn:Hd; [|done].
  destruct (Map_get _ (slots d)) as [slot|] eqn:Hs; [|by intros [= <-]].
  unfold addToken.
  destruct (0 <? availableCapacity slot)%Z eqn:Hc; simpl; [done|].
  unfold tryBumpLowerPriorityToken.
  destruct (scanLowest _ _ _); simpl; [done|].
  intros [= <-]. rewrite (putSlot_same _ _ _ _ _ Hd Hs).
  unfold setWaitingQueue. apply Engine_eta.
Qed.

Lemma tryAllocateToSlot_throw t time s e s' :
  tryAllocateToSlot t time s = (Throw e, s') →
  s' = s ∧ Map_get (doctorId t) (doctors s) = None.
Proof.
  unfold tryAllocateToSlot. unfoldM.
  destruct (Map_get (doctorId t) (doctors s)) as [d|] eqn:Hd; [|by intros [= _ <-]].
  destruct (Map_get _ (slots d)) as [slot|] eqn:Hs; [|done].
  destruct (0 <? availableCapacity slot)%Z; simpl.
  - by destruct (addToken t slot).
  - by destruct (tryBumpLowerPriorityToken slot t (waitingQueue s)) as [[? ?] ?].
Qed.

(** C8. A call reported as a failure leaves the provider table with every
    slot, the token registry and the waiting queue as they were:
    [allocateToken] for an unregistered doctor and [cancelToken] for an
    unregistered token return the failure in the unchanged state, and an
    [insertEmergencyToken] that returns a failure has only created the token
    object it then drops (no existing token's fields are touched). *)
Theorem C8_failed_calls_change_nothing (s : Engine) :
  (∀ patientId doctorId preferredTime source,
      Map_get doctorId (doctors s) = None →
      allocateToken patientId doctorId preferredTime source s
      = (Normal {| success := false; token := None; message := None;
                   error := Some "Doctor not found" |}, s))
  ∧ (∀ tokenId,
      tokens s !! tokenId = None →
      cancelToken tokenId s
      = (Normal {| success := false; token := None;
                   message := Some "Token not found"; error := None |}, s))
  ∧ (∀ patientId doctorId urgentTime o s',
      insertEmergencyToken patientId doctorId urgentTime s = (Normal o, s') →
      success o = false →
      doctors s' = doctors s ∧ tokens s' = tokens s ∧ waitingQueue s' = waitingQueue s
      ∧ ∀ k, k ≠ nextId s → fields s' !! k = fields s !! k).
Proof.
  split; [|split].
  - intros p d t src Hd. unfold allocateToken. unfoldM. by rewrite Hd.
  - intros k Hk. unfold cancelToken. unfoldM. by rewrite Hk.
  - intros p d t o s'. unfold insertEmergencyToken, newToken.
    unfold bind at 1. simpl. unfold bind at 1.
    match goal with |- context [tryAllocateToSlot ?tok ?time ?st] =>
      destruct (tryAllocateToSlot tok time st) as [[[|]| |] s1] eqn:Htry end; try done.
    + unfoldM. destruct (processWaitingQueue _) as [[?| |] ?]; try done.
      by intros [= <- <-].
    + apply tryAllocateToSlot_false in Htry as ->. unfoldM.
      intros [= <- <-] _. simpl. repeat split; try done.
      intros k Hk. by rewrite lookup_insert_ne.
Qed.

Lemma C8_witness :
  allocateToken "P1" "DOC999" "09:00" "online" newEngine
  = (Normal {| success := false; token := None; message := None;
               error := Some "Doctor not found" |}, newEngine)
  ∧ cancelToken 7 newEngine
    = (Normal {| success := false; token := None;
                 message := Some "Token not found"; error := None |}, newEngine)
  ∧ doctors (exec (CallInsertEmergencyToken "P1" "D1" "23:00")
                  (exec (CallAddDoctor "D1" "Dr" "Gen" "09:00" "11:00") newEngine))
    = doctors (exec (CallAddDoctor "D1" "Dr" "Gen" "09:00" "11:00") newEngine).
Proof.
  set (s := exec (CallAddDoctor "D1" "Dr" "Gen" "09:00" "11:00") newEngine).
  split; [|split].
  - by apply (proj1 (C8_failed_calls_change_nothing newEngine)).
  - by apply (proj1 (proj2 (C8_failed_calls_change_nothing newEngine))).
  - destruct (insertEmergencyToken "P1" "D1" "23:00" s) as [c s'] eqn:Hrun.
    assert (c = Normal {| success := false; token := None;
               message := Some "Failed to allocate emergency token"; error := None |}) as ->.
    { by injection Hrun as <- _. }
    change (exec (CallInsertEmergencyToken "P1" "D1" "23:00") s) with
      (insertEmergencyToken "P1" "D1" "23:00" s).2.
    rewrite Hrun.
    by apply (proj2 (proj2 (C8_failed_calls_change_nothing s)) _ _ _ _ _ Hrun).
Defined.

(** ** Alternative-slot search *)

Lemma eligible_spec slot p :
  eligible slot p = true ↔
  (0 < availableCapacity slot)%Z ∨ ∃ t, t ∈ slotTokens slot ∧ priority t < p.
Proof.
  unfold eligible, canBumpTokenInSlot. rewrite orb_true_iff, Z.ltb_lt, existsb_exists.
  split; (intros [?|(t & Ht & Hp)]; [by left|right]; exists t).
  - apply list_elem_of_In in Ht. apply Nat.ltb_lt in Hp. done.
  - split; [by apply list_elem_of_In|by apply Nat.ltb_lt].
Qed.

Lemma probeOffsets_spec d table h p range :
  match probeOffsets d table h p range with
  | Some time =>
      ∃ before offset after, range = before ++ offset :: after
        ∧ time = Js.hourString (Js.plus h offset)
        ∧ qualifies d table p time
        ∧ ∀ k, k ∈ before → ¬ qualifies d table p (Js.hourString (Js.plus h k))
  | None => ∀ k, k ∈ range → ¬ qualifies d table p (Js.hourString (Js.plus h k))
  end.
Proof.
  induction range as [|offset rest IH]; simpl.
  - intros k Hk. by apply elem_of_nil in Hk.
  - assert (Hskip : ¬ qualifies d table p (Js.hourString (Js.plus h offset)) →
      match probeOffsets d table h p rest with
      | Some time =>
          ∃ before offset' after, offset :: rest = before ++ offset' :: after
            ∧ time = Js.hourString (Js.plus h offset')
            ∧ qualifies d table p time
            ∧ ∀ k, k ∈ before → ¬ qualifies d table p (Js.hourString (Js.plus h k))
      | None => ∀ k, k ∈ offset :: rest → ¬ qualifies d table p (Js.hourString (Js.plus h k))
      end).
    { intros Hno. destruct (probeOffsets d table h p rest) as [time|].
      - destruct IH as (before & offset' & after & -> & -> & Hq & Hb).
        exists (offset :: before), offset', after. repeat split; try done.
        intros k [->|Hk]%elem_of_cons; [done|by apply Hb].
      - intros k [->|Hk]%elem_of_cons; [done|by apply IH]. }
    destruct (Map_get _ table) as [slot|] eqn:Hget.
    + destruct (eligible slot p) eqn:He.
      * exists [], offset, rest. repeat split; try done.
        -- exists slot. split; [done|]. by apply eligible_spec.
        -- intros k Hk. by apply elem_of_nil in Hk.
      * apply Hskip. intros (slot' & Hget' & Hel). rewrite Hget in Hget'.
        injection Hget' as <-. apply eligible_spec in Hel. congruence.
    + apply Hskip. intros (slot' & Hget' & _). congruence.
Qed.

(** C7. [findAlternativeSlot] probes the hours at the offsets -2, -1, +1, +2
    from the preferred hour, in that order, and returns the first candidate
    whose slot exists and has spare capacity or an occupant of strictly
    lower priority: every candidate before the returned one fails the test,
    whatever comes after it; it returns none exactly when all four fail.
    The preferred time is a plain one, so that the candidate hours are
    computed here as JavaScript computes them. *)
Theorem C7_findAlternativeSlot_first_match
    (s : Engine) (doctorId preferredTime : string) (p : nat) (doctor : Doctor) :
  Map_get doctorId (doctors s) = Some doctor →
  plainTime preferredTime = true →
  let candidate offset :=
    Js.hourString (Js.plus (Js.parseInt (Js.beforeColon preferredTime)) offset) in
  ∃ result,
    findAlternativeSlot doctorId preferredTime p s = (Normal result, s)
    ∧ match result with
      | Some time =>
          ∃ before offset after, [-2; -1; 1; 2]%Z = before ++ offset :: after
            ∧ time = candidate offset
            ∧ qualifies doctorId (slots doctor) p time
            ∧ ∀ k, k ∈ before → ¬ qualifies doctorId (slots doctor) p (candidate k)
      | None =>
          ∀ k, k ∈ [-2; -1; 1; 2]%Z → ¬ qualifies doctorId (slots doctor) p (candidate k)
      end.
Proof.
  intros Hd _ candidate. unfold findAlternativeSlot. unfoldM. rewrite Hd.
  eexists. split; [done|].
  apply (probeOffsets_spec doctorId (slots doctor)
           (Js.parseInt (Js.beforeColon preferredTime)) p timeRange).
Qed.

(** With free slots both two hours and one hour before the preferred hour,
    the search returns the one two hours before. *)
Lemma C7_witness :
  let s := execAll (CallAddDoctor "D1" "Dr" "Gen" "09:00" "13:00"
                    :: replicate 10 (CallAllocateToken "P" "D1" "11:00" "walkin"))
                   newEngine in
  ∃ result, findAlternativeSlot "D1" "11:00" 2 s = (Normal result, s)
            ∧ result = Some "09:00".
Proof.
  intros s.
  destruct (Map_get "D1" (doctors s)) as [doctor|] eqn:Hd; [|by vm_compute in Hd].
  destruct (C7_findAlternativeSlot_first_match s "D1" "11:00" 2 doctor Hd)
    as (result & Hrun & _); [vm_compute; reflexivity|].
  exists result. split; [done|].
  assert (Hval : (findAlternativeSlot "D1" "11:00" 2 s).1 = Normal (Some "09:00"))
    by (by vm_compute).
  rewrite Hrun in Hval. by injection Hval.
Defined.

(** ** Defects *)

(** C3. With no doctor registered [getSystemStats] reports total capacity 0
    and divides by it: the utilisation it returns is the text "NaN%". *)
Theorem C3_stats_without_slots_is_NaN :
  getSystemStats newEngine
  = {| totalDoctors := 0; totalSlots := 0; occupiedSlots := 0; totalCapacity := 0;
       allocatedTokens := 0; waitingQueueLength := 0; utilizationRate := "NaN%" |}.
Proof. vm_compute. reflexivity. Qed.

(** C4. [insertEmergencyToken] for a doctor that is not registered does not
    return an outcome: [tryAllocateToSlot] reads [doctor.slots] of an
    undefined doctor and the TypeError propagates to the caller. *)
Theorem C4_emergency_unknown_doctor_throws :
  (insertEmergencyToken "P1" "DOC999" "09:00" newEngine).1 = Throw TypeError_slots
  ∧ (allocateToken "P1" "DOC999" "09:00" "emergency" newEngine).1
    = Normal {| success := false; token := None; message := None;
                error := Some "Doctor not found" |}.
Proof. split; vm_compute; reflexivity. Qed.

(** C2. Cancelling a token that sits in the waiting queue succeeds but leaves
    it there, with status cancelled; when a unit of capacity is freed later
    (here by cancelling token 1), the replay places the cancelled token into
    the slot. *)
Theorem C2_cancelled_token_stays_queued_and_is_placed :
  let s := execAll cancelScenario newEngine in
  let s1 := (cancelToken 0 s).2 in
  let s2 := (cancelToken 1 s1).2 in
  waitingQueue s = [evictedToken]
  ∧ success <$> (match (cancelToken 0 s).1 with Normal o => Some o | _ => None end) = Some true
  ∧ waitingQueue s1 = [evictedToken]
  ∧ getStatus evictedToken s1 = Some CANCELLED
  ∧ evictedToken ∈ occupants s2
  ∧ getStatus evictedToken s2 = Some CANCELLED.
Proof.
  intros s s1 s2.
  split; [vm_compute; reflexivity|].
  split; [vm_compute; reflexivity|].
  split; [vm_compute; reflexivity|].
  split; [vm_compute; reflexivity|].
  split; [|vm_compute; reflexivity].
  apply (bool_decide_unpack _). vm_compute. exact I.
Qed.

(** ** Invariants *)

Lemma eligible_false slot p :
  eligible slot p = false ↔
  (availableCapacity slot ≤ 0)%Z ∧ Forall (λ t, p ≤ priority t) (slotTokens slot).
Proof.
  destruct (eligible slot p) eqn:He.
  - apply eligible_spec in He. split; [done|]. intros [Hc Hall]. exfalso.
    destruct He as [?|(t & Ht & Hp)]; [lia|].
    rewrite Forall_forall in Hall. specialize (Hall t Ht). simpl in Hall. lia.
  - split; [intros _|done].
    assert (Hn : ¬ ((0 < availableCapacity slot)%Z
                    ∨ ∃ t, t ∈ slotTokens slot ∧ priority t < p)).
    { rewrite <- eligible_spec. congruence. }
    split; [lia|]. apply Forall_forall. intros t Ht.
    destruct (Nat.le_gt_cases p (priority t)); [done|].
    exfalso. apply Hn. right. by exists t.
Qed.

Lemma placed_facts t slot slot' ev :
  slotOK slot → NoDup (id <$> slotTokens slot) → placed t slot slot' ev →
  slotOK slot'
  ∧ startTime slot' = startTime slot
  ∧ slotTokens slot' ++ ev ≡ₚ t :: slotTokens slot
  ∧ Forall (λ v, priority v < priority t) ev
  ∧ (∀ p, eligible slot p = false → eligible slot' p = false).
Proof.
  intros (Hmax & Havail & Hpos) Hnd [(Hc & -> & ->)|(Hc & v & Hscan & -> & ->)].
  - unfold addToken. rewrite (proj2 (Z.ltb_lt _ _) Hc). simpl.
    repeat split; simpl; try done.
    + rewrite length_app. simpl. lia.
    + lia.
    + rewrite app_nil_r. symmetry. apply Permutation_cons_append.
    + intros p [Hle _]%eligible_false. lia.
  - destruct (scanLowest_spec (slotTokens slot) None (priority t))
      as [[Heq _]|(i & v' & Heq & Hi & Hv & Hmin & _)]; [congruence|].
    assert (v' = v) as -> by congruence.
    unfold removeToken. rewrite (findIndex_NoDup _ _ _ Hnd Hi). simpl.
    unfold addToken. simpl.
    assert (Hlen : length (delete i (slotTokens slot)) = length (slotTokens slot) - 1).
    { apply length_delete. by exists v. }
    assert (Hlen' : 0 < length (slotTokens slot)).
    { apply lookup_lt_Some in Hi. lia. }
    assert (availableCapacity slot = 0%Z) as Hzero by lia.
    rewrite Hzero. simpl.
    repeat split; simpl; try done.
    + rewrite length_app, Hlen. simpl. lia.
    + rewrite (delete_Permutation _ _ _ Hi) at 2.
      rewrite <- !app_assoc. simpl.
      by rewrite (Permutation_app_comm _ [t; v]).
    + by apply Forall_singleton.
    + intros p [_ Hall]%eligible_false. apply eligible_false. simpl. split; [done|].
      rewrite Forall_forall in Hall.
      apply Forall_app. split.
      * apply Forall_forall. intros u Hu%list_elem_of_delete_inv. by apply Hall.
      * apply Forall_singleton.
        assert (Hv' : p ≤ priority v) by (apply Hall; by eapply list_elem_of_lookup_2).
        lia.
Qed.

Lemma placed_lower t slot slot' ev :
  placed t slot slot' ev → Forall (λ v, priority v < priority t) ev ∧ length ev ≤ 1.
Proof.
  intros [(_ & -> & _)|(_ & v & Hscan & -> & _)]; [split; [done|simpl; lia]|].
  split; [|done]. apply Forall_singleton.
  destruct (scanLowest_spec (slotTokens slot) None (priority t))
    as [[Heq _]|(i & v' & Heq & _ & Hv & _)]; congruence.
Qed.

(** A successful placement, as a change of one slot and of the queue. *)
Lemma tryAllocateToSlot_true t time s s' :
  tryAllocateToSlot t time s = (Normal true, s') →
  ∃ d slot slot' ev,
    Map_get (doctorId t) (doctors s) = Some d
    ∧ Map_get (slotKeyOf (doctorId t) time) (slots d) = Some slot
    ∧ placed t slot slot' ev
    ∧ s' = setWaitingQueue (waitingQueue s ++ ev)
             (putSlot (doctorId t) d (slotKeyOf (doctorId t) time) slot' s).
Proof.
  unfold tryAllocateToSlot. unfoldM.
  destruct (Map_get (doctorId t) (doctors s)) as [d|] eqn:Hd; [|done].
  destruct (Map_get _ (slots d)) as [slot|] eqn:Hs; [|done].
  destruct (0 <? availableCapacity slot)%Z eqn:Hc.
  - apply Z.ltb_lt in Hc.
    destruct (addToken t slot) as [r slot'] eqn:Hadd. simpl. intros [= -> <-].
    exists d, slot, slot', []. repeat split; try done.
    + left. by rewrite Hadd.
    + by rewrite app_nil_r.
  - apply Z.ltb_ge in Hc. unfold tryBumpLowerPriorityToken.
    destruct (scanLowest _ _ _) as [v|] eqn:Hscan; simpl; [|done].
    intros [= <-]. eexists d, slot, _, [v]. repeat split; try done.
    right. split; [done|]. by exists v.
Qed.

Lemma tryAllocateToSlot_completes t time s :
  (∃ b s', tryAllocateToSlot t time s = (Normal b, s'))
  ∨ (∃ e, tryAllocateToSlot t time s = (Throw e, s)
          ∧ Map_get (doctorId t) (doctors s) = None).
Proof.
  destruct (tryAllocateToSlot t time s) as [[b|e|] s'] eqn:Hrun.
  - left. by exists b, s'.
  - right. destruct (tryAllocateToSlot_throw _ _ _ _ _ Hrun) as [-> ?]. by exists e.
  - exfalso. revert Hrun. unfold tryAllocateToSlot. unfoldM.
    destruct (Map_get (doctorId t) (doctors s)) as [d|]; [|done].
    destruct (Map_get _ (slots d)) as [slot|]; [|done].
    destruct (0 <? availableCapacity slot)%Z; simpl.
    + by destruct (addToken t slot).
    + by destruct (tryBumpLowerPriorityToken slot t (waitingQueue s)) as [[? ?] ?].
Qed.

(** Whatever a placement attempt does, it only appends to the waiting queue,
    and what it appends has lower priority than the token it places. *)
Lemma tryAllocateToSlot_queue t time s :
  ∃ ev, waitingQueue (tryAllocateToSlot t time s).2 = waitingQueue s ++ ev
        ∧ Forall (λ v, priority v < priority t) ev ∧ length ev ≤ 1.
Proof.
  destruct (tryAllocateToSlot_completes t time s) as [([|] & s' & Hrun)|(e & Hrun & _)];
    rewrite Hrun; simpl.
  - destruct (tryAllocateToSlot_true _ _ _ _ Hrun) as (d & slot & slot' & ev & _ & _ & Hp & ->).
    exists ev. split; [done|]. by apply placed_lower in Hp.
  - apply tryAllocateToSlot_false in Hrun as ->. exists []. rewrite app_nil_r.
    repeat split; [done|simpl; lia].
  - exists []. rewrite app_nil_r. repeat split; [done|simpl; lia].
Qed.

(** A placement into a slot that passes the eligibility test succeeds. *)
Lemma tryAllocateToSlot_eligible t time s d slot :
  Map_get (doctorId t) (doctors s) = Some d →
  Map_get (slotKeyOf (doctorId t) time) (slots d) = Some slot →
  eligible slot (priority t) = true →
  ∃ s', tryAllocateToSlot t time s = (Normal true, s').
Proof.
  intros Hd Hs He. unfold tryAllocateToSlot. unfoldM. rewrite Hd, Hs.
  destruct (0 <? availableCapacity slot)%Z eqn:Hc.
  - unfold addToken. rewrite Hc. simpl. by eexists.
  - unfold tryBumpLowerPriorityToken.
    destruct (scanLowest_spec (slotTokens slot) None (priority t))
      as [[_ Hall]|(i & v & -> & _)]; [|simpl; by eexists].
    exfalso. apply eligible_spec in He as [?|(u & Hu & Hp)].
    + apply Z.ltb_ge in Hc. lia.
    + specialize (Hall u Hu). lia.
Qed.

(** *** The slot table under [putSlot] *)

Lemma allSlots_putSlot k d key slot s :
  Map_get k (doctors s) = Some d → Map_get key (slots d) = Some slot →
  ∃ A B, allSlots s = A ++ slot :: B
         ∧ ∀ slot', allSlots (putSlot k d key slot' s) = A ++ slot' :: B.
Proof.
  intros (m1 & m2 & Hm & Hmset)%Map_get_split (n1 & n2 & Hn & Hnset)%Map_get_split.
  exists ((m1.*2 ≫= λ doctor, Map_values (slots doctor)) ++ n1.*2),
         (n2.*2 ++ (m2.*2 ≫= λ doctor, Map_values (slots doctor))).
  unfold allSlots, Map_values, putSlot. simpl. split.
  - rewrite Hm, fmap_app, fmap_cons, bind_app, bind_cons. simpl.
    rewrite Hn, fmap_app, fmap_cons. simpl. by rewrite <- !app_assoc.
  - intros slot'. rewrite Hmset, fmap_app, fmap_cons, bind_app, bind_cons. simpl.
    rewrite Hnset, fmap_app, fmap_cons. simpl. by rewrite <- !app_assoc.
Qed.

Lemma occupants_putSlot k d key slot s :
  Map_get k (doctors s) = Some d → Map_get key (slots d) = Some slot →
  ∃ A B, occupants s = A ++ slotTokens slot ++ B
         ∧ ∀ slot', occupants (putSlot k d key slot' s) = A ++ slotTokens slot' ++ B.
Proof.
  intros Hd Hs. destruct (allSlots_putSlot _ _ _ _ _ Hd Hs) as (A & B & HA & HB).
  exists (A ≫= slotTokens), (B ≫= slotTokens). unfold occupants. split.
  - by rewrite HA, bind_app, bind_cons.
  - intros slot'. by rewrite HB, bind_app, bind_cons.
Qed.

Lemma doctorsOK_lookup s k d key slot :
  doctorsOK s → Map_get k (doctors s) = Some d → Map_get key (slots d) = Some slot →
  entryOK k (key, slot) ∧ NoDup (slots d).*1.
Proof.
  intros Hok Hd%Map_get_elem_of Hs%Map_get_elem_of.
  unfold doctorsOK in Hok. rewrite Forall_forall in Hok.
  destruct (Hok _ Hd) as [Hnd Hall]. simpl in *.
  rewrite Forall_forall in Hall. split; [by apply Hall|done].
Qed.

Lemma doctorsOK_slot s slot : doctorsOK s → slot ∈ allSlots s → slotOK slot.
Proof.
  intros Hok. unfold allSlots, Map_values.
  intros (d & Hslot & Hd)%list_elem_of_bind.
  apply list_elem_of_fmap in Hd as ([k d'] & -> & Hd).
  apply list_elem_of_fmap in Hslot as ([key slot'] & -> & Hslot). simpl in *.
  unfold doctorsOK in Hok. rewrite Forall_forall in Hok.
  destruct (Hok _ Hd) as [_ Hall]. rewrite Forall_forall in Hall.
  by destruct (Hall _ Hslot) as (_ & _ & ?).
Qed.

Lemma doctorsOK_putSlot s k d key slot slot' :
  doctorsOK s → Map_get k (doctors s) = Some d → Map_get key (slots d) = Some slot →
  startTime slot' = startTime slot → slotOK slot' →
  doctorsOK (putSlot k d key slot' s).
Proof.
  intros Hok Hd Hs Htime Hslot.
  destruct (doctorsOK_lookup _ _ _ _ _ Hok Hd Hs) as [(Hkey & Htruthy & _) Hnd].
  destruct (Map_get_split _ _ _ Hd) as (m1 & m2 & Hm & Hmset).
  destruct (Map_get_split _ _ _ Hs) as (n1 & n2 & Hn & Hnset).
  unfold doctorsOK, putSlot in *. simpl. rewrite Hmset. rewrite Hm in Hok.
  apply Forall_app in Hok as [Hok1 Hok2]. apply Forall_cons in Hok2 as [[_ Hall] Hok2].
  apply Forall_app. split; [done|]. apply Forall_cons. split; [|done].
  unfold tableOK. simpl in *. rewrite Hnset. split.
  - rewrite Hn in Hnd. by rewrite fmap_app, fmap_cons in *.
  - rewrite Hn in Hall. apply Forall_app in Hall as [Hall1 Hall2].
    apply Forall_cons in Hall2 as [_ Hall2].
    apply Forall_app. split; [done|]. apply Forall_cons. split; [|done].
    unfold entryOK. simpl in *. by rewrite Htime.
Qed.

Lemma Map_get_putSlot s k d key slot' k' :
  is_Some (Map_get k' (doctors s)) → is_Some (Map_get k' (doctors (putSlot k d key slot' s))).
Proof.
  unfold putSlot. simpl. rewrite Map_get_set. by case_decide.
Qed.

(** ** The replay loop *)

Lemma replayLoop_S fuel i r w s :
  replayLoop (S fuel) i r w s
  = match waitingQueue s !! i with
    | None => (Normal (r, w), s)
    | Some token =>
        bind (replayBody token r w) (λ '(r', w'), replayLoop fuel (S i) r' w') s
    end.
Proof. done. Qed.

Lemma replayLoop_0 i r w s : replayLoop 0 i r w s = (OutOfFuel, s).
Proof. done. Qed.

#[global] Arguments replayLoop : simpl never.

(** One step of the loop, for any state: it only appends to the array it
    iterates, what it appends weighs less than the element it consumed, and
    the element goes to exactly one of the two result lists. *)
Lemma replayBody_queue token r w s :
  ∃ ev, waitingQueue (replayBody token r w s).2 = waitingQueue s ++ ev
        ∧ Forall (λ v, priority v < priority token) ev ∧ length ev ≤ 1
        ∧ match (replayBody token r w s).1 with
          | Normal (r', w') =>
              (r' = r ++ [token] ∧ w' = w) ∨ (r' = r ∧ w' = w ++ [token] ∧ ev = [])
          | Throw _ => ev = []
          | OutOfFuel => False
          end.
Proof.
  assert (Hnil : ∀ s0 : Engine, waitingQueue s0 = waitingQueue s0 ++ []
                   ∧ Forall (λ v, priority v < priority token) [] ∧ length ([] : list Token) ≤ 1).
  { intros s0. rewrite app_nil_r. repeat split; [done|simpl; lia]. }
  unfold replayBody, findAnyAvailableSlot. unfoldM.
  destruct (Map_get (doctorId token) (doctors s)) as [d|]; simpl;
    [|exists []; by destruct (Hnil s) as (? & ? & ?)].
  destruct (firstEligible (slots d) (priority token)) as [time|]; simpl;
    [|exists []; destruct (Hnil s) as (? & ? & ?); repeat split; try done; by right].
  destruct (Js.truthy time); simpl;
    [|exists []; destruct (Hnil s) as (? & ? & ?); repeat split; try done; by right].
  destruct (tryAllocateToSlot_queue token time (setSlotTime token time s))
    as (ev & Hq & Hlow & Hlen).
  destruct (tryAllocateToSlot_completes token time (setSlotTime token time s))
    as [([|] & s' & Hrun)|(e & Hrun & _)]; rewrite Hrun in *; simpl in *.
  - exists ev. repeat split; try done. by left.
  - apply tryAllocateToSlot_false in Hrun as ->. exists []. rewrite app_nil_r.
    repeat split; try done; [simpl; lia|by right].
  - exists []. rewrite app_nil_r. repeat split; try done. simpl; lia.
Qed.

Lemma replayWeight_app l k : replayWeight (l ++ k) = replayWeight l + replayWeight k.
Proof.
  unfold replayWeight. induction l as [|t l IH]; [done|].
  rewrite <- app_comm_cons, !fmap_cons. simpl. rewrite IH. lia.
Qed.

Lemma replayWeight_lower ev (token : Token) :
  Forall (λ v, priority v < priority token) ev → length ev ≤ 1 →
  replayWeight ev ≤ priority token.
Proof.
  destruct ev as [|v [|? ?]]; simpl; intros Hall Hlen.
  - unfold replayWeight. simpl. lia.
  - apply Forall_cons in Hall as [Hall _]. unfold replayWeight. simpl. lia.
  - lia.
Qed.

(** The budget suffices: the weight of the part of the array not yet visited
    decreases at every step. *)
Lemma replayLoop_fuel fuel i r w s :
  replayWeight (drop i (waitingQueue s)) < fuel →
  (replayLoop fuel i r w s).1 ≠ OutOfFuel.
Proof.
  revert i r w s. induction fuel as [|fuel IH]; intros i r w s Hlt; [lia|].
  rewrite replayLoop_S.
  destruct (waitingQueue s !! i) as [token|] eqn:Hi; [|done].
  destruct (replayBody_queue token r w s) as (ev & Hq & Hlow & Hlen & Hres).
  unfold bind. destruct (replayBody token r w s) as [[[r' w']|e|] s'] eqn:Hbody;
    simpl in *; [|done..].
  apply IH. rewrite Hq.
  rewrite (drop_S _ _ _ Hi) in Hlt.
  rewrite drop_app_le by (apply lookup_lt_Some in Hi; lia).
  rewrite replayWeight_app.
  pose proof (replayWeight_lower _ _ Hlow Hlen) as Hev.
  change (token :: drop (S i) (waitingQueue s))
    with ([token] ++ drop (S i) (waitingQueue s)) in Hlt.
  rewrite replayWeight_app in Hlt. unfold replayWeight at 1 in Hlt. simpl in Hlt. lia.
Qed.

(** [processWaitingQueue] terminates in every state: the budget it gives the
    loop is never exhausted. *)
Lemma processWaitingQueue_terminates s : (processWaitingQueue s).1 ≠ OutOfFuel.
Proof.
  pose proof (replayLoop_fuel (S (replayWeight (waitingQueue s))) 0 [] [] s) as Hfuel.
  unfold processWaitingQueue. unfoldM.
  destruct (replayLoop _ 0 [] [] s) as [[[r w]|e|] s1]; simpl in *; [done..|].
  intros _. apply Hfuel; [|done]. rewrite drop_0. lia.
Qed.

(** Invariant rule for the loop: [I] relates the iterator position, the two
    result lists and the state before each step, [Q] is what is concluded
    of the completion. *)
Lemma replayLoop_rule
    (I : nat → list Token → list Token → Engine → Prop)
    (Q : completion (list Token * list Token) → Engine → Prop) :
  (∀ i r w s, I i r w s → waitingQueue s !! i = None → Q (Normal (r, w)) s) →
  (∀ i r w s token, I i r w s → waitingQueue s !! i = Some token →
     match replayBody token r w s with
     | (Normal (r', w'), s') => I (S i) r' w' s'
     | (Throw e, s') => Q (Throw e) s'
     | (OutOfFuel, s') => Q OutOfFuel s'
     end) →
  (∀ i r w s, I i r w s → Q OutOfFuel s) →
  ∀ fuel i r w s, I i r w s →
    Q (replayLoop fuel i r w s).1 (replayLoop fuel i r w s).2.
Proof.
  intros Hdone Hstep Hout fuel. induction fuel as [|fuel IH]; intros i r w s HI.
  - rewrite replayLoop_0. simpl. by eapply Hout.
  - rewrite replayLoop_S. destruct (waitingQueue s !! i) as [token|] eqn:Hi.
    + specialize (Hstep _ _ _ _ _ HI Hi). unfold bind.
      destruct (replayBody token r w s) as [[[r' w']|e|] s']; simpl; [by apply IH|done..].
    + simpl. by eapply Hdone.
Qed.

Lemma replayLoop_order s0 fuel :
  match replayLoop fuel 0 [] [] s0 with
  | (Normal (r, w), s') =>
      ∃ appended, waitingQueue s' = waitingQueue s0 ++ appended
                  ∧ w `sublist_of` waitingQueue s'
                  ∧ r ++ w ≡ₚ waitingQueue s'
  | (_, s') => ∃ appended, waitingQueue s' = waitingQueue s0 ++ appended
  end.
Proof.
  pose (I := λ (i : nat) (r w : list Token) (s : Engine),
          (∃ appended, waitingQueue s = waitingQueue s0 ++ appended)
          ∧ w `sublist_of` take i (waitingQueue s)
          ∧ r ++ w ≡ₚ take i (waitingQueue s)).
  pose (Q := λ (c : completion (list Token * list Token)) (s' : Engine),
          match c with
          | Normal (r, w) =>
              ∃ appended, waitingQueue s' = waitingQueue s0 ++ appended
                          ∧ w `sublist_of` waitingQueue s'
                          ∧ r ++ w ≡ₚ waitingQueue s'
          | _ => ∃ appended, waitingQueue s' = waitingQueue s0 ++ appended
          end).
  assert (HQ : Q (replayLoop fuel 0 [] [] s0).1 (replayLoop fuel 0 [] [] s0).2).
  { apply (replayLoop_rule I Q).
    - intros i r w s ([app Happ] & Hsub & Hperm) Hi. exists app. split; [done|].
      apply lookup_ge_None in Hi. by rewrite take_ge in Hsub, Hperm.
    - intros i r w s token ([app Happ] & Hsub & Hperm) Hi.
      destruct (replayBody_queue token r w s) as (ev & Hq & _ & _ & Hres).
      destruct (replayBody token r w s) as [[[r' w']|e|] s'] eqn:Hbody; simpl in *;
        [|exists (app ++ ev); by rewrite Hq, Happ, app_assoc..].
      split; [exists (app ++ ev); by rewrite Hq, Happ, app_assoc|].
      rewrite Hq, take_app_le by (apply lookup_lt_Some in Hi; lia).
      rewrite (take_S_r _ _ _ Hi).
      destruct Hres as [[-> ->]|(-> & -> & _)].
      + split; [by apply sublist_inserts_r|].
        by rewrite <- Hperm, <- !app_assoc, (Permutation_app_comm [token] w).
      + split; [by apply sublist_app|]. by rewrite <- Hperm, app_assoc.
    - by intros i r w s [? _].
    - split; [exists []; by rewrite app_nil_r|]. rewrite take_0. done. }
  unfold Q in HQ. destruct (replayLoop fuel 0 [] [] s0) as [[[r w]|e|] s']; done.
Qed.

(** ** Preservation of the invariants *)

Lemma doctorsOK_ext s s' : doctors s' = doctors s → doctorsOK s → doctorsOK s'.
Proof. unfold doctorsOK. by intros ->. Qed.

Lemma occupants_ext s s' : doctors s' = doctors s → occupants s' = occupants s.
Proof. unfold occupants, allSlots. by intros ->. Qed.

Lemma poolOK_ext pool s s' :
  doctors s' = doctors s → nextId s ≤ nextId s' → poolOK pool s → poolOK pool s'.
Proof.
  intros Hd Hn [Hnd Hall]. unfold poolOK. rewrite (occupants_ext _ _ Hd), Hd.
  split; [done|]. eapply Forall_impl; [done|]. intros t [? ?]. split; [lia|done].
Qed.

Lemma poolOK_perm pool pool' s : pool ≡ₚ pool' → poolOK pool s → poolOK pool' s.
Proof. intros Hp [Hnd Hall]. unfold poolOK. by rewrite <- Hp. Qed.

Lemma blockedAt_ext s s' x : doctors s' = doctors s → blockedAt s x → blockedAt s' x.
Proof. unfold blockedAt. by intros ->. Qed.

Lemma poolOK_slot_NoDup pool s slot :
  poolOK pool s → slot ∈ allSlots s → NoDup (id <$> slotTokens slot).
Proof.
  intros [Hnd _] Hin. rewrite fmap_app in Hnd. apply NoDup_app in Hnd as [Hnd _].
  apply list_elem_of_split in Hin as (A & B & HAB).
  unfold occupants in Hnd. rewrite HAB, bind_app, bind_cons, !fmap_app in Hnd.
  apply NoDup_app in Hnd as (_ & _ & Hnd). by apply NoDup_app in Hnd as [Hnd _].
Qed.

Lemma Map_get_allSlots s k d key slot :
  Map_get k (doctors s) = Some d → Map_get key (slots d) = Some slot →
  slot ∈ allSlots s.
Proof.
  intros Hd Hs. destruct (allSlots_putSlot _ _ _ _ _ Hd Hs) as (A & B & -> & _).
  apply elem_of_app. right. apply elem_of_cons. by left.
Qed.

(** A successful placement of a token of the pool keeps the invariants: the
    token moves from the pool into a slot, and what it evicts moves from the
    slot into the pool. *)
Lemma tryAllocateToSlot_invariant t time s s' pool :
  doctorsOK s → poolOK (t :: pool) s →
  tryAllocateToSlot t time s = (Normal true, s') →
  ∃ ev, waitingQueue s' = waitingQueue s ++ ev
    ∧ doctorsOK s' ∧ poolOK (ev ++ pool) s'
    ∧ tokens s' = tokens s ∧ fields s' = fields s ∧ nextId s' = nextId s
    ∧ (∀ x, blockedAt s x → blockedAt s' x)
    ∧ occupants s' ++ ev ≡ₚ t :: occupants s
    ∧ Forall (λ v, priority v < priority t) ev.
Proof.
  intros Hdocs Hpool Hrun.
  destruct (tryAllocateToSlot_true _ _ _ _ Hrun) as (d & slot & slot' & ev & Hd & Hs & Hp & ->).
  exists ev.
  destruct (doctorsOK_lookup _ _ _ _ _ Hdocs Hd Hs) as [(_ & _ & Hslot) _]. simpl in Hslot.
  pose proof (poolOK_slot_NoDup _ _ _ Hpool (Map_get_allSlots _ _ _ _ _ Hd Hs)) as Hnd.
  destruct (placed_facts _ _ _ _ Hslot Hnd Hp) as (Hslot' & Htime & Hperm & Hlow & Hmono).
  destruct (occupants_putSlot _ _ _ _ _ Hd Hs) as (A & B & HA & HB).
  set (key := slotKeyOf (doctorId t) time) in *.
  set (s1 := putSlot (doctorId t) d key slot' s).
  assert (Hocc : occupants (setWaitingQueue (waitingQueue s ++ ev) s1) = A ++ slotTokens slot' ++ B)
    by apply HB.
  assert (Hperm1 : occupants (setWaitingQueue (waitingQueue s ++ ev) s1) ++ ev
                   ≡ₚ t :: occupants s).
  { rewrite Hocc, HA, <- !app_assoc, (Permutation_app_comm B ev), (app_assoc _ ev B), Hperm.
    simpl. by rewrite <- Permutation_middle. }
  repeat split; try done.
  - apply (doctorsOK_ext s1); [done|]. by eapply doctorsOK_putSlot.
  - destruct Hpool as [Hn _].
    rewrite (app_assoc _ ev pool), Hperm1. simpl.
    by rewrite <- Permutation_middle in Hn.
  - destruct Hpool as [_ Hall].
    rewrite (app_assoc _ ev pool), Hperm1. simpl.
    rewrite <- Permutation_middle in Hall.
    eapply Forall_impl; [exact Hall|]. intros x [? ?]. split; [done|].
    by apply Map_get_putSlot.
  - intros x (d0 & Hd0 & Hall). unfold blockedAt. simpl. rewrite Map_get_set.
    case_decide as Hx; [|by exists d0].
    rewrite Hx, Hd in Hd0. injection Hd0 as <-.
    eexists. split; [done|]. simpl.
    destruct (Map_get_split _ _ _ Hs) as (n1 & n2 & Hn & Hnset).
    rewrite Hnset. rewrite Hn in Hall.
    apply Forall_app in Hall as [Hall1 Hall2]. apply Forall_cons in Hall2 as [Hthis Hall2].
    apply Forall_app. split; [done|]. apply Forall_cons. split; [|done].
    simpl in *. by apply Hmono.
Qed.

Lemma firstEligible_None table p :
  firstEligible table p = None ↔ Forall (λ e, eligible e.2 p = false) table.
Proof.
  induction table as [|[key slot] rest IH]; simpl; [done|].
  destruct (eligible slot p) eqn:He.
  - split; [done|]. intros [Hc _]%Forall_cons. simpl in Hc. congruence.
  - rewrite IH. split; [intros ?; by apply Forall_cons|by intros [_ ?]%Forall_cons].
Qed.

Lemma firstEligible_Some table p time :
  firstEligible table p = Some time →
  ∃ key slot, (key, slot) ∈ table ∧ eligible slot p = true ∧ time = startTime slot.
Proof.
  induction table as [|[key slot] rest IH]; simpl; [done|].
  destruct (eligible slot p) eqn:He.
  - intros [= <-]. exists key, slot. split; [apply elem_of_cons; by left|done].
  - intros (key' & slot' & Hin & ? & ?)%IH. exists key', slot'.
    split; [apply elem_of_cons; by right|done].
Qed.

(** One step of the replay under the invariants: the visited token is placed
    (and what it evicts joins the pool) or it is kept, and then no slot of
    its doctor is eligible for it. *)
Lemma replayBody_invariant token r w s pool :
  doctorsOK s → poolOK (token :: pool) s →
  ∃ r' w' s' ev,
    replayBody token r w s = (Normal (r', w'), s')
    ∧ waitingQueue s' = waitingQueue s ++ ev
    ∧ doctorsOK s' ∧ tokens s' = tokens s ∧ nextId s' = nextId s
    ∧ (∀ x, blockedAt s x → blockedAt s' x)
    ∧ ((r' = r ++ [token] ∧ w' = w ∧ poolOK (ev ++ pool) s')
       ∨ (r' = r ∧ w' = w ++ [token] ∧ ev = [] ∧ blockedAt s' token
          ∧ poolOK (token :: pool) s')).
Proof.
  intros Hdocs Hpool.
  assert (Hdoc : is_Some (Map_get (doctorId token) (doctors s))).
  { destruct Hpool as [_ Hall]. apply Forall_app in Hall as [_ Hall].
    by apply Forall_cons in Hall as [[_ ?] _]. }
  destruct Hdoc as [d Hd].
  unfold replayBody, findAnyAvailableSlot. unfoldM. rewrite Hd. simpl.
  destruct (firstEligible (slots d) (priority token)) as [time|] eqn:Hfirst; simpl.
  - destruct (firstEligible_Some _ _ _ Hfirst) as (key & slot & Hin & Hel & ->).
    assert (Htable : tableOK (doctorId token, d)).
    { unfold doctorsOK in Hdocs. rewrite Forall_forall in Hdocs.
      apply Hdocs. by apply Map_get_elem_of. }
    destruct Htable as [Hkeys Hentries]. simpl in *.
    rewrite Forall_forall in Hentries.
    destruct (Hentries _ Hin) as (Hkey & Htruthy & _). simpl in *. subst key.
    rewrite Htruthy. simpl.
    pose proof (NoDup_keys_Map_get _ _ _ Hkeys Hin) as Hs.
    set (s1 := setSlotTime token (startTime slot) s).
    destruct (tryAllocateToSlot_eligible token (startTime slot) s1 d slot Hd Hs Hel)
      as [s' Hrun].
    rewrite Hrun. simpl.
    destruct (tryAllocateToSlot_invariant token (startTime slot) s1 s' pool)
      as (ev & Hq & Hdocs' & Hpool' & Htok & _ & Hnext & Hmono & _ & _);
      [by apply (doctorsOK_ext s)|by apply (poolOK_ext _ s)|done|].
    exists (r ++ [token]), w, s', ev. repeat split; try done. by left.
  - exists r, (w ++ [token]), s, []. rewrite app_nil_r. repeat split; try done.
    right. split; [done|]. split; [done|]. split; [done|]. split; [|exact Hpool].
    exists d. split; [done|]. by apply firstEligible_None.
Qed.

(** A replay from a consistent state returns normally, in a consistent
    state, and leaves in the queue only tokens no slot is eligible for. *)
Lemma processWaitingQueue_invariant s :
  doctorsOK s → poolOK (waitingQueue s) s →
  ∃ r s', processWaitingQueue s = (Normal r, s')
    ∧ doctorsOK s' ∧ poolOK (waitingQueue s') s'
    ∧ tokens s' = tokens s ∧ nextId s' = nextId s
    ∧ Forall (blockedAt s') (waitingQueue s').
Proof.
  intros Hdocs Hpool.
  pose (I := λ (i : nat) (r w : list Token) (st : Engine),
          doctorsOK st ∧ poolOK (drop i (waitingQueue st) ++ w) st
          ∧ Forall (blockedAt st) w ∧ tokens st = tokens s ∧ nextId st = nextId s).
  pose (Q := λ (c : completion (list Token * list Token)) (st : Engine),
          match c with
          | Normal (r, w) =>
              doctorsOK st ∧ poolOK w st ∧ Forall (blockedAt st) w
              ∧ tokens st = tokens s ∧ nextId st = nextId s
          | Throw _ => False
          | OutOfFuel => True
          end).
  set (fuel := S (replayWeight (waitingQueue s))).
  assert (HQ : Q (replayLoop fuel 0 [] [] s).1 (replayLoop fuel 0 [] [] s).2).
  { apply (replayLoop_rule I Q).
    - intros i r w st (Hd & Hp & Hb & Ht & Hn) Hi. unfold Q.
      apply lookup_ge_None in Hi. rewrite drop_ge in Hp by done. done.
    - intros i r w st token (Hd & Hp & Hb & Ht & Hn) Hi.
      rewrite (drop_S _ _ _ Hi) in Hp. simpl in Hp.
      destruct (replayBody_invariant token r w st _ Hd Hp)
        as (r' & w' & st' & ev & Hbody & Hq & Hd' & Ht' & Hn' & Hmono & Hcase).
      rewrite Hbody.
      assert (Hdrop : drop (S i) (waitingQueue st') = drop (S i) (waitingQueue st) ++ ev).
      { rewrite Hq. apply drop_app_le. apply lookup_lt_Some in Hi. lia. }
      unfold I. rewrite Hdrop.
      destruct Hcase as [(-> & -> & Hp')|(-> & -> & -> & Hblocked & Hp')].
      + split_and!; try congruence.
        * eapply poolOK_perm; [|exact Hp'].
          by rewrite (Permutation_app_comm _ ev), app_assoc.
        * eapply Forall_impl; [exact Hb|done].
      + split; [done|]. split; [|split; [|split; congruence]].
        * eapply poolOK_perm; [|exact Hp'].
          rewrite app_nil_r, app_assoc. apply Permutation_cons_append.
        * apply Forall_app. split; [by eapply Forall_impl|by apply Forall_singleton].
    - by intros.
    - unfold I. rewrite drop_0, app_nil_r. done. }
  pose proof (replayLoop_fuel fuel 0 [] [] s) as Hfuel.
  unfold processWaitingQueue. unfoldM. fold fuel.
  destruct (replayLoop fuel 0 [] [] s) as [[[r w]|e|] s1]; simpl in *.
  - exists r. eexists. split; [done|]. simpl.
    destruct HQ as (Hd & Hp & Hb & Ht & Hn). by split_and!.
  - done.
  - exfalso. apply Hfuel; [|done]. rewrite drop_0. unfold fuel. lia.
Qed.

(** Replaying a queue of tokens none of which has an eligible slot places
    nothing and changes nothing. *)
Lemma replayLoop_blocked s fuel i :
  Forall (blockedAt s) (waitingQueue s) →
  length (waitingQueue s) - i < fuel →
  ∀ r w, replayLoop fuel i r w s = (Normal (r, w ++ drop i (waitingQueue s)), s).
Proof.
  intros Hblocked. revert i. induction fuel as [|fuel IH]; intros i Hlt r w; [lia|].
  rewrite replayLoop_S. destruct (waitingQueue s !! i) as [token|] eqn:Hi.
  - assert (Hb : blockedAt s token).
    { rewrite Forall_forall in Hblocked. apply Hblocked. by eapply list_elem_of_lookup_2. }
    destruct Hb as (d & Hd & Hall). apply firstEligible_None in Hall.
    unfold bind, replayBody, findAnyAvailableSlot. unfoldM. rewrite Hd. simpl.
    rewrite Hall. simpl. rewrite IH by (apply lookup_lt_Some in Hi; lia).
    by rewrite (drop_S _ _ _ Hi), <- app_assoc.
  - apply lookup_ge_None in Hi. rewrite drop_ge by done. by rewrite app_nil_r.
Qed.

Lemma replayWeight_length l : length l ≤ replayWeight l.
Proof.
  induction l as [|t l IH]; [done|].
  change (t :: l) with ([t] ++ l). rewrite replayWeight_app, length_app.
  unfold replayWeight at 1. simpl. lia.
Qed.

Lemma processWaitingQueue_blocked s :
  Forall (blockedAt s) (waitingQueue s) → processWaitingQueue s = (Normal [], s).
Proof.
  intros Hblocked. unfold processWaitingQueue. unfoldM.
  rewrite (replayLoop_blocked s _ 0 Hblocked).
  - simpl. rewrite drop_0. unfold setWaitingQueue. by rewrite Engine_eta.
  - pose proof (replayWeight_length (waitingQueue s)). lia.
Qed.

Lemma extends_refl s : extends s s.
Proof. by split. Qed.

Lemma extends_trans s1 s2 s3 : extends s1 s2 → extends s2 s3 → extends s1 s3.
Proof.
  intros [Hn1 Ht1] [Hn2 Ht2]. split; [lia|].
  intros k Hk. rewrite Ht2 by lia. by apply Ht1.
Qed.

Lemma extends_same s s' : nextId s' = nextId s → tokens s' = tokens s → extends s s'.
Proof. intros Hn Ht. split; [lia|]. intros k _. by rewrite Ht. Qed.

Lemma poolOK_sub pool s s' :
  occupants s' `sublist_of` occupants s → nextId s ≤ nextId s' →
  (∀ k, is_Some (Map_get k (doctors s)) → is_Some (Map_get k (doctors s'))) →
  poolOK pool s → poolOK pool s'.
Proof.
  intros Hsub Hn Hdocs [Hnd Hall].
  assert (Hsub' : occupants s' ++ pool `sublist_of` occupants s ++ pool)
    by (by apply sublist_app).
  split.
  - eapply sublist_NoDup; [exact Hnd|]. by apply fmap_sublist.
  - rewrite Forall_forall in Hall. apply Forall_forall. intros t Ht.
    destruct (Hall t) as [? ?]; [by eapply elem_of_sublist|].
    split; [lia|by apply Hdocs].
Qed.

Lemma Map_set_split {V} k (v : V) (m : list (string * V)) :
  ∃ m1 m2, Map_set k v m = m1 ++ (k, v) :: m2
           ∧ ((m = m1 ∧ m2 = []) ∨ ∃ v0, m = m1 ++ (k, v0) :: m2).
Proof.
  induction m as [|[k0 v0] r IH]; simpl.
  - exists [], []. split; [done|]. by left.
  - case_decide as Hk.
    + subst k0. exists [], r. split; [done|]. right. by exists v0.
    + destruct IH as (m1 & m2 & -> & Hcase). exists ((k0, v0) :: m1), m2.
      split; [done|]. destruct Hcase as [[-> ->]|[v1 ->]]; [by left|right; by exists v1].
Qed.

(** *** Registering a doctor *)

Lemma truthy_hourString h : Js.truthy (Js.hourString h) = true.
Proof. unfold Js.hourString. by destruct (Js.padStart2 (Js.toString h)). Qed.

Lemma initializeDoctorSlots_fresh i n sp a b :
  let table := initializeDoctorSlots (newDoctor i n sp a b) in
  NoDup table.*1 ∧ Forall (freshEntry i) table.
Proof.
  unfold initializeDoctorSlots. simpl.
  generalize (match Js.parseInt (Js.beforeColon a), Js.parseInt (Js.beforeColon b) with
              | Some x, Some y => seqZ x (y - x)
              | _, _ => []
              end).
  intros hours.
  assert (Hgen : ∀ table : list (string * Slot),
    NoDup table.*1 → Forall (freshEntry i) table →
    NoDup (foldl (λ table hour,
             Map_set (slotKeyOf i (Js.hourString (Some hour)))
               (newSlot i (Js.hourString (Some hour)) (Js.hourString (Some (hour + 1)%Z)))
               table) table hours).*1
    ∧ Forall (freshEntry i)
        (foldl (λ table hour,
             Map_set (slotKeyOf i (Js.hourString (Some hour)))
               (newSlot i (Js.hourString (Some hour)) (Js.hourString (Some (hour + 1)%Z)))
               table) table hours)).
  { induction hours as [|h hours IH]; intros table Hnd Hall; simpl; [done|].
    apply IH; [by apply Map_set_keys_NoDup|].
    apply Forall_forall. intros e [->|He]%elem_of_Map_set.
    - by exists h.
    - rewrite Forall_forall in Hall. by apply Hall. }
  apply Hgen; [apply NoDup_nil_2|apply Forall_nil_2].
Qed.

Lemma freshEntry_entryOK k e : freshEntry k e → entryOK k e ∧ slotTokens e.2 = [].
Proof.
  intros [h ->]. unfold entryOK, slotOK. simpl.
  rewrite truthy_hourString. done.
Qed.

Lemma slotsOf_app m1 m2 : slotsOf (m1 ++ m2) = slotsOf m1 ++ slotsOf m2.
Proof. unfold slotsOf. by rewrite fmap_app, bind_app. Qed.

Lemma slotsOf_cons k d m : slotsOf ((k, d) :: m) = (slots d).*2 ++ slotsOf m.
Proof. unfold slotsOf. by rewrite fmap_cons, bind_cons. Qed.

Lemma addDoctor_wellFormed s i n sp a b :
  wellFormed s →
  wellFormed (exec (CallAddDoctor i n sp a b) s)
  ∧ extends s (exec (CallAddDoctor i n sp a b) s).
Proof.
  intros (Hdocs & Hpool & Hreg). simpl. unfold addDoctor. unfoldM.
  destruct (initializeDoctorSlots_fresh i n sp a b) as [Hnd Hfresh].
  set (table := initializeDoctorSlots (newDoctor i n sp a b)) in *.
  set (d' := {| doctorKey := i; name := n; specialization := sp;
                workingHoursStart := a; workingHoursEnd := b; slots := table |}).
  set (s' := setDoctors (Map_set i d' (doctors s)) s).
  assert (Hempty : table.*2 ≫= slotTokens = []).
  { clear -Hfresh. induction Hfresh as [|e l He _ IH]; [done|].
    rewrite fmap_cons, bind_cons, IH. by destruct (freshEntry_entryOK _ _ He) as [_ ->]. }
  split; [|by apply extends_same]. split; [|split].
  - unfold doctorsOK in *. simpl. apply Forall_forall.
    intros e [->|He]%elem_of_Map_set.
    + split; [done|]. simpl. eapply Forall_impl; [exact Hfresh|].
      intros e He. by apply freshEntry_entryOK.
    + rewrite Forall_forall in Hdocs. by apply Hdocs.
  - apply (poolOK_sub _ s); [| done | |done].
    + change (slotsOf (Map_set i d' (doctors s)) ≫= slotTokens
              `sublist_of` slotsOf (doctors s) ≫= slotTokens).
      destruct (Map_set_split i d' (doctors s)) as (m1 & m2 & -> & Hcase).
      rewrite slotsOf_app, slotsOf_cons, !bind_app. simpl. rewrite Hempty. simpl.
      destruct Hcase as [[-> ->]|[d0 ->]].
      * by rewrite app_nil_r.
      * rewrite slotsOf_app, slotsOf_cons, !bind_app.
        apply sublist_app; [done|]. by apply sublist_inserts_l.
    + intros k Hk. simpl. rewrite Map_get_set. by case_decide.
  - done.
Qed.

(** *** Cancelling *)

Lemma removeToken_facts k slot :
  slotOK slot →
  slotOK (removeToken k slot).2
  ∧ startTime (removeToken k slot).2 = startTime slot
  ∧ slotTokens (removeToken k slot).2 `sublist_of` slotTokens slot.
Proof.
  intros (Hmax & Havail & Hpos). unfold removeToken.
  destruct (findIndex k (slotTokens slot)) as [i|] eqn:Hfind; simpl; [|done].
  destruct (findIndex_Some _ _ _ Hfind) as (t & Hi & _).
  split; [|split; [done|apply sublist_delete]].
  unfold slotOK. simpl. rewrite length_delete by (by exists t).
  apply lookup_lt_Some in Hi. split; [done|]. split; lia.
Qed.

Lemma cancel_finish s s1 t :
  registryOK s → doctorsOK s1 → poolOK (waitingQueue s1) s1 →
  tokens s1 = tokens s → nextId s1 = nextId s →
  ∃ r s3, processWaitingQueue (setStatus t CANCELLED s1) = (Normal r, s3)
          ∧ wellFormed s3 ∧ extends s s3.
Proof.
  intros Hreg Hdocs1 Hpool1 Htok1 Hnext1.
  destruct (processWaitingQueue_invariant (setStatus t CANCELLED s1))
    as (r & s3 & Hrun & Hdocs3 & Hpool3 & Htok3 & Hnext3 & _);
    [done|by apply (poolOK_ext _ s1)|].
  exists r, s3. simpl in *. split; [done|]. split.
  - split_and!; try done. intros k' t'. rewrite Htok3, Htok1, Hnext3, Hnext1. apply Hreg.
  - apply extends_same; congruence.
Qed.

Lemma cancelToken_wellFormed s k :
  wellFormed s →
  wellFormed (exec (CallCancelToken k) s) ∧ extends s (exec (CallCancelToken k) s).
Proof.
  intros (Hdocs & Hpool & Hreg). simpl. unfold cancelToken. unfoldM.
  destruct (tokens s !! k) as [t|] eqn:Hk; simpl; [|by split; [|apply extends_refl]].
  destruct (Map_get (doctorId t) (doctors s)) as [d|] eqn:Hd; simpl;
    [|by split; [|apply extends_refl]].
  set (key := slotKeyOf (doctorId t) (getSlotTime t s)).
  destruct (Map_get key (slots d)) as [slot|] eqn:Hs; simpl.
  - destruct (doctorsOK_lookup _ _ _ _ _ Hdocs Hd Hs) as [(_ & _ & Hslot) _]. simpl in Hslot.
    destruct (removeToken_facts k slot Hslot) as (Hslot' & Htime & Hsub).
    set (s1 := putSlot (doctorId t) d key (removeToken k slot).2 s).
    destruct (cancel_finish s s1 t) as (r & s3 & -> & Hwf & Hext); try done.
    + by eapply doctorsOK_putSlot.
    + eapply (poolOK_sub _ s); [| |by apply Map_get_putSlot|done]; [|done].
      unfold s1. destruct (occupants_putSlot _ _ _ _ _ Hd Hs) as (A & B & -> & ->).
      apply sublist_app; [done|]. by apply sublist_app.
  - destruct (cancel_finish s s t) as (r & s3 & -> & Hwf & Hext); done.
Qed.

(** *** Allocating *)

#[global] Arguments probeOffsets : simpl never.

Lemma newToken_run p d t src pr s :
  newToken p d t src pr s
  = (Normal {| id := nextId s; patientId := p; doctorId := d; source := src; priority := pr |},
     afterNew t s).
Proof. done. Qed.

Lemma afterNew_wellFormed t s : wellFormed s → wellFormed (afterNew t s).
Proof.
  intros (Hdocs & Hpool & Hreg). split_and!; [done| |].
  - by apply (poolOK_ext _ s); [done|simpl; lia|].
  - intros k x Hk. simpl in *. specialize (Hreg k x Hk). lia.
Qed.

Lemma afterNew_pool t s token :
  wellFormed s → id token = nextId s →
  is_Some (Map_get (doctorId token) (doctors s)) →
  poolOK (token :: waitingQueue s) (afterNew t s).
Proof.
  intros (Hdocs & [Hnd Hall] & Hreg) Hid Hdoc.
  unfold poolOK. change (occupants (afterNew t s)) with (occupants s).
  rewrite <- Permutation_middle. split.
  - rewrite fmap_cons. apply NoDup_cons. split; [|done].
    intros (x & Hx & Hin)%list_elem_of_fmap.
    rewrite Forall_forall in Hall. destruct (Hall x Hin) as [Hlt _]. lia.
  - apply Forall_cons. split; [split; [simpl; lia|done]|].
    eapply Forall_impl; [exact Hall|]. intros x [? ?]. split; [simpl; lia|done].
Qed.

Lemma placed_register s1 s2 token time :
  doctorsOK s1 → poolOK (token :: waitingQueue s1) s1 → registryOK s1 →
  id token < nextId s1 →
  tryAllocateToSlot token time s1 = (Normal true, s2) →
  wellFormed (registerToken token s2)
  ∧ nextId s2 = nextId s1
  ∧ tokens (registerToken token s2) = <[id token := token]> (tokens s1).
Proof.
  intros Hdocs Hpool Hreg Hid Hrun.
  destruct (tryAllocateToSlot_invariant _ _ _ _ _ Hdocs Hpool Hrun)
    as (ev & Hq & Hdocs' & Hpool' & Htok & _ & Hnext & _).
  split; [|split; [done|by simpl; rewrite Htok]].
  split_and!.
  - done.
  - change (poolOK (waitingQueue s2) s2). rewrite Hq.
    eapply poolOK_perm; [|exact Hpool']. apply Permutation_app_comm.
  - intros k x. simpl. rewrite Htok, Hnext. rewrite lookup_insert.
    case_decide as Hk; [intros _; lia|apply Hreg].
Qed.

Lemma queued_wellFormed s1 token :
  doctorsOK s1 → poolOK (token :: waitingQueue s1) s1 → registryOK s1 →
  wellFormed (pushWaiting token s1).
Proof.
  intros Hdocs Hpool Hreg. split_and!; [done| |done].
  change (poolOK (waitingQueue s1 ++ [token]) s1).
  eapply poolOK_perm; [|exact Hpool]. apply Permutation_cons_append.
Qed.

Lemma extends_afterNew s s' :
  registryOK s → nextId s' = S (nextId s) →
  (tokens s' = tokens s ∨ ∃ x, tokens s' = <[nextId s := x]> (tokens s)) →
  extends s s'.
Proof.
  intros Hreg Hn Hcase. split; [lia|]. intros k Hk.
  destruct Hcase as [->|[x ->]]; [done|]. rewrite lookup_insert_ne; [done|lia].
Qed.

Lemma allocateToken_wellFormed s p d t src :
  wellFormed s →
  let res := allocateToken p d t src s in
  wellFormed res.2 ∧ extends s res.2
  ∧ ∀ o tok, res.1 = Normal o → success o = false → token o = Some tok →
      id tok = nextId s ∧ tokens res.2 = tokens s ∧ tok ∈ waitingQueue res.2
      ∧ nextId res.2 = S (nextId s).
Proof.
  intros Hwf. pose proof Hwf as (Hdocs & Hpool & Hreg).
  unfold allocateToken, findAlternativeSlot. unfoldM.
  destruct (Map_get d (doctors s)) as [doc|] eqn:Hd; simpl;
    [|split; [done|split; [apply extends_refl|by intros o tok [= <-]]]].
  set (tok := {| id := nextId s; patientId := p; doctorId := d; source := src;
                 priority := (getSourceConfig src).2 |}).
  set (s1 := afterNew t s).
  change {| doctors := doctors s; tokens := tokens s; waitingQueue := waitingQueue s;
            fields := <[nextId s:={| slotTime := t; status := ALLOCATED |}]> (fields s);
            nextId := S (nextId s) |} with s1.
  assert (Hpool1 : poolOK (tok :: waitingQueue s1) s1).
  { apply (afterNew_pool t s tok); [done..|]. simpl. by rewrite Hd. }
  destruct (afterNew_wellFormed t s Hwf) as (Hdocs1 & _ & Hreg1). fold s1 in Hdocs1, Hreg1.
  assert (Hqueued : ∀ s2, doctors s2 = doctors s1 → waitingQueue s2 = waitingQueue s1 →
            tokens s2 = tokens s1 → nextId s2 = nextId s1 →
            wellFormed (pushWaiting tok s2) ∧ extends s (pushWaiting tok s2)
            ∧ id tok = nextId s ∧ tokens (pushWaiting tok s2) = tokens s
            ∧ tok ∈ waitingQueue (pushWaiting tok s2)
            ∧ nextId (pushWaiting tok s2) = S (nextId s)).
  { intros s2 Hd2 Hq2 Ht2 Hn2. split_and!; try done.
    - apply queued_wellFormed.
      + by apply (doctorsOK_ext s1).
      + rewrite Hq2. apply (poolOK_ext _ s1); [done|lia|done].
      + intros k x. rewrite Ht2, Hn2. apply Hreg1.
    - apply (extends_afterNew s); [done|by simpl; rewrite Hn2|left; by simpl; rewrite Ht2].
    - simpl. apply elem_of_app. right. by apply list_elem_of_singleton. }
  assert (Hplaced : ∀ s1' s2 time, doctors s1' = doctors s1 →
            waitingQueue s1' = waitingQueue s1 → tokens s1' = tokens s1 →
            nextId s1' = nextId s1 →
            tryAllocateToSlot tok time s1' = (Normal true, s2) →
            wellFormed (registerToken tok s2) ∧ extends s (registerToken tok s2)).
  { intros s1' s2 time Hd2 Hq2 Ht2 Hn2 Hrun.
    destruct (placed_register s1' s2 tok time) as (Hwf2 & Hn & Ht); try done.
    - by apply (doctorsOK_ext s1).
    - rewrite Hq2. apply (poolOK_ext _ s1); [done|lia|done].
    - intros k x. rewrite Ht2, Hn2. apply Hreg1.
    - rewrite Hn2. simpl. lia.
    - split; [done|]. apply (extends_afterNew s); [done|simpl; by rewrite Hn, Hn2|].
      right. exists tok. by rewrite Ht, Ht2. }
  destruct (tryAllocateToSlot_completes tok t s1) as [([|] & s2 & Hrun)|(e & Hrun & Hnone)];
    rewrite Hrun; simpl.
  - destruct (Hplaced s1 s2 t) as [? ?]; try done. split_and!; try done.
    by intros o tok' [= <-].
  - apply tryAllocateToSlot_false in Hrun as ->. simpl. rewrite Hd. simpl.
    destruct (probeOffsets _ _ _ _ _) as [alt|]; simpl.
    + destruct (Js.truthy alt); simpl.
      * destruct (tryAllocateToSlot_completes tok alt (setSlotTime tok alt s1))
          as [([|] & s2 & Hrun)|(e & Hrun & Hnone)]; rewrite Hrun; simpl.
        -- destruct (Hplaced (setSlotTime tok alt s1) s2 alt) as [? ?]; try done.
           split_and!; try done. by intros o tok' [= <-].
        -- apply tryAllocateToSlot_false in Hrun as ->.
           destruct (Hqueued (setSlotTime tok alt s1)) as (? & ? & ? & ? & ? & ?); try done.
           split_and!; try done. by intros o tok' [= <-] _ [= <-].
        -- simpl in Hnone. congruence.
      * destruct (Hqueued s1) as (? & ? & ? & ? & ? & ?); try done.
        split_and!; try done. by intros o tok' [= <-] _ [= <-].
    + destruct (Hqueued s1) as (? & ? & ? & ? & ? & ?); try done.
      split_and!; try done. by intros o tok' [= <-] _ [= <-].
  - simpl in Hnone. congruence.
Qed.

Lemma insertEmergencyToken_wellFormed s p d t :
  wellFormed s →
  wellFormed (exec (CallInsertEmergencyToken p d t) s)
  ∧ extends s (exec (CallInsertEmergencyToken p d t) s).
Proof.
  intros Hwf. pose proof Hwf as (Hdocs & Hpool & Hreg).
  cut (∃ c s', insertEmergencyToken p d t s = (c, s') ∧ wellFormed s' ∧ extends s s').
  { intros (c & s' & Hrun & ? & ?). simpl. by rewrite Hrun. }
  unfold insertEmergencyToken. unfoldM.
  set (tok := {| id := nextId s; patientId := p; doctorId := d; source := "emergency";
                 priority := 10 |}).
  set (s1 := afterNew t s).
  change {| doctors := doctors s; tokens := tokens s; waitingQueue := waitingQueue s;
            fields := <[nextId s:={| slotTime := t; status := ALLOCATED |}]> (fields s);
            nextId := S (nextId s) |} with s1.
  pose proof (afterNew_wellFormed t s Hwf) as Hwf1. fold s1 in Hwf1.
  assert (Hext1 : extends s s1) by (apply (extends_afterNew s); [done..|by left]).
  destruct (tryAllocateToSlot_completes tok t s1) as [([|] & s2 & Hrun)|(e & Hrun & Hnone)];
    rewrite Hrun; simpl; [| |by eexists _, _].
  - destruct (tryAllocateToSlot_true _ _ _ _ Hrun) as (doc & _ & _ & _ & Hd & _).
    destruct Hwf1 as (Hdocs1 & _ & Hreg1).
    destruct (placed_register s1 s2 tok t) as ((Hdocs3 & Hpool3 & Hreg3) & Hn & Ht); try done.
    + apply (afterNew_pool t s tok); [done..|].
      change (is_Some (Map_get (doctorId tok) (doctors s1))). by rewrite Hd.
    + simpl. lia.
    + destruct (processWaitingQueue_invariant (registerToken tok s2))
        as (r & s4 & -> & Hdocs4 & Hpool4 & Htok4 & Hnext4 & _); [done..|].
      eexists _, _. split; [done|]. split.
      * split_and!; try done. intros k x. rewrite Htok4, Hnext4. apply Hreg3.
      * apply (extends_afterNew s); [done|by rewrite Hnext4; simpl; rewrite Hn|].
        right. exists tok. by rewrite Htok4, Ht.
  - apply tryAllocateToSlot_false in Hrun as ->. by eexists _, _.
Qed.

(** *** Every reachable state is well formed *)

Lemma newEngine_wellFormed : wellFormed newEngine.
Proof.
  split_and!.
  - apply Forall_nil_2.
  - split; [apply NoDup_nil_2|apply Forall_nil_2].
  - intros k t Hk. simpl in Hk. by rewrite lookup_empty in Hk.
Qed.

Lemma exec_wellFormed c s : wellFormed s → wellFormed (exec c s) ∧ extends s (exec c s).
Proof.
  intros Hwf. destruct c as [i n sp a b|p d t src|p d t|k|].
  - by apply addDoctor_wellFormed.
  - destruct (allocateToken_wellFormed s p d t src Hwf) as (? & ? & _). by split.
  - by apply insertEmergencyToken_wellFormed.
  - by apply cancelToken_wellFormed.
  - destruct Hwf as (Hdocs & Hpool & Hreg). simpl.
    destruct (processWaitingQueue_invariant s Hdocs Hpool)
      as (r & s' & -> & Hdocs' & Hpool' & Htok & Hnext & _). simpl. split.
    + split_and!; try done. intros k x. rewrite Htok, Hnext. apply Hreg.
    + by apply extends_same.
Qed.

Lemma execAll_wellFormed calls s :
  wellFormed s → wellFormed (execAll calls s) ∧ extends s (execAll calls s).
Proof.
  revert s. induction calls as [|c calls IH]; intros s Hwf; simpl.
  - split; [done|apply extends_refl].
  - destruct (exec_wellFormed c s Hwf) as [Hwf1 Hext1].
    destruct (IH _ Hwf1) as [Hwf2 Hext2]. split; [done|by eapply extends_trans].
Qed.

Lemma reachable_wellFormed s : reachable s → wellFormed s.
Proof. intros [calls ->]. apply execAll_wellFormed, newEngine_wellFormed. Qed.

(** C6. In every state the engine's operations can produce, every slot holds
    at most 10 tokens, its capacity is 10, its stored [availableCapacity]
    is the capacity minus the number of occupants, and no two occupants have
    the same identifier. *)
Theorem C6_slot_capacity_invariant (s : Engine) (slot : Slot) :
  reachable s → slot ∈ allSlots s →
  length (slotTokens slot) ≤ 10
  ∧ maxCapacity slot = 10%Z
  ∧ availableCapacity slot = (maxCapacity slot - Z.of_nat (length (slotTokens slot)))%Z
  ∧ NoDup (id <$> slotTokens slot).
Proof.
  intros (Hdocs & Hpool & _)%reachable_wellFormed Hin.
  destruct (doctorsOK_slot _ _ Hdocs Hin) as (Hmax & Havail & Hpos).
  split_and!; try done; [lia|]. by eapply poolOK_slot_NoDup.
Qed.

Lemma C6_witness :
  length (slotTokens fullSlot) ≤ 10
  ∧ maxCapacity fullSlot = 10%Z
  ∧ availableCapacity fullSlot
    = (maxCapacity fullSlot - Z.of_nat (length (slotTokens fullSlot)))%Z
  ∧ NoDup (id <$> slotTokens fullSlot).
Proof.
  apply (C6_slot_capacity_invariant (execAll cancelScenario newEngine) fullSlot).
  - by exists cancelScenario.
  - apply (list_elem_of_lookup_2 _ 0). vm_compute. reflexivity.
Defined.

(** C10. A token [allocateToken] puts into the waiting queue is not entered
    into the registry, and nothing enters it later: in the state the call
    leaves, and after any further calls, [cancelToken] on its identifier
    returns the "Token not found" failure and changes nothing. *)
Theorem C10_queued_token_cannot_be_cancelled
    (s : Engine) (p d t src : string) (o : Outcome) (tok : Token) (s1 : Engine) :
  reachable s →
  allocateToken p d t src s = (Normal o, s1) →
  success o = false → token o = Some tok →
  tok ∈ waitingQueue s1
  ∧ tokens s1 !! id tok = None
  ∧ ∀ calls,
      cancelToken (id tok) (execAll calls s1)
      = (Normal {| success := false; token := None;
                   message := Some "Token not found"; error := None |},
         execAll calls s1).
Proof.
  intros Hwf%reachable_wellFormed Hrun Hfail Htok.
  destruct (allocateToken_wellFormed s p d t src Hwf) as (Hwf1 & _ & Hq).
  rewrite Hrun in Hwf1, Hq. simpl in *.
  destruct (Hq o tok eq_refl Hfail Htok) as (Hid & Hreg1 & Hin & Hnext).
  assert (Hnone : tokens s1 !! id tok = None).
  { rewrite Hreg1. destruct (tokens s !! id tok) as [x|] eqn:Hx; [|done].
    destruct Hwf as (_ & _ & Hreg). specialize (Hreg _ _ Hx). lia. }
  split_and!; try done. intros calls.
  destruct (execAll_wellFormed calls s1 Hwf1) as [_ [_ Hext]].
  unfold cancelToken. unfoldM. rewrite Hext by lia. by rewrite Hnone.
Qed.

Lemma C10_witness :
  let s := execAll (CallAddDoctor "D1" "Dr" "Gen" "09:00" "10:00"
                    :: replicate 10 (CallAllocateToken "W" "D1" "09:00" "walkin"))
                   newEngine in
  let s1 := (allocateToken "W" "D1" "09:00" "walkin" s).2 in
  walkinToken 10 ∈ waitingQueue s1
  ∧ tokens s1 !! 10 = None
  ∧ ∀ calls,
      cancelToken 10 (execAll calls s1)
      = (Normal {| success := false; token := None;
                   message := Some "Token not found"; error := None |},
         execAll calls s1).
Proof.
  intros s s1.
  apply (C10_queued_token_cannot_be_cancelled s "W" "D1" "09:00" "walkin"
           {| success := false; token := Some (walkinToken 10);
              message := Some "No slots available, added to waiting queue";
              error := None |} (walkinToken 10) s1).
  - exists (CallAddDoctor "D1" "Dr" "Gen" "09:00" "10:00"
            :: replicate 10 (CallAllocateToken "W" "D1" "09:00" "walkin")).
    reflexivity.
  - vm_compute. reflexivity.
  - reflexivity.
  - reflexivity.
Defined.

(** ** Replay and the tokens evicted during it *)

Lemma blockedAt_findAny s t :
  blockedAt s t → findAnyAvailableSlot (doctorId t) (priority t) s = (Normal None, s).
Proof.
  intros (d & Hd & Hall). unfold findAnyAvailableSlot. unfoldM. rewrite Hd. simpl.
  by rewrite (proj2 (firstEligible_None _ _) Hall).
Qed.

(** * Further properties of the engine *)

(** ** Source table *)

Lemma TOKEN_SOURCES_names e e' :
  e ∈ TOKEN_SOURCES → e' ∈ TOKEN_SOURCES → e.1 = e'.1 → e = e'.
Proof.
  unfold TOKEN_SOURCES. intros He He'.
  repeat (apply elem_of_cons in He as [->|He]);
    repeat (apply elem_of_cons in He' as [->|He']);
    try (by apply elem_of_nil in He); try (by apply elem_of_nil in He');
    simpl; intros Hn; done.
Qed.

(** X1. [getSourceConfig] returns the table entry whose name is the given
    source and the walk-in entry for any other string; the priority it
    yields is always one of 10, 8, 6, 4, 2. *)
Theorem X1_getSourceConfig_table (src : string) :
  (∀ e, e ∈ TOKEN_SOURCES → e.1 = src → getSourceConfig src = e)
  ∧ ((∀ e, e ∈ TOKEN_SOURCES → e.1 ≠ src) → getSourceConfig src = WALKIN)
  ∧ (getSourceConfig src).2 ∈ [10; 8; 6; 4; 2].
Proof.
  unfold getSourceConfig.
  destruct (List.find (λ s, String.eqb s.1 src) TOKEN_SOURCES) as [e'|] eqn:Hfind; simpl.
  - apply find_some in Hfind as [Hin Heq]. apply list_elem_of_In in Hin.
    apply String.eqb_eq in Heq. split_and!.
    + intros e He Hn. symmetry. apply TOKEN_SOURCES_names; congruence.
    + intros Hnone. by destruct (Hnone e' Hin).
    + change [10; 8; 6; 4; 2] with TOKEN_SOURCES.*2. apply list_elem_of_fmap. by exists e'.
  - split_and!; [|done|do 4 (apply elem_of_cons; right); apply elem_of_cons; by left].
    intros e He Hn. apply list_elem_of_In in He.
    pose proof (find_none _ _ Hfind e He) as Hf. simpl in Hf.
    apply String.eqb_neq in Hf. done.
Qed.

Lemma X1_witness :
  getSourceConfig "followup" = ("followup", 6) ∧ getSourceConfig "vip" = WALKIN.
Proof.
  split.
  - apply (proj1 (X1_getSourceConfig_table "followup") ("followup", 6)); [|done].
    do 2 (apply elem_of_cons; right). apply elem_of_cons. by left.
  - apply (proj1 (proj2 (X1_getSourceConfig_table "vip"))).
    intros e He. unfold TOKEN_SOURCES in He.
    repeat (apply elem_of_cons in He as [->|He]); try done. by apply elem_of_nil in He.
Defined.

(** ** Placement decisions *)

(** A placement attempt for a registered doctor returns, and succeeds
    exactly when the addressed slot exists and passes the eligibility test. *)
Lemma tryAllocateToSlot_decides t time s d :
  Map_get (doctorId t) (doctors s) = Some d →
  ∃ b s', tryAllocateToSlot t time s = (Normal b, s')
          ∧ (b = true ↔ qualifies (doctorId t) (slots d) (priority t) time).
Proof.
  intros Hd.
  destruct (tryAllocateToSlot_completes t time s) as [(b & s' & Hrun)|(e & _ & Hnone)];
    [|congruence].
  exists b, s'. split; [done|]. split.
  - intros ->. destruct (tryAllocateToSlot_true _ _ _ _ Hrun) as (d' & slot & slot' & ev & Hd' & Hs & Hp & _).
    assert (d' = d) as -> by congruence.
    exists slot. split; [done|].
    destruct Hp as [(Hc & _)|(_ & v & Hscan & _)]; [by left|right].
    destruct (scanLowest_spec (slotTokens slot) None (priority t))
      as [[Heq _]|(i & v' & Heq & Hi & Hv & _)]; [congruence|].
    exists v'. split; [by eapply list_elem_of_lookup_2|done].
  - intros (slot & Hs & Hel). apply eligible_spec in Hel.
    destruct (tryAllocateToSlot_eligible t time s d slot Hd Hs Hel) as [s'' Hrun'].
    congruence.
Qed.



Lemma truthy_probeOffsets d table h p range time :
  probeOffsets d table h p range = Some time → Js.truthy time = true.
Proof.
  intros Hrun. pose proof (probeOffsets_spec d table h p range) as Hspec.
  rewrite Hrun in Hspec. destruct Hspec as (? & ? & ? & _ & -> & _).
  apply truthy_hourString.
Qed.

Lemma qualifiesb_spec d table p time :
  qualifiesb d table p time = true ↔ qualifies d table p time.
Proof.
  unfold qualifiesb, qualifies. destruct (Map_get _ table) as [slot|].
  - rewrite eligible_spec. split; [intros H; by exists slot|by intros (? & [= <-] & ?)].
  - split; [done|by intros (? & ? & _)].
Qed.

(** What [allocateToken] does for a registered doctor: it places the new
    token at the preferred time if that slot qualifies, else at the first
    qualifying alternative, else it queues the token. *)
Lemma allocateToken_cases s p d t src doc :
  Map_get d (doctors s) = Some doc →
  let pr := (getSourceConfig src).2 in
  let tok := {| id := nextId s; patientId := p; doctorId := d; source := src;
                priority := pr |} in
  ∃ o s', allocateToken p d t src s = (Normal o, s')
    ∧ token o = Some tok ∧ error o = None
    ∧ if qualifiesb d (slots doc) pr t then
        success o = true
        ∧ ∃ s2, tryAllocateToSlot tok t (afterNew t s) = (Normal true, s2)
                ∧ s' = registerToken tok s2
      else
        match probeOffsets d (slots doc) (Js.parseInt (Js.beforeColon t)) pr timeRange with
        | Some alt =>
            success o = true
            ∧ ∃ s2, tryAllocateToSlot tok alt (setSlotTime tok alt (afterNew t s))
                    = (Normal true, s2)
                    ∧ s' = registerToken tok s2
        | None => success o = false ∧ s' = pushWaiting tok (afterNew t s)
        end.
Proof.
  intros Hd pr tok. unfold allocateToken, findAlternativeSlot. unfoldM. rewrite Hd. simpl.
  fold pr. fold tok.
  change {| doctors := doctors s; tokens := tokens s; waitingQueue := waitingQueue s;
            fields := <[nextId s:={| slotTime := t; status := ALLOCATED |}]> (fields s);
            nextId := S (nextId s) |} with (afterNew t s).
  destruct (tryAllocateToSlot_decides tok t (afterNew t s) doc Hd) as (b & s2 & Hrun & Hb).
  rewrite Hrun. simpl. rewrite <- qualifiesb_spec in Hb. change (priority tok) with pr in Hb.
  change (doctorId tok) with d in Hb.
  destruct b.
  - rewrite (proj1 Hb eq_refl). simpl. eexists _, _. split; [done|]. split_and!; try done.
    by exists s2.
  - destruct (qualifiesb d (slots doc) pr t); [by pose proof (proj2 Hb eq_refl)|].
    apply tryAllocateToSlot_false in Hrun as ->. simpl. rewrite Hd. simpl.
    destruct (probeOffsets d (slots doc) _ pr timeRange) as [alt|] eqn:Hprobe; simpl.
    + rewrite (truthy_probeOffsets _ _ _ _ _ _ Hprobe). simpl.
      pose proof (probeOffsets_spec d (slots doc) (Js.parseInt (Js.beforeColon t)) pr timeRange)
        as Hspec.
      rewrite Hprobe in Hspec. destruct Hspec as (? & ? & ? & _ & _ & Hq & _).
      destruct (tryAllocateToSlot_decides tok alt (setSlotTime tok alt (afterNew t s)) doc Hd)
        as (b & s2 & Hrun & Hb').
      rewrite Hrun. simpl. rewrite (proj2 Hb' Hq) in *. simpl.
      eexists _, _. split; [done|]. split_and!; try done. by exists s2.
    + eexists _, _. split; [done|]. by split_and!.
Qed.

(** A placement attempt touches neither the registry, nor the token fields,
    nor the identifier counter. *)
Lemma tryAllocateToSlot_frame t time s :
  tokens (tryAllocateToSlot t time s).2 = tokens s
  ∧ fields (tryAllocateToSlot t time s).2 = fields s
  ∧ nextId (tryAllocateToSlot t time s).2 = nextId s.
Proof.
  destruct (tryAllocateToSlot_completes t time s) as [([|] & s' & Hrun)|(e & Hrun & _)];
    rewrite Hrun; simpl; [| |done].
  - by destruct (tryAllocateToSlot_true _ _ _ _ Hrun) as (? & ? & ? & ? & _ & _ & _ & ->).
  - by apply tryAllocateToSlot_false in Hrun as ->.
Qed.



(** X3. [allocateToken] never throws, in any state: it returns an outcome,
    which carries no token exactly when the doctor is not registered, and a
    successful outcome carries a token that is registered under its
    identifier. *)
Theorem X3_allocateToken_never_throws (s : Engine) (p d t src : string) :
  ∃ o s', allocateToken p d t src s = (Normal o, s')
    ∧ (token o = None ↔ Map_get d (doctors s) = None)
    ∧ (success o = true → ∃ tok, token o = Some tok ∧ tokens s' !! id tok = Some tok).
Proof.
  destruct (Map_get d (doctors s)) as [doc|] eqn:Hd.
  - destruct (allocateToken_cases s p d t src doc Hd) as (o & s' & Hrun & Htok & _ & Hcase).
    exists o, s'. split; [done|]. split; [by rewrite Htok|].
    intros Hsucc. eexists. split; [done|]. simpl.
    destruct (qualifiesb _ _ _ _).
    + destruct Hcase as (_ & s2 & Hr & ->). simpl.
      pose proof (tryAllocateToSlot_frame
                    {| id := nextId s; patientId := p; doctorId := d; source := src;
                       priority := (getSourceConfig src).2 |} t (afterNew t s)) as (Ht & _).
      rewrite Hr in Ht. simpl in Ht. by rewrite lookup_insert_eq.
    + destruct (probeOffsets _ _ _ _ _) as [alt|].
      * destruct Hcase as (_ & s2 & Hr & ->). simpl. by rewrite lookup_insert_eq.
      * destruct Hcase as [Hfail _]. congruence.
  - eexists _, _. split; [unfold allocateToken; unfoldM; by rewrite Hd|]. simpl.
    split; [done|]. done.
Qed.

(** ** Statistics *)

Lemma stats_fold (l : list Slot) (a b c e : Z) :
  foldl (λ (counters : Z * Z * Z * Z) slot,
           let '(totalSlots, occupiedSlots, totalCapacity, allocatedTokens) := counters in
           let n := Z.of_nat (length (slotTokens slot)) in
           (totalSlots + 1,
            if 0 <? n then occupiedSlots + 1 else occupiedSlots,
            totalCapacity + maxCapacity slot,
            allocatedTokens + n)%Z) (a, b, c, e) l
  = ((a + Z.of_nat (length l))%Z, (b + occupiedOf l)%Z, (c + capacityOf l)%Z,
     (e + Z.of_nat (length (l ≫= slotTokens)))%Z).
Proof.
  revert a b c e. induction l as [|slot l IH]; intros a b c e;
    cbn -[Z.of_nat Z.add Z.ltb].
  - by rewrite !Z.add_0_r.
  - rewrite IH. rewrite length_app.
    fold (occupiedOf l). fold (capacityOf l).
    destruct (0 <? Z.of_nat (length (slotTokens slot)))%Z;
      (f_equal; [f_equal; [f_equal|]|]); lia.
Qed.

Lemma getSystemStats_counts s :
  getSystemStats s
  = {| totalDoctors := Z.of_nat (length (doctors s));
       totalSlots := Z.of_nat (length (allSlots s));
       occupiedSlots := occupiedOf (allSlots s);
       totalCapacity := capacityOf (allSlots s);
       allocatedTokens := Z.of_nat (length (occupants s));
       waitingQueueLength := Z.of_nat (length (waitingQueue s));
       utilizationRate :=
         Js.toFixed2 (Js.times100 (Js.div (Z.of_nat (length (occupants s)))
                                          (capacityOf (allSlots s)))) +:+ "%" |}.
Proof.
  unfold getSystemStats. rewrite stats_fold. simpl. done.
Qed.

Lemma slots_accounting (l : list Slot) :
  Forall slotOK l →
  capacityOf l = (10 * Z.of_nat (length l))%Z
  ∧ (0 ≤ occupiedOf l ≤ Z.of_nat (length l))%Z
  ∧ (occupiedOf l ≤ Z.of_nat (length (l ≫= slotTokens)) ≤ capacityOf l)%Z.
Proof.
  induction 1 as [|slot l (Hmax & Havail & Hpos) _ IH];
    cbn -[Z.of_nat Z.add Z.ltb Z.mul]; [lia|].
  fold (occupiedOf l). fold (capacityOf l).
  rewrite length_app. destruct IH as (Hcap & ? & ?).
  destruct (Z.ltb_spec 0 (Z.of_nat (length (slotTokens slot)))); lia.
Qed.

(** X4. In every reachable state the statistics are consistent: the counts
    are those of the slots, their occupants and the queue; the total
    capacity is ten times the number of slots; at most every slot is
    occupied; and the allocated tokens are at least the occupied slots and
    at most the total capacity. *)
Theorem X4_stats_consistent (s : Engine) :
  reachable s →
  let st := getSystemStats s in
  totalDoctors st = Z.of_nat (length (doctors s))
  ∧ totalSlots st = Z.of_nat (length (allSlots s))
  ∧ allocatedTokens st = Z.of_nat (length (occupants s))
  ∧ waitingQueueLength st = Z.of_nat (length (waitingQueue s))
  ∧ totalCapacity st = (10 * totalSlots st)%Z
  ∧ (0 ≤ occupiedSlots st ≤ totalSlots st)%Z
  ∧ (occupiedSlots st ≤ allocatedTokens st ≤ totalCapacity st)%Z.
Proof.
  intros (Hdocs & _ & _)%reachable_wellFormed st. subst st.
  rewrite getSystemStats_counts. simpl.
  assert (Hall : Forall slotOK (allSlots s)).
  { apply Forall_forall. intros slot. by apply doctorsOK_slot. }
  destruct (slots_accounting _ Hall) as (Hcap & Hocc & Halloc).
  fold (occupants s) in Halloc.
  split_and!; try done; try lia.
Qed.

Lemma X4_witness :
  let st := getSystemStats (execAll cascadeScenario newEngine) in
  totalCapacity st = (10 * totalSlots st)%Z
  ∧ (occupiedSlots st ≤ allocatedTokens st ≤ totalCapacity st)%Z.
Proof.
  intros st.
  destruct (X4_stats_consistent (execAll cascadeScenario newEngine))
    as (_ & _ & _ & _ & Hcap & _ & Hocc).
  - by exists cascadeScenario.
  - split; [exact Hcap|exact Hocc].
Defined.

(** ** Hours and their strings *)

Lemma string_app_cons c (s r : string) : String c s +:+ r = String c (s +:+ r).
Proof. reflexivity. Qed.

Lemma beforeColon_digits d rest :
  Js.beforeColon (NilEmpty.string_of_uint d +:+ rest)
  = NilEmpty.string_of_uint d +:+ Js.beforeColon rest.
Proof.
  induction d; simpl; [done|..]; rewrite !string_app_cons; simpl; congruence.
Qed.

Lemma string_app_empty (s : string) : s +:+ "" = s.
Proof. induction s; [done|]. rewrite string_app_cons. congruence. Qed.

Lemma digitsPrefix_digits d (a : Z) :
  (0 ≤ a)%Z →
  Js.digitsPrefix 10 (NilEmpty.string_of_uint d) (Some a)
  = Some (if (a =? 0)%Z then Z.of_N (Pos.of_uint d)
          else Z.pos (Pos.of_uint_acc d (Z.to_pos a))).
Proof.
  revert a.
  assert (Hstep : ∀ (k : Z) (a : Z) l v,
    (0 ≤ k ≤ 9)%Z → (0 ≤ a)%Z →
    (∀ a', (0 ≤ a')%Z →
       Js.digitsPrefix 10 (NilEmpty.string_of_uint l) (Some a')
       = Some (if (a' =? 0)%Z then Z.of_N (Pos.of_uint l)
               else Z.pos (Pos.of_uint_acc l (Z.to_pos a')))) →
    (a = 0 → k = 0 → v = Z.of_N (Pos.of_uint l))%Z →
    (a = 0 → 0 < k → v = Z.pos (Pos.of_uint_acc l (Z.to_pos k)))%Z →
    (0 < a → v = Z.pos (Pos.of_uint_acc l (Z.to_pos (a * 10 + k))))%Z →
    Js.digitsPrefix 10 (NilEmpty.string_of_uint l) (Some (a * 10 + k)%Z) = Some v).
  { intros k a l v Hk Ha IH H00 H0k Hpos. rewrite IH by lia. f_equal.
    destruct (Z.eqb_spec (a * 10 + k) 0) as [Hz|Hz].
    - symmetry. apply H00; lia.
    - destruct (Z.eq_dec a 0%Z) as [->|]; symmetry.
      + rewrite H0k by lia. done.
      + apply Hpos. lia. }
  assert (Hacc : ∀ (k : positive) (a : Z), (0 < a)%Z →
    (k + 10 * Z.to_pos a)%positive = Z.to_pos (a * 10 + Z.pos k)).
  { intros k a Ha. apply Pos2Z.inj. rewrite Z2Pos.id by lia.
    rewrite Pos2Z.inj_add, Pos2Z.inj_mul, Z2Pos.id by lia. lia. }
  induction d as [|l IH|l IH|l IH|l IH|l IH|l IH|l IH|l IH|l IH|l IH]; intros a Ha;
    [simpl; f_equal; destruct (Z.eqb_spec a 0) as [->|]; [done|];
     by rewrite Z2Pos.id by lia| ..];
    cbn [NilEmpty.string_of_uint Js.digitsPrefix];
    (lazymatch goal with
     | |- context [Js.digitValue ?c] =>
         let v := eval vm_compute in (Js.digitValue c) in
         change (Js.digitValue c) with v
     end);
    cbn [default Z.ltb Z.compare Pos.compare Pos.compare_cont];
    change (Datatypes.id a) with a;
    (apply Hstep; [lia|lia|exact IH|..]).
  all: try (intros -> ?; first [done | lia]).
  all: try (intros ? ?; first [done | lia]).
  all: try (intros Hp; destruct (Z.eqb_spec a 0); [lia|]).
  all: try (simpl Pos.of_uint_acc; rewrite <- ?Hacc by lia; try done).
  do 2 f_equal. apply Pos2Z.inj. rewrite Pos2Z.inj_mul, !Z2Pos.id by lia. lia.
Qed.

Lemma trimStart_ascii c r :
  Js.isWhiteSpace c = false → nat_of_ascii c < 128 →
  Js.trimStart (String c r) = String c r.
Proof.
  intros Hc Hlt. cbn [Js.trimStart]. rewrite Hc.
  assert (H2 : ∀ c2, Js.isWhiteSpace2 c c2 = false).
  { intros c2. unfold Js.isWhiteSpace2.
    destruct (Nat.eqb_spec (nat_of_ascii c) 194); [lia|done]. }
  assert (H3 : ∀ c2 c3, Js.isWhiteSpace3 c c2 c3 = false).
  { intros c2 c3. unfold Js.isWhiteSpace3. cbv zeta.
    destruct (Nat.eqb_spec (nat_of_ascii c) 225); [lia|].
    destruct (Nat.eqb_spec (nat_of_ascii c) 226); [lia|].
    destruct (Nat.eqb_spec (nat_of_ascii c) 227); [lia|].
    destruct (Nat.eqb_spec (nat_of_ascii c) 239); [lia|]. done. }
  destruct r as [|c2 [|c3 r3]]; [done|by rewrite H2|by rewrite H2, H3].
Qed.

Lemma parseInt_hourString (z : Z) :
  Js.parseInt (Js.beforeColon (Js.hourString (Some z))) = Some z.
Proof.
  unfold Js.hourString, Js.toString.
  destruct z as [|p|p]; [vm_compute; reflexivity|..]; simpl Z.to_int;
    pose proof (DecimalPos.Unsigned.of_to p) as Hof;
    pose proof (DecimalPos.Unsigned.to_uint_nonnil p) as Hnil;
    destruct (Pos.to_uint p) as [|d|d|d|d|d|d|d|d|d|d]; try done; clear Hnil.
  all: (destruct d as [|d|d|d|d|d|d|d|d|d|d];
        [simpl in Hof; first [discriminate Hof | injection Hof as <-];
         vm_compute; reflexivity|..]).
  all: unfold NilZero.string_of_int, NilZero.string_of_uint;
    cbn [NilEmpty.string_of_uint Js.padStart2]; rewrite !string_app_cons.
  all: cbn [Js.beforeColon Ascii.eqb Bool.eqb]; rewrite beforeColon_digits.
  all: cbn [Js.beforeColon Ascii.eqb Bool.eqb]; rewrite string_app_empty.
  all: unfold Js.parseInt; rewrite trimStart_ascii by first [reflexivity | (vm_compute; lia)]; simpl.
  all: lazymatch goal with
       | |- context [Js.digitsPrefix _ _ (Some ?a)] =>
           let v := eval vm_compute in a in change a with v
       end.
  all: rewrite digitsPrefix_digits by lia; simpl in Hof |- *.
  all: first [by rewrite Hof | by injection Hof as <-].
Qed.

Lemma hourString_inj (a b : Z) :
  Js.hourString (Some a) = Js.hourString (Some b) → a = b.
Proof.
  intros Heq.
  pose proof (parseInt_hourString a) as Ha. rewrite Heq, parseInt_hourString in Ha.
  congruence.
Qed.

Lemma slotKeyOf_inj (i t t' : string) : slotKeyOf i t = slotKeyOf i t' → t = t'.
Proof.
  unfold slotKeyOf. induction i as [|c i IH].
  - intros Heq. change (String "-" t = String "-" t') in Heq. congruence.
  - rewrite !string_app_cons. intros [= Heq]. by apply IH.
Qed.

Lemma Map_set_new {V} (k : string) (v : V) (m : list (string * V)) :
  k ∉ m.*1 → Map_set k v m = m ++ [(k, v)].
Proof.
  induction m as [|[k0 v0] r IH]; simpl; [done|].
  intros Hk. apply not_elem_of_cons in Hk as [Hne Hk].
  rewrite decide_False by done. by rewrite IH.
Qed.

Lemma Map_get_fmap_key {V} (key : Z → string) (val : Z → V) (hs : list Z) (h : Z) :
  (∀ a b, key a = key b → a = b) →
  Map_get (key h) ((λ x, (key x, val x)) <$> hs)
  = if decide (h ∈ hs) then Some (val h) else None.
Proof.
  intros Hinj. induction hs as [|x hs IH].
  - destruct (decide (h ∈ [])) as [Hin|_]; [by apply elem_of_nil in Hin|done].
  - cbn [fmap list_fmap Map_get].
    destruct (decide (key h = key x)) as [Heq|Hne].
    + apply Hinj in Heq as ->. rewrite decide_True; [done|]. apply elem_of_cons. by left.
    + fold (fmap (M := list) (λ x, (key x, val x)) hs). rewrite IH.
      destruct (decide (h ∈ hs)) as [Hin|Hout].
      * rewrite decide_True; [done|]. apply elem_of_cons. by right.
      * rewrite decide_False; [done|].
        intros [->|?]%elem_of_cons; done.
Qed.

Lemma foldl_Map_set_new {V} (key : Z → string) (val : Z → V) (hs : list Z)
    (acc : list (string * V)) :
  (∀ a b, key a = key b → a = b) →
  NoDup hs → (∀ h, h ∈ hs → key h ∉ acc.*1) →
  foldl (λ table h, Map_set (key h) (val h) table) acc hs
  = acc ++ ((λ h, (key h, val h)) <$> hs).
Proof.
  intros Hinj. revert acc. induction hs as [|h hs IH]; intros acc Hnd Hfresh; simpl.
  - by rewrite app_nil_r.
  - apply NoDup_cons in Hnd as [Hh Hnd].
    rewrite Map_set_new by (apply Hfresh; (apply elem_of_cons; by left)).
    rewrite IH; [by rewrite <- app_assoc|done|].
    intros x Hx. rewrite fmap_app. simpl. intros [Hin|Hin]%elem_of_app.
    + revert Hin. apply Hfresh. apply elem_of_cons; by right.
    + apply list_elem_of_singleton in Hin. apply Hinj in Hin. by subst.
Qed.

(** X5. The slot table of a new doctor holds exactly one empty slot of
    capacity 10 for every hour from the start hour up to, not including,
    the end hour, in ascending order; it is empty when an hour does not
    parse.  Looking up the key of an hour finds its slot exactly when the
    hour lies in that range.  The working hours are plain times, so that
    the loop counts here as it does in JavaScript. *)
Theorem X5_initializeDoctorSlots_table (i n sp a b : string) :
  plainTime a = true → plainTime b = true →
  let table := initializeDoctorSlots (newDoctor i n sp a b) in
  let range :=
    match Js.parseInt (Js.beforeColon a), Js.parseInt (Js.beforeColon b) with
    | Some x, Some y => seqZ x (y - x)
    | _, _ => []
    end in
  table = hourEntry i <$> range
  ∧ ∀ h, Map_get (slotKeyOf i (Js.hourString (Some h))) table
         = if decide (h ∈ range)
           then Some {| slotDoctorId := i;
                        startTime := Js.hourString (Some h);
                        endTime := Js.hourString (Some (h + 1)%Z);
                        maxCapacity := 10; slotTokens := []; availableCapacity := 10 |}
           else None.
Proof.
  intros _ _ table range.
  assert (Hinj : ∀ x y, slotKeyOf i (Js.hourString (Some x))
                        = slotKeyOf i (Js.hourString (Some y)) → x = y).
  { intros x y Heq. by apply hourString_inj, (slotKeyOf_inj i). }
  assert (Htable : table = hourEntry i <$> range).
  { unfold table, initializeDoctorSlots. simpl. fold range.
    rewrite (foldl_Map_set_new (λ h, slotKeyOf i (Js.hourString (Some h)))
               (λ h, newSlot i (Js.hourString (Some h)) (Js.hourString (Some (h + 1)%Z))));
      [done|done| |by intros ? _ ?%elem_of_nil].
    subst range.
    destruct (Js.parseInt (Js.beforeColon a)), (Js.parseInt (Js.beforeColon b));
      first [apply NoDup_seqZ | apply NoDup_nil_2]. }
  split; [done|]. intros h. rewrite Htable. unfold hourEntry.
  by rewrite (Map_get_fmap_key (λ h, slotKeyOf i (Js.hourString (Some h)))
               (λ h, newSlot i (Js.hourString (Some h)) (Js.hourString (Some (h + 1)%Z)))).
Qed.

Lemma X5_witness :
  initializeDoctorSlots (newDoctor "D1" "Dr" "Gen" "09:00" "11:00")
  = [hourEntry "D1" 9; hourEntry "D1" 10].
Proof.
  destruct (X5_initializeDoctorSlots_table "D1" "Dr" "Gen" "09:00" "11:00")
    as [Htable _]; [vm_compute; reflexivity..|].
  rewrite Htable. vm_compute. reflexivity.
Defined.

(** X6. Formatting an hour and reading it back gives the hour: the times
    the engine produces for its slots parse to the hours they stand for,
    distinct hours have distinct strings, and the candidate time for an
    offset from such a time is the string of the shifted hour.  The bounds
    keep the hours among the integers JavaScript's numbers represent
    exactly; the embedding, on mathematical integers, does not need them. *)
Theorem X6_hour_round_trip (h offset : Z) :
  (Z.abs h ≤ 10 ^ 15)%Z → (Z.abs offset ≤ 10 ^ 15)%Z →
  Js.parseInt (Js.beforeColon (Js.hourString (Some h))) = Some h
  ∧ candidateTime (Js.hourString (Some h)) offset = Js.hourString (Some (h + offset)%Z)
  ∧ ∀ h', Js.hourString (Some h) = Js.hourString (Some h') → h = h'.
Proof.
  intros _ _. split; [apply parseInt_hourString|]. split.
  - unfold candidateTime. by rewrite parseInt_hourString.
  - intros h'. apply hourString_inj.
Qed.

Lemma X6_witness :
  Js.parseInt (Js.beforeColon (Js.hourString (Some 9%Z))) = Some 9%Z
  ∧ candidateTime (Js.hourString (Some 9%Z)) (-2) = Js.hourString (Some 7%Z).
Proof.
  destruct (X6_hour_round_trip 9 (-2)) as (Hparse & Hcand & _); [lia|lia|].
  split; [exact Hparse|exact Hcand].
Defined.

(** ** Slots *)

Lemma findIndex_last l t :
  id t ∉ id <$> l → findIndex (id t) (l ++ [t]) = Some (length l).
Proof.
  induction l as [|x r IH]; simpl.
  - intros _. by rewrite Nat.eqb_refl.
  - intros [Hne Hr]%not_elem_of_cons.
    destruct (Nat.eqb_spec (id x) (id t)) as [He|_]; [done|].
    by rewrite IH.
Qed.

Lemma findIndex_absent l k : k ∉ id <$> l → findIndex k l = None.
Proof.
  intros Hk. destruct (findIndex k l) as [i|] eqn:Hi; [|done].
  apply findIndex_Some in Hi as (t & Ht & <-). exfalso. apply Hk.
  apply list_elem_of_fmap. exists t. split; [done|]. by eapply list_elem_of_lookup_2.
Qed.

(** X7. Adding a token to a slot with spare capacity and removing it again
    restores the slot, when no occupant has the token's identifier; before
    the token is added, removing it is refused and changes nothing. *)
Theorem X7_slot_add_remove (t : Token) (slot : Slot) :
  (0 < availableCapacity slot)%Z →
  id t ∉ id <$> slotTokens slot →
  (addToken t slot).1 = true
  ∧ slotTokens (addToken t slot).2 = slotTokens slot ++ [t]
  ∧ removeToken (id t) (addToken t slot).2 = (true, slot)
  ∧ removeToken (id t) slot = (false, slot).
Proof.
  intros Hcap Hfresh. unfold addToken.
  destruct (Z.ltb_spec 0 (availableCapacity slot)) as [_|?]; [|lia]. simpl.
  split; [done|]. split; [done|]. split.
  - unfold removeToken. simpl. rewrite findIndex_last by done. f_equal.
    destruct slot as [d st en mx toks av]. simpl. f_equal.
    + clear. induction toks as [|x r IH]; simpl; [done|]. by rewrite IH.
    + lia.
  - unfold removeToken. by rewrite findIndex_absent.
Qed.

Lemma X7_witness :
  removeToken 7 (addToken (demoToken 7 4) (demoSlot [demoToken 1 2])).2
  = (true, demoSlot [demoToken 1 2]).
Proof.
  destruct (X7_slot_add_remove (demoToken 7 4) (demoSlot [demoToken 1 2]))
    as (_ & _ & Hround & _).
  - vm_compute. reflexivity.
  - vm_compute. intros [Heq|Hin]%elem_of_cons; [discriminate Heq|].
    by apply elem_of_nil in Hin.
  - exact Hround.
Defined.

(** ** The search of the replay *)

Lemma firstEligible_first table p time :
  firstEligible table p = Some time →
  ∃ before key slot after,
    table = before ++ (key, slot) :: after
    ∧ Forall (λ e, eligible e.2 p = false) before
    ∧ eligible slot p = true ∧ time = startTime slot.
Proof.
  induction table as [|[key slot] rest IH]; simpl; [done|].
  destruct (eligible slot p) eqn:Hel.
  - intros [= <-]. by exists [], key, slot, rest.
  - intros (before & key' & slot' & after & -> & Hall & Hel' & ->)%IH.
    exists ((key, slot) :: before), key', slot', after.
    split; [done|]. split; [|done]. by apply Forall_cons.
Qed.

(** X8. [findAnyAvailableSlot] returns the start time of the first slot, in
    the order the slots were created, that has spare capacity or an occupant
    of lower priority, and [null] when the doctor has no such slot; for a
    doctor that is not registered it throws. *)
Theorem X8_findAnyAvailableSlot_first (d : string) (p : nat) (s : Engine) :
  match Map_get d (doctors s) with
  | None => findAnyAvailableSlot d p s = (Throw TypeError_slots, s)
  | Some doc =>
      ∃ r, findAnyAvailableSlot d p s = (Normal r, s)
        ∧ match r with
          | Some time =>
              ∃ before key slot after,
                slots doc = before ++ (key, slot) :: after
                ∧ Forall (λ e, (availableCapacity e.2 ≤ 0)%Z
                               ∧ Forall (λ t, p ≤ priority t) (slotTokens e.2)) before
                ∧ ((0 < availableCapacity slot)%Z
                   ∨ ∃ t, t ∈ slotTokens slot ∧ priority t < p)
                ∧ time = startTime slot
          | None =>
              Forall (λ e, (availableCapacity e.2 ≤ 0)%Z
                           ∧ Forall (λ t, p ≤ priority t) (slotTokens e.2)) (slots doc)
          end
  end.
Proof.
  unfold findAnyAvailableSlot. unfoldM.
  destruct (Map_get d (doctors s)) as [doc|] eqn:Hd; simpl; [|done].
  eexists. split; [done|].
  destruct (firstEligible (slots doc) p) as [time|] eqn:Hfirst.
  - apply firstEligible_first in Hfirst
      as (before & key & slot & after & Htable & Hbefore & Hel & ->).
    exists before, key, slot, after. split; [done|]. split; [|split; [|done]].
    + eapply Forall_impl; [exact Hbefore|]. intros e He. by apply eligible_false.
    + by apply eligible_spec.
  - apply firstEligible_None in Hfirst.
    eapply Forall_impl; [exact Hfirst|]. intros e He. by apply eligible_false.
Qed.

(** ** Who keeps a seat *)

Lemma seated_ext s s' k key x :
  doctors s' = doctors s → seated s k key x → seated s' k key x.
Proof. unfold seated. by intros ->. Qed.

(** A successful placement of [t] keeps every occupant whose priority is
    not below that of [t] in its slot. *)
Lemma tryAllocateToSlot_seated t time s s' pool k key x :
  doctorsOK s → poolOK pool s →
  tryAllocateToSlot t time s = (Normal true, s') →
  priority t ≤ priority x →
  seated s k key x → seated s' k key x.
Proof.
  intros Hdocs Hpool Hrun Hprio (d & slot & Hd & Hs & Hx).
  apply tryAllocateToSlot_true in Hrun as (d0 & slot0 & slot0' & ev & Hd0 & Hs0 & Hplaced & ->).
  unfold seated, putSlot. simpl. rewrite Map_get_set.
  destruct (decide (k = doctorId t)) as [->|Hk]; [|by exists d, slot].
  assert (d0 = d) as -> by congruence.
  destruct (decide (key = slotKeyOf (doctorId t) time)) as [->|Hkey].
  2: { eexists _, slot. split; [done|]. simpl. rewrite Map_get_set.
       by rewrite decide_False. }
  assert (slot0 = slot) as -> by congruence.
  eexists _, slot0'. split; [done|]. simpl. rewrite Map_get_set.
  rewrite decide_True by done. split; [done|].
  destruct (doctorsOK_lookup _ _ _ _ _ Hdocs Hd Hs) as [(_ & _ & Hok) _].
  assert (Hnd : NoDup (id <$> slotTokens slot)).
  { eapply poolOK_slot_NoDup; [exact Hpool|]. by eapply Map_get_allSlots. }
  destruct (placed_facts _ _ _ _ Hok Hnd Hplaced) as (_ & _ & Hperm & Hev & _).
  assert (Hin : x ∈ slotTokens slot0' ++ ev).
  { rewrite Hperm. apply elem_of_cons. by right. }
  apply elem_of_app in Hin as [Hin|Hin]; [done|].
  rewrite Forall_forall in Hev. apply Hev in Hin. lia.
Qed.

Lemma getStatus_setSlotTime token time x s st :
  getStatus x s = Some st → getStatus x (setSlotTime token time s) = Some st.
Proof.
  unfold getStatus, setSlotTime. simpl. intros Hx.
  destruct (decide (id x = id token)) as [Heq|Hne].
  - rewrite Heq in *. rewrite lookup_insert_eq. simpl.
    unfold getStatus. by rewrite Hx.
  - by rewrite lookup_insert_ne.
Qed.

(** One step of the replay, in full: what it does to the queue, to the
    occupants, to the status of the tokens and to the seats. *)
Lemma replayBody_step token r w s pool :
  doctorsOK s → poolOK (token :: pool) s →
  ∃ r' w' s' ev,
    replayBody token r w s = (Normal (r', w'), s')
    ∧ waitingQueue s' = waitingQueue s ++ ev
    ∧ doctorsOK s' ∧ tokens s' = tokens s ∧ nextId s' = nextId s
    ∧ (∀ x, blockedAt s x → blockedAt s' x)
    ∧ Forall (λ v, priority v < priority token) ev
    ∧ (∀ x st, getStatus x s = Some st → getStatus x s' = Some st)
    ∧ (∀ k key x, priority token ≤ priority x → seated s k key x → seated s' k key x)
    ∧ ((r' = r ++ [token] ∧ w' = w ∧ poolOK (ev ++ pool) s'
        ∧ occupants s' ++ ev ≡ₚ token :: occupants s)
       ∨ (r' = r ∧ w' = w ++ [token] ∧ ev = [] ∧ blockedAt s' token
          ∧ poolOK (token :: pool) s' ∧ occupants s' = occupants s)).
Proof.
  intros Hdocs Hpool.
  assert (Hdoc : is_Some (Map_get (doctorId token) (doctors s))).
  { destruct Hpool as [_ Hall]. apply Forall_app in Hall as [_ Hall].
    by apply Forall_cons in Hall as [[_ ?] _]. }
  destruct Hdoc as [d Hd].
  unfold replayBody, findAnyAvailableSlot. unfoldM. rewrite Hd. simpl.
  destruct (firstEligible (slots d) (priority token)) as [time|] eqn:Hfirst; simpl.
  - destruct (firstEligible_Some _ _ _ Hfirst) as (key & slot & Hin & Hel & ->).
    assert (Htable : tableOK (doctorId token, d)).
    { unfold doctorsOK in Hdocs. rewrite Forall_forall in Hdocs.
      apply Hdocs. by apply Map_get_elem_of. }
    destruct Htable as [Hkeys Hentries]. simpl in *.
    rewrite Forall_forall in Hentries.
    destruct (Hentries _ Hin) as (Hkey & Htruthy & _). simpl in *. subst key.
    rewrite Htruthy. simpl.
    pose proof (NoDup_keys_Map_get _ _ _ Hkeys Hin) as Hs.
    set (s1 := setSlotTime token (startTime slot) s).
    destruct (tryAllocateToSlot_eligible token (startTime slot) s1 d slot Hd Hs Hel)
      as [s' Hrun].
    rewrite Hrun. simpl.
    assert (Hdocs1 : doctorsOK s1) by by apply (doctorsOK_ext s).
    assert (Hpool1 : poolOK (token :: pool) s1) by by apply (poolOK_ext _ s).
    destruct (tryAllocateToSlot_invariant token (startTime slot) s1 s' pool)
      as (ev & Hq & Hdocs' & Hpool' & Htok & Hfields & Hnext & Hmono & Hperm & Hev);
      [done|done|done|].
    exists (r ++ [token]), w, s', ev. split_and!; try done.
    + intros x st Hx. unfold getStatus. rewrite Hfields.
      by apply (getStatus_setSlotTime token (startTime slot)) in Hx.
    + intros k key x Hprio Hseat.
      eapply tryAllocateToSlot_seated; [exact Hdocs1|exact Hpool1|exact Hrun|done|].
      by apply (seated_ext s).
    + left. by split_and!.
  - exists r, (w ++ [token]), s, []. rewrite app_nil_r. split_and!; try done.
    right. split_and!; try done.
    exists d. split; [done|]. by apply firstEligible_None.
Qed.

Lemma perm_shuffle {A} (o' o w d ev : list A) t :
  o' ++ ev ≡ₚ t :: o → o' ++ w ++ d ++ ev ≡ₚ o ++ w ++ t :: d.
Proof.
  intros H. trans ((o' ++ ev) ++ w ++ d).
  - solve_Permutation.
  - rewrite H. solve_Permutation.
Qed.

(** A replay from a consistent state, in full: it returns normally in a
    consistent state, leaves in the queue only tokens no slot is eligible
    for, neither loses nor duplicates a token, changes no status, and moves
    no occupant whose priority is not below that of every queued token. *)
Lemma processWaitingQueue_summary s :
  doctorsOK s → poolOK (waitingQueue s) s →
  ∃ r s', processWaitingQueue s = (Normal r, s')
    ∧ doctorsOK s' ∧ poolOK (waitingQueue s') s'
    ∧ tokens s' = tokens s ∧ nextId s' = nextId s
    ∧ Forall (blockedAt s') (waitingQueue s')
    ∧ occupants s' ++ waitingQueue s' ≡ₚ occupants s ++ waitingQueue s
    ∧ (∀ x st, getStatus x s = Some st → getStatus x s' = Some st)
    ∧ (∀ k key x, Forall (λ q, priority q ≤ priority x) (waitingQueue s) →
         seated s k key x → seated s' k key x).
Proof.
  intros Hdocs Hpool.
  pose (I := λ (i : nat) (r w : list Token) (st : Engine),
          doctorsOK st ∧ poolOK (drop i (waitingQueue st) ++ w) st
          ∧ Forall (blockedAt st) w ∧ tokens st = tokens s ∧ nextId st = nextId s
          ∧ occupants st ++ w ++ drop i (waitingQueue st) ≡ₚ occupants s ++ waitingQueue s
          ∧ (∀ x c, getStatus x s = Some c → getStatus x st = Some c)
          ∧ (∀ x, Forall (λ q, priority q ≤ priority x) (waitingQueue s) →
               Forall (λ q, priority q ≤ priority x) (drop i (waitingQueue st))
               ∧ ∀ k key, seated s k key x → seated st k key x)).
  pose (Q := λ (c : completion (list Token * list Token)) (st : Engine),
          match c with
          | Normal (r, w) =>
              doctorsOK st ∧ poolOK w st ∧ Forall (blockedAt st) w
              ∧ tokens st = tokens s ∧ nextId st = nextId s
              ∧ occupants st ++ w ≡ₚ occupants s ++ waitingQueue s
              ∧ (∀ x c, getStatus x s = Some c → getStatus x st = Some c)
              ∧ (∀ k key x, Forall (λ q, priority q ≤ priority x) (waitingQueue s) →
                   seated s k key x → seated st k key x)
          | Throw _ => False
          | OutOfFuel => True
          end).
  set (fuel := S (replayWeight (waitingQueue s))).
  assert (HQ : Q (replayLoop fuel 0 [] [] s).1 (replayLoop fuel 0 [] [] s).2).
  { apply (replayLoop_rule I Q).
    - intros i r w st (Hd & Hp & Hb & Ht & Hn & Hperm & Hst & Hseat) Hi. unfold Q.
      apply lookup_ge_None in Hi. rewrite drop_ge in Hp, Hperm by done.
      rewrite app_nil_r in Hperm. split_and!; try done.
      intros k key x Hall. by apply Hseat.
    - intros i r w st token (Hd & Hp & Hb & Ht & Hn & Hperm & Hst & Hseat) Hi.
      rewrite (drop_S _ _ _ Hi) in Hp, Hperm. simpl in Hp.
      destruct (replayBody_step token r w st _ Hd Hp)
        as (r' & w' & st' & ev & Hbody & Hq & Hd' & Ht' & Hn' & Hmono & Hev & Hst'
            & Hseat' & Hcase).
      rewrite Hbody.
      assert (Hdrop : drop (S i) (waitingQueue st') = drop (S i) (waitingQueue st) ++ ev).
      { rewrite Hq. apply drop_app_le. apply lookup_lt_Some in Hi. lia. }
      assert (Hbound : ∀ x, Forall (λ q, priority q ≤ priority x) (waitingQueue s) →
                Forall (λ q, priority q ≤ priority x) (drop (S i) (waitingQueue st'))
                ∧ ∀ k key, seated s k key x → seated st' k key x).
      { intros x Hall. destruct (Hseat x Hall) as [Hle Hkeep].
        rewrite (drop_S _ _ _ Hi) in Hle. apply Forall_cons in Hle as [Htoken Hle].
        split.
        - rewrite Hdrop. apply Forall_app. split; [done|].
          eapply Forall_impl; [exact Hev|]. simpl. intros v Hv. lia.
        - intros k key Hs. apply Hseat'; [done|]. by apply Hkeep. }
      unfold I. rewrite Hdrop in Hbound |- *.
      destruct Hcase as [(-> & -> & Hp' & Hocc)|(-> & -> & -> & Hblocked & Hp' & Hocc)].
      + split_and!; try congruence; try exact Hbound.
        * eapply poolOK_perm; [|exact Hp'].
          by rewrite (Permutation_app_comm _ ev), app_assoc.
        * eapply Forall_impl; [exact Hb|done].
        * rewrite <- Hperm. by apply perm_shuffle.
        * intros x c Hx. by apply Hst', Hst.
      + split_and!; try congruence; try exact Hbound.
        * eapply poolOK_perm; [|exact Hp'].
          rewrite app_nil_r, app_assoc. apply Permutation_cons_append.
        * apply Forall_app. split; [by eapply Forall_impl|by apply Forall_singleton].
        * rewrite <- Hperm, Hocc, app_nil_r. apply Permutation_app_head.
          rewrite <- app_assoc. apply Permutation_app_head. simpl. done.
        * intros x c Hx. by apply Hst', Hst.
    - by intros.
    - unfold I. rewrite drop_0, app_nil_r. by split_and!. }
  pose proof (replayLoop_fuel fuel 0 [] [] s) as Hfuel.
  unfold processWaitingQueue. unfoldM. fold fuel.
  destruct (replayLoop fuel 0 [] [] s) as [[[r w]|e|] s1]; simpl in *.
  - exists r. eexists. split; [done|]. simpl.
    destruct HQ as (Hd & Hp & Hb & Ht & Hn & Hperm & Hst & Hseat). by split_and!.
  - done.
  - exfalso. apply Hfuel; [|done]. rewrite drop_0. unfold fuel. lia.
Qed.

(** ** The replay pass, step by step *)

Lemma replayLog_S fuel i r w s :
  replayLog (S fuel) i r w s
  = match waitingQueue s !! i with
    | None => []
    | Some token =>
        match replayBody token r w s with
        | (Normal (r', w'), s') =>
            {| visitToken := token;
               visitPlaced := length r <? length r';
               visitEvicted := drop (length (waitingQueue s)) (waitingQueue s') |}
            :: replayLog fuel (S i) r' w' s'
        | _ => []
        end
    end.
Proof. done. Qed.

#[global] Arguments replayLog : simpl never.

(** The record of the steps and the result of the loop, for any state from
    which the loop returns: the array only grows, by what the steps append;
    the steps visit the array from [i] on, element by element, each as the
    array stands when its turn comes; and each visited element goes to
    [reallocated] or to [stillWaiting]. *)
Lemma replayLog_spec fuel i r w s :
  match replayLoop fuel i r w s with
  | (Normal (r', w'), s') =>
      let log := replayLog fuel i r w s in
      waitingQueue s' = waitingQueue s ++ evictions log
      ∧ visitToken <$> log = drop i (waitingQueue s')
      ∧ r' = r ++ placements log
      ∧ w' = w ++ refusals log
      ∧ Forall (λ e, length (visitEvicted e) ≤ 1
                     ∧ Forall (λ v, priority v < priority (visitToken e)) (visitEvicted e)
                     ∧ (visitPlaced e = false → visitEvicted e = [])) log
      ∧ ∀ j e, log !! j = Some e →
          (waitingQueue s ++ evictions (take j log)) !! (i + j) = Some (visitToken e)
  | _ => True
  end.
Proof.
  revert i r w s. induction fuel as [|fuel IH]; intros i r w s.
  - by rewrite replayLoop_0.
  - rewrite replayLoop_S, replayLog_S.
    destruct (waitingQueue s !! i) as [token|] eqn:Hi.
    + destruct (replayBody_queue token r w s) as (ev & Hq & Hlow & Hlen & Hres).
      unfold bind.
      destruct (replayBody token r w s) as [[[r1 w1]|e|] s1] eqn:Hbody; simpl in *;
        [|done..].
      specialize (IH (S i) r1 w1 s1).
      destruct (replayLoop fuel (S i) r1 w1 s1) as [[[r' w']|e|] s'] eqn:Hloop; [|done..].
      destruct IH as (Hq' & Hvis & Hr & Hw & Hall & Hlive).
      set (rest := replayLog fuel (S i) r1 w1 s1) in *.
      assert (Hev : drop (length (waitingQueue s)) (waitingQueue s1) = ev).
      { by rewrite Hq, drop_app_length. }
      rewrite Hev. unfold evictions, placements, refusals in *.
      assert (Hi' : waitingQueue s' !! i = Some token).
      { rewrite Hq', Hq, <- app_assoc. by apply lookup_app_l_Some. }
      assert (Hflag : (length r <? length r1) = true ∧ r1 = r ++ [token] ∧ w1 = w
                      ∨ (length r <? length r1) = false ∧ r1 = r ∧ w1 = w ++ [token]
                        ∧ ev = []).
      { destruct Hres as [[-> ->]|(-> & -> & ->)]; [left|right].
        - rewrite length_app. simpl. split; [|done]. apply Nat.ltb_lt. lia.
        - by rewrite Nat.ltb_irrefl. }
      clear Hres. cbv zeta. split_and!.
      * by rewrite Hq', Hq, <- app_assoc.
      * change (token :: (visitToken <$> rest) = drop i (waitingQueue s')).
        rewrite Hvis. symmetry. by apply drop_S.
      * rewrite Hr. destruct Hflag as [(Hf & -> & ->)|(Hf & -> & -> & ->)].
        -- rewrite filter_cons_True by done. rewrite fmap_cons. cbn [visitToken].
           by rewrite <- app_assoc.
        -- rewrite filter_cons_False; [done|]. cbn [visitPlaced]. by rewrite Hf.
      * rewrite Hw. destruct Hflag as [(Hf & -> & ->)|(Hf & -> & -> & ->)].
        -- rewrite filter_cons_False; [done|]. cbn [visitPlaced]. by rewrite Hf.
        -- rewrite filter_cons_True by done. rewrite fmap_cons. cbn [visitToken].
           by rewrite <- app_assoc.
      * apply Forall_cons. split; [|done]. cbn [visitToken visitPlaced visitEvicted].
        split_and!; try done.
        destruct Hflag as [(Hf & _)|(_ & _ & _ & ->)]; [by rewrite Hf|done].
      * intros [|j] e He.
        -- injection He as <-. cbn [take visitToken].
           change (([] : list Visit) ≫= visitEvicted) with ([] : list Token).
           by rewrite app_nil_r, Nat.add_0_r.
        -- specialize (Hlive j e He). rewrite Hq, <- app_assoc in Hlive.
           cbn [take]. rewrite bind_cons. cbn [visitEvicted].
           by replace (i + S j) with (S i + j) by lia.
    + cbv zeta. unfold evictions, placements, refusals.
      change (([] : list Visit) ≫= visitEvicted) with ([] : list Token).
      rewrite !filter_nil, !fmap_nil, !app_nil_r.
      split_and!; try done.
      symmetry. apply drop_ge. by apply lookup_ge_None.
Qed.

(** The steps of a call of [processWaitingQueue] that returns, and its
    results. *)
Lemma processWaitingQueue_log s r s' :
  processWaitingQueue s = (Normal r, s') →
  let log := replayVisits s in
  replayArray s = waitingQueue s ++ evictions log
  ∧ visitToken <$> log = replayArray s
  ∧ r = placements log
  ∧ waitingQueue s' = refusals log
  ∧ Forall (λ e, length (visitEvicted e) ≤ 1
                 ∧ Forall (λ v, priority v < priority (visitToken e)) (visitEvicted e)
                 ∧ (visitPlaced e = false → visitEvicted e = [])) log
  ∧ ∀ j e, log !! j = Some e →
      (waitingQueue s ++ evictions (take j log)) !! j = Some (visitToken e).
Proof.
  pose proof (replayLog_spec (S (replayWeight (waitingQueue s))) 0 [] [] s) as Hspec.
  unfold processWaitingQueue, replayArray, replayVisits. unfoldM.
  destruct (replayLoop _ 0 [] [] s) as [[[r1 w1]|e|] s1]; simpl; [|done..].
  destruct Hspec as (Hq & Hvis & Hr & Hw & Hall & Hlive).
  intros [= <- <-]. simpl. rewrite drop_0 in Hvis. by split_and!.
Qed.

(** In a live pass, a token a step appends to the array is visited by a
    later step. *)
Lemma evicted_visited_later (log : list Visit) (queue : list Token) :
  visitToken <$> log = queue ++ evictions log →
  (∀ j e, log !! j = Some e →
     (queue ++ evictions (take j log)) !! j = Some (visitToken e)) →
  ∀ j e v, log !! j = Some e → v ∈ visitEvicted e →
    ∃ j', j < j' ∧ (visitToken <$> log) !! j' = Some v.
Proof.
  intros Hvis Hlive j e v He Hv.
  apply list_elem_of_lookup_1 in Hv as [k Hk].
  pose proof (Hlive j e He) as Hj. apply lookup_lt_Some in Hj.
  exists (length (queue ++ evictions (take j log)) + k). split; [lia|].
  assert (Hlog : evictions log
                 = evictions (take j log) ++ visitEvicted e ++ evictions (drop (S j) log)).
  { rewrite <- (take_drop_middle log j e He) at 1. unfold evictions.
    by rewrite bind_app, bind_cons. }
  rewrite Hvis, Hlog, app_assoc. rewrite lookup_app_r by lia.
  replace (length (queue ++ evictions (take j log)) + k
           - length (queue ++ evictions (take j log))) with k by lia.
  by apply lookup_app_l_Some.
Qed.


(** In [orderScenario] the replay places token X into the free unit at
    12:00; token Y then evicts X from there, X is appended to the array and
    visited again after Z; neither Z nor X can be placed.  X, which was
    placed and preempted, ends at the tail, behind Z, which never was. *)
Example orderScenario_replay :
  let s := execAll orderScenario newEngine in
  waitingQueue s = [tokenX; tokenY; tokenZ]
  ∧ (processWaitingQueue s).1 = Normal [tokenX; tokenY]
  ∧ replayArray s = [tokenX; tokenY; tokenZ; tokenX]
  ∧ waitingQueue (processWaitingQueue s).2 = [tokenZ; tokenX].
Proof.
  intros s.
  split; [vm_compute; reflexivity|]. split; [vm_compute; reflexivity|].
  split; vm_compute; reflexivity.
Qed.



(** C1 as stated fails: in [cascadeScenario] the replay places the queued
    token 0 into slot 10:00 by evicting walk-in token 10, which is appended
    to the array the loop is iterating, visited by the same call, and placed
    into slot 11:00; the call returns both tokens and leaves the queue
    empty. *)
Lemma C1_counterexample :
  let s := execAll cascadeScenario newEngine in
  waitingQueue s = [priorityToken 0]
  ∧ walkinToken 10 ∈ occupants s
  ∧ replayArray s = [priorityToken 0; walkinToken 10]
  ∧ (processWaitingQueue s).1 = Normal [priorityToken 0; walkinToken 10]
  ∧ waitingQueue (processWaitingQueue s).2 = []
  ∧ ¬ (∀ st r st' t, processWaitingQueue st = (Normal r, st') →
         t ∈ r → t ∈ waitingQueue st).
Proof.
  intros s.
  assert (Hq : waitingQueue s = [priorityToken 0]) by (vm_compute; reflexivity).
  assert (Hr : (processWaitingQueue s).1 = Normal [priorityToken 0; walkinToken 10])
    by (vm_compute; reflexivity).
  split; [exact Hq|]. split; [apply (bool_decide_unpack _); vm_compute; exact I|].
  split; [vm_compute; reflexivity|]. split; [exact Hr|].
  split; [vm_compute; reflexivity|].
  - intros Hclaim.
    destruct (processWaitingQueue s) as [c s'] eqn:Hrun. simpl in Hr. subst c.
    specialize (Hclaim s _ s' (walkinToken 10) Hrun).
    rewrite Hq in Hclaim.
    assert (Hin : walkinToken 10 ∈ [priorityToken 0]).
    { apply Hclaim. apply elem_of_cons. right. apply elem_of_cons. by left. }
    apply list_elem_of_singleton in Hin. discriminate Hin.
Qed.

(** C1, amended. The replay is one left-to-right pass over the
    waiting-queue array, and the array is iterated live.  In every reachable
    state the call returns, and its steps are as follows.  The steps visit
    the elements of the array in order, each step the element at its
    position in the array as it stands then: the old queue followed by what
    the earlier steps appended.  What a step appends is the token it
    evicts: at most one, of lower priority than the visited token, and only
    when it places the visited token; the tokens appended are exactly the
    tokens that left the slots.  Every token appended is visited by a later
    step of the same call.  The call returns the visited elements it
    placed and leaves in the queue those it did not, so that every element
    of the final array is in exactly one of the two; no token left in the
    queue has an eligible slot, and a second call right after places
    nothing and changes nothing. *)
Theorem C1_replay_visits_evicted_tokens (s : Engine) :
  reachable s →
  ∃ r s',
    processWaitingQueue s = (Normal r, s')
    ∧ let log := replayVisits s in
      let appended := evictions log in
      replayArray s = waitingQueue s ++ appended
      ∧ visitToken <$> log = replayArray s
      ∧ (∀ j e, log !! j = Some e →
           (waitingQueue s ++ evictions (take j log)) !! j = Some (visitToken e))
      ∧ Forall (λ e, length (visitEvicted e) ≤ 1
                     ∧ Forall (λ v, priority v < priority (visitToken e)) (visitEvicted e)
                     ∧ (visitPlaced e = false → visitEvicted e = [])) log
      ∧ occupants s' ++ appended ≡ₚ occupants s ++ r
      ∧ (∀ j e v, log !! j = Some e → v ∈ visitEvicted e →
           ∃ j', j < j' ∧ (visitToken <$> log) !! j' = Some v)
      ∧ r = placements log
      ∧ waitingQueue s' = refusals log
      ∧ r ++ waitingQueue s' ≡ₚ waitingQueue s ++ appended
      ∧ Forall (λ t, findAnyAvailableSlot (doctorId t) (priority t) s' = (Normal None, s'))
               (waitingQueue s')
      ∧ processWaitingQueue s' = (Normal [], s').
Proof.
  intros (Hdocs & Hpool & _)%reachable_wellFormed.
  destruct (processWaitingQueue_summary s Hdocs Hpool)
    as (r & s' & Hrun & _ & _ & _ & _ & Hblocked & Hperm & _).
  exists r, s'. split; [done|]. cbv zeta.
  destruct (processWaitingQueue_log s r s' Hrun) as (Harr & Hvis & Hr & Hw & Hall & Hlive).
  assert (Hsplit : r ++ waitingQueue s' ≡ₚ waitingQueue s ++ evictions (replayVisits s)).
  { pose proof (replayLoop_order s (S (replayWeight (waitingQueue s)))) as Hloop.
    revert Hrun Harr. unfold replayArray, processWaitingQueue. unfoldM.
    destruct (replayLoop _ 0 [] [] s) as [[[r1 w1]|e|] s1]; simpl; [|done..].
    destruct Hloop as (appended & Happ & _ & Hp).
    intros [= <- <-] Harr. simpl. by rewrite Hp, Harr. }
  split_and!; try done.
  - apply (Permutation_app_inv_r (waitingQueue s' ++ waitingQueue s)).
    trans ((occupants s' ++ waitingQueue s')
           ++ (waitingQueue s ++ evictions (replayVisits s))); [solve_Permutation|].
    rewrite Hperm, <- Hsplit. solve_Permutation.
  - apply (evicted_visited_later _ (waitingQueue s)); [by rewrite Hvis|done].
  - eapply Forall_impl; [exact Hblocked|]. intros t. apply blockedAt_findAny.
  - by apply processWaitingQueue_blocked.
Qed.

Lemma C1_witness :
  let s := execAll cascadeScenario newEngine in
  ∃ r s',
    processWaitingQueue s = (Normal r, s')
    ∧ let log := replayVisits s in
      let appended := evictions log in
      replayArray s = waitingQueue s ++ appended
      ∧ visitToken <$> log = replayArray s
      ∧ (∀ j e, log !! j = Some e →
           (waitingQueue s ++ evictions (take j log)) !! j = Some (visitToken e))
      ∧ Forall (λ e, length (visitEvicted e) ≤ 1
                     ∧ Forall (λ v, priority v < priority (visitToken e)) (visitEvicted e)
                     ∧ (visitPlaced e = false → visitEvicted e = [])) log
      ∧ occupants s' ++ appended ≡ₚ occupants s ++ r
      ∧ (∀ j e v, log !! j = Some e → v ∈ visitEvicted e →
           ∃ j', j < j' ∧ (visitToken <$> log) !! j' = Some v)
      ∧ r = placements log
      ∧ waitingQueue s' = refusals log
      ∧ r ++ waitingQueue s' ≡ₚ waitingQueue s ++ appended
      ∧ Forall (λ t, findAnyAvailableSlot (doctorId t) (priority t) s' = (Normal None, s'))
               (waitingQueue s')
      ∧ processWaitingQueue s' = (Normal [], s').
Proof.
  intros s. apply (C1_replay_visits_evicted_tokens s). by exists cascadeScenario.
Defined.

(** ** Allocation, in full *)

Lemma getSourceConfig_priority src : (getSourceConfig src).2 ≤ 10.
Proof.
  unfold getSourceConfig.
  destruct (List.find (λ s, String.eqb s.1 src) TOKEN_SOURCES) as [e|] eqn:Hfind; simpl.
  - apply find_some in Hfind as [Hin _]. apply list_elem_of_In in Hin.
    unfold TOKEN_SOURCES in Hin.
    repeat (apply elem_of_cons in Hin as [->|Hin]); simpl; try lia.
    by apply elem_of_nil in Hin.
  - lia.
Qed.

(** A successful placement seats the token in the slot it was tried on. *)
Lemma tryAllocateToSlot_seats t time s s' pool :
  doctorsOK s → poolOK pool s →
  tryAllocateToSlot t time s = (Normal true, s') →
  seated s' (doctorId t) (slotKeyOf (doctorId t) time) t.
Proof.
  intros Hdocs Hpool Hrun.
  apply tryAllocateToSlot_true in Hrun as (d & slot & slot' & ev & Hd & Hs & Hplaced & ->).
  destruct (doctorsOK_lookup _ _ _ _ _ Hdocs Hd Hs) as [(_ & _ & Hok) _].
  assert (Hnd : NoDup (id <$> slotTokens slot)).
  { eapply poolOK_slot_NoDup; [exact Hpool|]. by eapply Map_get_allSlots. }
  destruct (placed_facts _ _ _ _ Hok Hnd Hplaced) as (_ & _ & Hperm & Hev & _).
  eexists _, slot'. unfold putSlot. simpl. rewrite Map_get_set.
  rewrite decide_True by done. split; [done|]. simpl. rewrite Map_get_set.
  rewrite decide_True by done. split; [done|].
  assert (Hin : t ∈ slotTokens slot' ++ ev).
  { rewrite Hperm. apply elem_of_cons. by left. }
  apply elem_of_app in Hin as [Hin|Hin]; [done|].
  rewrite Forall_forall in Hev. apply Hev in Hin. lia.
Qed.

Lemma getStatus_afterNew t s x st :
  id x ≠ nextId s → getStatus x s = Some st → getStatus x (afterNew t s) = Some st.
Proof. unfold getStatus, afterNew. simpl. intros Hne Hx. by rewrite lookup_insert_ne. Qed.

(** What placing the new token [tok] of an allocation on the slot [time]
    does, from the state [s1] in which the token has been created. *)
Lemma place_new_token s s1 s2 tok time :
  wellFormed s → id tok = nextId s →
  is_Some (Map_get (doctorId tok) (doctors s)) →
  doctors s1 = doctors s → waitingQueue s1 = waitingQueue s → nextId s1 = S (nextId s) →
  fields s1 = <[nextId s := {| slotTime := time; status := ALLOCATED |}]> (fields s) →
  tryAllocateToSlot tok time s1 = (Normal true, s2) →
  occupants s2 ++ waitingQueue s2 ≡ₚ tok :: occupants s ++ waitingQueue s
  ∧ seated s2 (doctorId tok) (slotKeyOf (doctorId tok) (getSlotTime tok s2)) tok
  ∧ getStatus tok s2 = Some ALLOCATED
  ∧ doctorsOK s2 ∧ poolOK (waitingQueue s2) s2
  ∧ tokens s2 = tokens s1 ∧ nextId s2 = nextId s1
  ∧ (∃ ev, waitingQueue s2 = waitingQueue s ++ ev
           ∧ Forall (λ v, priority v < priority tok) ev)
  ∧ (∀ k key x, priority tok ≤ priority x → seated s k key x → seated s2 k key x)
  ∧ (∀ x st, id x ≠ nextId s → getStatus x s = Some st → getStatus x s2 = Some st).
Proof.
  intros Hwf Hid Hdoc Hdocs1 Hq1 Hn1 Hf1 Hrun.
  assert (Hd1 : doctorsOK s1) by (apply (doctorsOK_ext s); [done|apply Hwf]).
  assert (Hp1 : poolOK (tok :: waitingQueue s1) s1).
  { rewrite Hq1. eapply (poolOK_ext _ (afterNew time s)); [done|simpl; lia|].
    by apply afterNew_pool. }
  destruct (tryAllocateToSlot_invariant tok time s1 s2 (waitingQueue s1) Hd1 Hp1 Hrun)
    as (ev & Hq & Hd2 & Hp2 & Htok & Hfields & Hnext & _ & Hperm & Hev).
  rewrite (occupants_ext s s1 Hdocs1) in Hperm.
  assert (Hget : fields s2 !! id tok = Some {| slotTime := time; status := ALLOCATED |}).
  { by rewrite Hfields, Hf1, Hid, lookup_insert_eq. }
  split_and!; try done.
  - rewrite Hq, Hq1. trans ((occupants s2 ++ ev) ++ waitingQueue s);
      [solve_Permutation|by rewrite Hperm].
  - unfold getSlotTime. rewrite Hget. simpl.
    exact (tryAllocateToSlot_seats _ _ _ _ _ Hd1 Hp1 Hrun).
  - unfold getStatus. by rewrite Hget.
  - eapply poolOK_perm; [|exact Hp2]. rewrite Hq. apply Permutation_app_comm.
  - exists ev. by rewrite Hq, Hq1.
  - intros k key x Hprio Hseat.
    eapply tryAllocateToSlot_seated; [exact Hd1|exact Hp1|exact Hrun|done|].
    by apply (seated_ext s).
  - intros x st Hne Hx. unfold getStatus in *. rewrite Hfields, Hf1.
    by rewrite lookup_insert_ne by done.
Qed.

Lemma allocateToken_summary s p d t src doc :
  wellFormed s → Map_get d (doctors s) = Some doc →
  let tok := {| id := nextId s; patientId := p; doctorId := d; source := src;
                priority := (getSourceConfig src).2 |} in
  ∃ o s', allocateToken p d t src s = (Normal o, s')
    ∧ token o = Some tok
    ∧ occupants s' ++ waitingQueue s' ≡ₚ tok :: occupants s ++ waitingQueue s
    ∧ (success o = true →
       seated s' d (slotKeyOf d (getSlotTime tok s')) tok
       ∧ getStatus tok s' = Some ALLOCATED
       ∧ tokens s' = <[nextId s := tok]> (tokens s))
    ∧ (success o = false →
       waitingQueue s' = waitingQueue s ++ [tok] ∧ doctors s' = doctors s
       ∧ tokens s' = tokens s)
    ∧ (∀ k key x, priority tok ≤ priority x → seated s k key x → seated s' k key x)
    ∧ (∀ x st, id x ≠ nextId s → getStatus x s = Some st → getStatus x s' = Some st).
Proof.
  intros Hwf Hd tok.
  destruct (allocateToken_cases s p d t src doc Hd) as (o & s' & Hrun & Htok & _ & Hcase).
  fold tok in Htok, Hcase.
  exists o, s'. split; [done|]. split; [done|].
  assert (Hdoc : is_Some (Map_get (doctorId tok) (doctors s))) by by exists doc.
  destruct (qualifiesb _ _ _ _).
  - destruct Hcase as (Hsucc & s2 & Hr & ->).
    destruct (place_new_token s (afterNew t s) s2 tok t Hwf eq_refl Hdoc
                eq_refl eq_refl eq_refl eq_refl Hr)
      as (Hperm & Hseat & Hstat & _ & _ & Htoks & _ & _ & Hkeep & Hothers).
    split_and!; try done.
    + intros _. split_and!; try done. simpl. by rewrite Htoks.
    + intros Hf. congruence.
  - destruct (probeOffsets _ _ _ _ _) as [alt|].
    + destruct Hcase as (Hsucc & s2 & Hr & ->).
      assert (Hf : fields (setSlotTime tok alt (afterNew t s))
                   = <[nextId s := {| slotTime := alt; status := ALLOCATED |}]> (fields s)).
      { unfold setSlotTime, getStatus. simpl. rewrite lookup_insert_eq. simpl.
        by rewrite insert_insert_eq. }
      destruct (place_new_token s (setSlotTime tok alt (afterNew t s)) s2 tok alt
                  Hwf eq_refl Hdoc eq_refl eq_refl eq_refl Hf Hr)
        as (Hperm & Hseat & Hstat & _ & _ & Htoks & _ & _ & Hkeep & Hothers).
      split_and!; try done.
      * intros _. split_and!; try done. simpl. by rewrite Htoks.
      * intros Hfalse. congruence.
    + destruct Hcase as (Hfail & ->). split_and!; try done.
      * simpl. change (occupants (afterNew t s)) with (occupants s).
        solve_Permutation.
      * intros Htrue. congruence.
      * intros x st Hne Hx. by apply getStatus_afterNew.
Qed.

(** ** Emergency insertion, in full *)

Lemma insertEmergencyToken_summary s p d t doc :
  wellFormed s → Map_get d (doctors s) = Some doc →
  let tok := {| id := nextId s; patientId := p; doctorId := d; source := "emergency";
                priority := 10 |} in
  ∃ o s', insertEmergencyToken p d t s = (Normal o, s')
    ∧ nextId s' = S (nextId s)
    ∧ (success o = true ↔ qualifies d (slots doc) 10 t)
    ∧ (success o = true →
       token o = Some tok
       ∧ tokens s' = <[nextId s := tok]> (tokens s)
       ∧ occupants s' ++ waitingQueue s' ≡ₚ tok :: occupants s ++ waitingQueue s
       ∧ getStatus tok s' = Some ALLOCATED
       ∧ (Forall (λ q, priority q ≤ 10) (waitingQueue s) →
          seated s' d (slotKeyOf d t) tok))
    ∧ (success o = false →
       token o = None ∧ doctors s' = doctors s ∧ tokens s' = tokens s
       ∧ waitingQueue s' = waitingQueue s)
    ∧ (∀ k key x, 10 ≤ priority x →
         Forall (λ q, priority q ≤ priority x) (waitingQueue s) →
         seated s k key x → seated s' k key x)
    ∧ (∀ x st, id x ≠ nextId s → getStatus x s = Some st → getStatus x s' = Some st).
Proof.
  intros Hwf Hd tok.
  unfold insertEmergencyToken. unfoldM.
  fold tok. set (s1 := afterNew t s).
  change {| doctors := doctors s; tokens := tokens s; waitingQueue := waitingQueue s;
            fields := <[nextId s:={| slotTime := t; status := ALLOCATED |}]> (fields s);
            nextId := S (nextId s) |} with s1.
  destruct (tryAllocateToSlot_decides tok t s1 doc Hd) as (b & s2 & Hrun & Hb).
  rewrite Hrun. simpl. destruct b.
  - assert (Hdoc : is_Some (Map_get (doctorId tok) (doctors s))) by by exists doc.
    destruct (place_new_token s s1 s2 tok t Hwf eq_refl Hdoc
                eq_refl eq_refl eq_refl eq_refl Hrun)
      as (Hperm & Hseat & Hstat & Hd2 & Hp2 & Htoks & Hn2 & (ev & Hq2 & Hev) & Hkeep & Hothers).
    set (s3 := registerToken tok s2).
    destruct (processWaitingQueue_summary s3)
      as (r & s4 & -> & Hd4 & Hp4 & Htok4 & Hn4 & _ & Hperm4 & Hstat4 & Hkeep4); [done..|].
    simpl. eexists _, _. split; [done|]. simpl.
    assert (Hbound : ∀ x, 10 ≤ priority x →
              Forall (λ q, priority q ≤ priority x) (waitingQueue s) →
              Forall (λ q, priority q ≤ priority x) (waitingQueue s3)).
    { intros x Hx Hall. simpl. rewrite Hq2. apply Forall_app. split; [done|].
      eapply Forall_impl; [exact Hev|]. simpl. intros v Hv. lia. }
    split_and!.
    + by rewrite Hn4.
    + split; [intros _; by apply Hb|done].
    + intros _. split_and!; try done.
      * rewrite Htok4. unfold s3. simpl. by rewrite Htoks.
      * rewrite Hperm4. exact Hperm.
      * apply Hstat4. exact Hstat.
      * intros Hall. apply (Hkeep4 d (slotKeyOf d t) tok); [by apply (Hbound tok)|].
        unfold getSlotTime in Hseat.
        destruct (tryAllocateToSlot_frame tok t s1) as (_ & Hf & _).
        rewrite Hrun in Hf. simpl in Hf. rewrite Hf in Hseat. simpl in Hseat.
        rewrite lookup_insert_eq in Hseat. done.
    + done.
    + intros k key x Hx Hall Hs. apply Hkeep4; [by apply Hbound|].
      apply (seated_ext s2); [done|]. by apply Hkeep.
    + intros x st Hne Hx. by apply Hstat4, Hothers.
  - apply tryAllocateToSlot_false in Hrun as ->. simpl. eexists _, _. split; [done|].
    simpl. split_and!.
    + done.
    + split; [done|]. intros Hq. by pose proof (proj2 Hb Hq).
    + done.
    + done.
    + intros k key x _ _ Hs. exact Hs.
    + intros x st Hne Hx. by apply getStatus_afterNew.
Qed.

(** ** Cancellation, in full *)

Lemma removeToken_split k slot :
  ((k ∉ id <$> slotTokens slot) ∧ (removeToken k slot).2 = slot)
  ∨ (∃ y, id y = k ∧ y ∈ slotTokens slot
          ∧ y :: slotTokens (removeToken k slot).2 ≡ₚ slotTokens slot
          ∧ ∀ x, x ∈ slotTokens slot → x ≠ y → x ∈ slotTokens (removeToken k slot).2).
Proof.
  unfold removeToken.
  destruct (findIndex k (slotTokens slot)) as [i|] eqn:Hfind; simpl.
  - right. destruct (findIndex_Some _ _ _ Hfind) as (y & Hi & Hy).
    exists y. split; [done|]. split; [by eapply list_elem_of_lookup_2|]. split.
    + symmetry. by apply delete_Permutation.
    + intros x Hx Hne. by eapply elem_of_delete_ne.
  - left. split; [by apply findIndex_None|done].
Qed.

(** The second half of [cancelToken]: the status is set and the queue is
    replayed. *)
Lemma cancel_replay s1 tok :
  doctorsOK s1 → poolOK (waitingQueue s1) s1 →
  ∃ r s', processWaitingQueue (setStatus tok CANCELLED s1) = (Normal r, s')
    ∧ tokens s' = tokens s1 ∧ nextId s' = nextId s1
    ∧ getStatus tok s' = Some CANCELLED
    ∧ occupants s' ++ waitingQueue s' ≡ₚ occupants s1 ++ waitingQueue s1
    ∧ (∀ k key x, Forall (λ q, priority q ≤ priority x) (waitingQueue s1) →
         seated s1 k key x → seated s' k key x)
    ∧ (∀ x st, id x ≠ id tok → getStatus x s1 = Some st → getStatus x s' = Some st).
Proof.
  intros Hdocs Hpool.
  destruct (processWaitingQueue_summary (setStatus tok CANCELLED s1))
    as (r & s' & Hrun & _ & _ & Htok & Hn & _ & Hperm & Hstat & Hkeep);
    [done|by apply (poolOK_ext _ s1)|].
  exists r, s'. split_and!; try done.
  - apply Hstat. unfold getStatus, setStatus. simpl. by rewrite lookup_insert_eq.
  - intros x st Hne Hx. apply Hstat. unfold getStatus, setStatus in *. simpl.
    by rewrite lookup_insert_ne.
Qed.

Lemma cancelToken_summary s k tok d :
  wellFormed s → tokens s !! k = Some tok →
  Map_get (doctorId tok) (doctors s) = Some d →
  let key := slotKeyOf (doctorId tok) (getSlotTime tok s) in
  ∃ o s' removed, cancelToken k s = (Normal o, s') ∧ success o = true
    ∧ tokens s' = tokens s ∧ nextId s' = nextId s
    ∧ getStatus tok s' = Some CANCELLED
    ∧ removed ++ occupants s' ++ waitingQueue s' ≡ₚ occupants s ++ waitingQueue s
    ∧ length removed ≤ 1
    ∧ Forall (λ y, id y = k ∧ seated s (doctorId tok) key y) removed
    ∧ (∀ y, id y = k → seated s (doctorId tok) key y → removed = [y])
    ∧ (∀ kk key' x, id x ≠ k →
         Forall (λ q, priority q ≤ priority x) (waitingQueue s) →
         seated s kk key' x → seated s' kk key' x)
    ∧ (∀ x st, id x ≠ id tok → getStatus x s = Some st → getStatus x s' = Some st).
Proof.
  intros (Hdocs & Hpool & Hreg) Hk Hd key.
  unfold cancelToken. unfoldM. rewrite Hk. simpl. rewrite Hd. simpl. fold key.
  destruct (Map_get key (slots d)) as [slot|] eqn:Hs; simpl.
  - destruct (doctorsOK_lookup _ _ _ _ _ Hdocs Hd Hs) as [(_ & _ & Hslot) _]. simpl in Hslot.
    destruct (removeToken_facts k slot Hslot) as (Hslot' & Htime & Hsub).
    set (s1 := putSlot (doctorId tok) d key (removeToken k slot).2 s).
    assert (Hdocs1 : doctorsOK s1) by by eapply doctorsOK_putSlot.
    destruct (occupants_putSlot _ _ _ _ _ Hd Hs) as (A & B & HA & HB).
    assert (Hpool1 : poolOK (waitingQueue s1) s1).
    { eapply (poolOK_sub _ s); [| |by apply Map_get_putSlot|done]; [|done].
      unfold s1. rewrite HA, HB. apply sublist_app; [done|]. by apply sublist_app. }
    destruct (cancel_replay s1 tok Hdocs1 Hpool1)
      as (r & s' & -> & Htok & Hn & Hcancelled & Hperm & Hkeep & Hstat).
    assert (Hnd : NoDup (id <$> slotTokens slot)).
    { eapply poolOK_slot_NoDup; [exact Hpool|]. by eapply Map_get_allSlots. }
    assert (Hothers : ∀ kk key' x, id x ≠ k → seated s kk key' x → seated s1 kk key' x).
    { intros kk key' x Hne (d0 & slot0 & Hd0 & Hs0 & Hx).
      unfold seated, s1, putSlot. simpl. rewrite Map_get_set.
      destruct (decide (kk = doctorId tok)) as [->|Hkk]; [|by exists d0, slot0].
      assert (d0 = d) as -> by congruence.
      destruct (decide (key' = key)) as [->|Hkey].
      2: { eexists _, slot0. split; [done|]. simpl. rewrite Map_get_set.
           by rewrite decide_False. }
      assert (slot0 = slot) as -> by congruence.
      eexists _, _. split; [done|]. simpl. rewrite Map_get_set.
      rewrite decide_True by done. split; [done|].
      destruct (removeToken_split k slot) as [[_ ->]|(y & Hy & _ & _ & Hrest)]; [done|].
      apply Hrest; [done|]. intros ->. done. }
    simpl.
    destruct (removeToken_split k slot) as [[Hnone Heq]|(y & Hy & Hin & Hperm1 & Hrest)].
    + eexists _, s', []. split; [done|]. simpl. split_and!; try done.
      * rewrite Hperm. unfold s1. rewrite HA, HB, Heq. done.
      * lia.
      * intros y Hy (d0 & slot0 & Hd0 & Hs0 & Hin).
        assert (d0 = d) as -> by congruence. assert (slot0 = slot) as -> by congruence.
        exfalso. apply Hnone. apply list_elem_of_fmap. by exists y.
      * intros kk key' x Hne Hall Hseat. apply Hkeep; [done|]. by apply Hothers.
    + eexists _, s', [y]. split; [done|]. simpl. split_and!; try done.
      * rewrite Hperm. unfold s1. rewrite HA, HB. simpl. rewrite <- Hperm1.
        solve_Permutation.
      * apply Forall_singleton. split; [done|]. by exists d, slot.
      * intros y' Hy' (d0 & slot0 & Hd0 & Hs0 & Hin').
        assert (d0 = d) as -> by congruence. assert (slot0 = slot) as -> by congruence.
        f_equal. symmetry.
        apply list_elem_of_lookup_1 in Hin as [i Hi], Hin' as [j Hj].
        assert (i = j).
        { eapply NoDup_lookup; [exact Hnd|by rewrite list_lookup_fmap, Hi
                                          |by rewrite list_lookup_fmap, Hj; simpl; congruence]. }
        congruence.
      * intros kk key' x Hne Hall Hseat. apply Hkeep; [done|]. by apply Hothers.
  - destruct (cancel_replay s tok Hdocs Hpool)
      as (r & s' & -> & Htok & Hn & Hcancelled & Hperm & Hkeep & Hstat).
    simpl. eexists _, s', []. split; [done|]. simpl. split_and!; try done.
    + lia.
    + intros y Hy (d0 & slot0 & Hd0 & Hs0 & Hin). congruence.
    + intros kk key' x Hne Hall Hseat. by apply Hkeep.
Qed.

(** ** Calls the engine refuses *)

Lemma allocateToken_unregistered s p d t src :
  Map_get d (doctors s) = None →
  allocateToken p d t src s
  = (Normal {| success := false; token := None; message := None;
               error := Some "Doctor not found" |}, s).
Proof. intros Hd. unfold allocateToken. unfoldM. by rewrite Hd. Qed.

Lemma insertEmergencyToken_unregistered s p d t :
  Map_get d (doctors s) = None →
  insertEmergencyToken p d t s = (Throw TypeError_slots, afterNew t s).
Proof.
  intros Hd. unfold insertEmergencyToken, tryAllocateToSlot. unfoldM. by rewrite Hd.
Qed.

Lemma cancelToken_unknown s k :
  tokens s !! k = None →
  cancelToken k s
  = (Normal {| success := false; token := None; message := Some "Token not found";
               error := None |}, s).
Proof. intros Hk. unfold cancelToken. unfoldM. by rewrite Hk. Qed.

Lemma cancelToken_unregistered s k tok :
  tokens s !! k = Some tok → Map_get (doctorId tok) (doctors s) = None →
  cancelToken k s = (Throw TypeError_slots, s).
Proof. intros Hk Hd. unfold cancelToken. unfoldM. rewrite Hk. simpl. by rewrite Hd. Qed.

Lemma addDoctor_occupants s i n sp a b :
  occupants (exec (CallAddDoctor i n sp a b) s) `sublist_of` occupants s.
Proof.
  simpl. unfold addDoctor. unfoldM.
  destruct (initializeDoctorSlots_fresh i n sp a b) as [Hnd Hfresh].
  set (table := initializeDoctorSlots (newDoctor i n sp a b)) in *.
  set (d' := {| doctorKey := i; name := n; specialization := sp;
                workingHoursStart := a; workingHoursEnd := b; slots := table |}).
  assert (Hempty : table.*2 ≫= slotTokens = []).
  { clear -Hfresh. induction Hfresh as [|e l He _ IH]; [done|].
    rewrite fmap_cons, bind_cons, IH. by destruct (freshEntry_entryOK _ _ He) as [_ ->]. }
  change (slotsOf (Map_set i d' (doctors s)) ≫= slotTokens
          `sublist_of` slotsOf (doctors s) ≫= slotTokens).
  destruct (Map_set_split i d' (doctors s)) as (m1 & m2 & -> & Hcase).
  rewrite slotsOf_app, slotsOf_cons, !bind_app. simpl. rewrite Hempty. simpl.
  destruct Hcase as [[-> ->]|[d0 ->]].
  - by rewrite app_nil_r.
  - rewrite slotsOf_app, slotsOf_cons, !bind_app.
    apply sublist_app; [done|]. by apply sublist_inserts_l.
Qed.

(** ** Invariants of the reachable states *)

(** Whatever the call, the tokens held afterwards were held before or were
    created by the call, with a priority of the table. *)
Lemma exec_members c s x :
  wellFormed s →
  x ∈ occupants (exec c s) ++ waitingQueue (exec c s) →
  x ∈ occupants s ++ waitingQueue s ∨ (id x = nextId s ∧ priority x ≤ 10).
Proof.
  intros Hwf. destruct c as [i n sp a b|p d t src|p d t|k|].
  - intros [Hx|Hx]%elem_of_app; left; apply elem_of_app; [left|by right].
    eapply elem_of_sublist; [exact Hx|apply addDoctor_occupants].
  - simpl. destruct (Map_get d (doctors s)) as [doc|] eqn:Hd.
    + destruct (allocateToken_summary s p d t src doc Hwf Hd)
        as (o & s' & -> & _ & Hperm & _). simpl. rewrite Hperm.
      intros [->|Hx]%elem_of_cons; [right|by left]. simpl.
      split; [done|apply getSourceConfig_priority].
    + rewrite allocateToken_unregistered by done. by left.
  - simpl. destruct (Map_get d (doctors s)) as [doc|] eqn:Hd.
    + destruct (insertEmergencyToken_summary s p d t doc Hwf Hd)
        as (o & s' & -> & _ & _ & Hsucc & Hfail & _). simpl.
      destruct (success o).
      * destruct (Hsucc eq_refl) as (_ & _ & Hperm & _). rewrite Hperm.
        intros [->|Hx]%elem_of_cons; [right|by left]. simpl. split; [done|lia].
      * destruct (Hfail eq_refl) as (_ & Hdocs & _ & Hq).
        rewrite (occupants_ext _ _ Hdocs), Hq. by left.
    + rewrite insertEmergencyToken_unregistered by done. by left.
  - simpl. destruct (tokens s !! k) as [tok|] eqn:Hk.
    + destruct (Map_get (doctorId tok) (doctors s)) as [d|] eqn:Hd.
      * destruct (cancelToken_summary s k tok d Hwf Hk Hd)
          as (o & s' & removed & -> & _ & _ & _ & _ & Hperm & _). simpl.
        intros Hx. left. rewrite <- Hperm. apply elem_of_app. by right.
      * rewrite (cancelToken_unregistered s k tok) by done. by left.
    + rewrite cancelToken_unknown by done. by left.
  - simpl. destruct Hwf as (Hdocs & Hpool & _).
    destruct (processWaitingQueue_summary s Hdocs Hpool)
      as (r & s' & -> & _ & _ & _ & _ & _ & Hperm & _). simpl. rewrite Hperm. by left.
Qed.

(** Whatever the call, it registers at most the token it creates, under the
    token's identifier. *)
Lemma exec_tokens c s :
  wellFormed s →
  tokens (exec c s) = tokens s
  ∨ ∃ tok, id tok = nextId s ∧ tokens (exec c s) = <[nextId s := tok]> (tokens s).
Proof.
  intros Hwf. destruct c as [i n sp a b|p d t src|p d t|k|].
  - by left.
  - simpl. destruct (Map_get d (doctors s)) as [doc|] eqn:Hd.
    + destruct (allocateToken_summary s p d t src doc Hwf Hd)
        as (o & s' & -> & _ & _ & Hsucc & Hfail & _). simpl.
      destruct (success o).
      * right. destruct (Hsucc eq_refl) as (_ & _ & ->).
        eexists. split; [|reflexivity]. done.
      * left. by destruct (Hfail eq_refl) as (_ & _ & ->).
    + rewrite allocateToken_unregistered by done. by left.
  - simpl. destruct (Map_get d (doctors s)) as [doc|] eqn:Hd.
    + destruct (insertEmergencyToken_summary s p d t doc Hwf Hd)
        as (o & s' & -> & _ & _ & Hsucc & Hfail & _). simpl.
      destruct (success o).
      * right. destruct (Hsucc eq_refl) as (_ & -> & _).
        eexists. split; [|reflexivity]. done.
      * left. by destruct (Hfail eq_refl) as (_ & _ & -> & _).
    + rewrite insertEmergencyToken_unregistered by done. by left.
  - simpl. destruct (tokens s !! k) as [tok|] eqn:Hk.
    + destruct (Map_get (doctorId tok) (doctors s)) as [d|] eqn:Hd.
      * destruct (cancelToken_summary s k tok d Hwf Hk Hd)
          as (o & s' & removed & -> & _ & Ht & _). by left.
      * rewrite (cancelToken_unregistered s k tok) by done. by left.
    + rewrite cancelToken_unknown by done. by left.
  - simpl. destruct Hwf as (Hdocs & Hpool & _).
    destruct (processWaitingQueue_summary s Hdocs Hpool)
      as (r & s' & -> & _ & _ & Ht & _). by left.
Qed.

Lemma execAll_snoc calls c s : execAll (calls ++ [c]) s = exec c (execAll calls s).
Proof. unfold execAll. by rewrite foldl_app. Qed.

(** Induction over the calls that lead to a reachable state. *)
Lemma reachable_ind (P : Engine → Prop) :
  P newEngine →
  (∀ c s, reachable s → P s → P (exec c s)) →
  ∀ s, reachable s → P s.
Proof.
  intros Hnew Hstep s [calls ->].
  induction calls as [|c calls IH] using rev_ind; [done|].
  rewrite execAll_snoc. apply Hstep; [by exists calls|done].
Qed.

Lemma reachable_bounded s : reachable s → bounded s.
Proof.
  revert s. apply (reachable_ind bounded).
  - apply Forall_nil_2.
  - intros c s Hreach Hb. unfold bounded in *. rewrite Forall_forall in Hb.
    apply Forall_forall. intros x Hx.
    apply exec_members in Hx as [Hx|[_ Hx]]; [by apply Hb|done|].
    by apply reachable_wellFormed.
Qed.

Lemma reachable_keyed s : reachable s → keyed s.
Proof.
  revert s. apply (reachable_ind keyed).
  - intros k t Hk. simpl in Hk. by rewrite lookup_empty in Hk.
  - intros c s Hreach Hkeyed k t.
    destruct (exec_tokens c s (reachable_wellFormed _ Hreach)) as [->|(tok & Hid & ->)].
    + apply Hkeyed.
    + destruct (decide (k = nextId s)) as [->|Hne].
      * rewrite lookup_insert_eq. by intros [= <-].
      * rewrite lookup_insert_ne by done. apply Hkeyed.
Qed.

(** ** What the calls do to the tokens *)

(** X9. A replay of the waiting queue neither loses nor duplicates a token:
    the tokens held by the slots and the queue afterwards are those held
    before.  It registers nothing, creates no token and changes no token's
    status. *)
Theorem X9_replay_conserves_tokens (s : Engine) :
  reachable s →
  ∃ r s', processWaitingQueue s = (Normal r, s')
    ∧ occupants s' ++ waitingQueue s' ≡ₚ occupants s ++ waitingQueue s
    ∧ tokens s' = tokens s ∧ nextId s' = nextId s
    ∧ ∀ x st, getStatus x s = Some st → getStatus x s' = Some st.
Proof.
  intros (Hdocs & Hpool & _)%reachable_wellFormed.
  destruct (processWaitingQueue_summary s Hdocs Hpool)
    as (r & s' & Hrun & _ & _ & Htok & Hn & _ & Hperm & Hstat & _).
  by exists r, s'.
Qed.

Lemma X9_witness :
  let s := execAll cascadeScenario newEngine in
  ∃ r s', processWaitingQueue s = (Normal r, s')
    ∧ occupants s' ++ waitingQueue s' ≡ₚ occupants s ++ waitingQueue s
    ∧ tokens s' = tokens s ∧ nextId s' = nextId s
    ∧ ∀ x st, getStatus x s = Some st → getStatus x s' = Some st.
Proof.
  intros s. apply (X9_replay_conserves_tokens s). by exists cascadeScenario.
Defined.

(** X10. An allocation for a registered doctor adds exactly the token it
    creates to the tokens held by the slots and the queue.  On success the
    token occupies the slot its [slotTime] names, with status allocated, and
    is registered under its identifier; on failure it is the last element of
    the queue and is not registered.  The status of every other token is as
    before. *)
Theorem X10_allocateToken_adds_one_token (s : Engine) (p d t src : string) (doc : Doctor) :
  reachable s → Map_get d (doctors s) = Some doc →
  ∃ o s' tok,
    allocateToken p d t src s = (Normal o, s')
    ∧ token o = Some tok ∧ id tok = nextId s
    ∧ occupants s' ++ waitingQueue s' ≡ₚ tok :: occupants s ++ waitingQueue s
    ∧ (success o = true →
       seated s' d (slotKeyOf d (getSlotTime tok s')) tok
       ∧ getStatus tok s' = Some ALLOCATED
       ∧ tokens s' = <[id tok := tok]> (tokens s))
    ∧ (success o = false →
       waitingQueue s' = waitingQueue s ++ [tok] ∧ doctors s' = doctors s
       ∧ tokens s' = tokens s)
    ∧ ∀ x st, id x ≠ id tok → getStatus x s = Some st → getStatus x s' = Some st.
Proof.
  intros Hwf%reachable_wellFormed Hd.
  destruct (allocateToken_summary s p d t src doc Hwf Hd)
    as (o & s' & Hrun & Htok & Hperm & Hsucc & Hfail & _ & Hstat).
  eexists o, s', _. split; [done|]. split; [done|]. by split_and!.
Qed.

Lemma X10_witness :
  let s := execAll cancelScenario newEngine in
  ∃ o s' tok,
    allocateToken "Q" "D1" "09:00" "walkin" s = (Normal o, s')
    ∧ token o = Some tok ∧ id tok = nextId s
    ∧ occupants s' ++ waitingQueue s' ≡ₚ tok :: occupants s ++ waitingQueue s.
Proof.
  intros s.
  destruct (Map_get "D1" (doctors s)) as [doc|] eqn:Hd; [|by vm_compute in Hd].
  destruct (X10_allocateToken_adds_one_token s "Q" "D1" "09:00" "walkin" doc)
    as (o & s' & tok & Hrun & Htok & Hid & Hperm & _).
  - by exists cancelScenario.
  - exact Hd.
  - exists o, s', tok. split; [exact Hrun|]. split; [exact Htok|].
    split; [exact Hid|exact Hperm].
Defined.

(** X11. An emergency insertion for a registered doctor succeeds exactly
    when the slot at the urgent time exists and has spare capacity or an
    occupant of priority below 10.  On success the token is registered,
    has status allocated and, after the replay the call runs, still occupies
    that slot; the tokens held are those held before and the new one.  On
    failure the token is dropped: slots, queue and registry are as
    before. *)
Theorem X11_insertEmergencyToken_decision (s : Engine) (p d t : string) (doc : Doctor) :
  reachable s → Map_get d (doctors s) = Some doc →
  let tok := {| id := nextId s; patientId := p; doctorId := d; source := "emergency";
                priority := 10 |} in
  ∃ o s', insertEmergencyToken p d t s = (Normal o, s')
    ∧ nextId s' = S (nextId s)
    ∧ (success o = true ↔ qualifies d (slots doc) 10 t)
    ∧ (success o = true →
       token o = Some tok
       ∧ tokens s' = <[nextId s := tok]> (tokens s)
       ∧ getStatus tok s' = Some ALLOCATED
       ∧ seated s' d (slotKeyOf d t) tok
       ∧ occupants s' ++ waitingQueue s' ≡ₚ tok :: occupants s ++ waitingQueue s)
    ∧ (success o = false →
       token o = None ∧ doctors s' = doctors s ∧ tokens s' = tokens s
       ∧ waitingQueue s' = waitingQueue s).
Proof.
  intros Hreach Hd tok.
  pose proof (reachable_wellFormed _ Hreach) as Hwf.
  pose proof (reachable_bounded _ Hreach) as Hb.
  apply Forall_app in Hb as [_ Hb].
  destruct (insertEmergencyToken_summary s p d t doc Hwf Hd)
    as (o & s' & Hrun & Hn & Hiff & Hsucc & Hfail & _).
  exists o, s'. split_and!; try done.
  intros Ho. destruct (Hsucc Ho) as (? & ? & ? & ? & Hseat). split_and!; try done.
  by apply Hseat.
Qed.

Lemma X11_witness :
  let s := execAll cancelScenario newEngine in
  ∃ o s', insertEmergencyToken "E" "D1" "09:00" s = (Normal o, s')
          ∧ nextId s' = S (nextId s).
Proof.
  intros s.
  destruct (Map_get "D1" (doctors s)) as [doc|] eqn:Hd; [|by vm_compute in Hd].
  destruct (X11_insertEmergencyToken_decision s "E" "D1" "09:00" doc)
    as (o & s' & Hrun & Hn & _).
  - by exists cancelScenario.
  - exact Hd.
  - exists o, s'. split; [exact Hrun|exact Hn].
Defined.

Lemma seated_addDoctor s i n sp a b k key x :
  i ≠ k → seated s k key x → seated (exec (CallAddDoctor i n sp a b) s) k key x.
Proof.
  intros Hne (d & slot & Hd & Hs & Hx). exists d, slot. split; [|done].
  simpl. unfold addDoctor. unfoldM. rewrite Map_get_set. by rewrite decide_False.
Qed.

(** X12. A token of emergency priority keeps its seat: whatever call comes
    next, other than its own cancellation and a new registration of its
    doctor, it occupies the same slot afterwards.  No allocation, emergency
    insertion, cancellation of another token or replay displaces it. *)
Theorem X12_emergency_seat_is_kept (s : Engine) (c : Call) (k key : string) (x : Token) :
  reachable s → 10 ≤ priority x → seated s k key x → spares c k x →
  seated (exec c s) k key x.
Proof.
  intros Hreach Hx Hseat Hc.
  pose proof (reachable_wellFormed _ Hreach) as Hwf.
  pose proof (reachable_bounded _ Hreach) as Hb.
  apply Forall_app in Hb as [_ Hb].
  assert (Hq : Forall (λ q, priority q ≤ priority x) (waitingQueue s)).
  { eapply Forall_impl; [exact Hb|]. simpl. intros q Hq. lia. }
  destruct c as [i n sp a b|p d t src|p d t|j|].
  - by apply seated_addDoctor.
  - simpl. destruct (Map_get d (doctors s)) as [doc|] eqn:Hd.
    + destruct (allocateToken_summary s p d t src doc Hwf Hd)
        as (o & s' & -> & _ & _ & _ & _ & Hkeep & _). simpl.
      apply Hkeep; [|done]. simpl. pose proof (getSourceConfig_priority src). lia.
    + by rewrite allocateToken_unregistered.
  - simpl. destruct (Map_get d (doctors s)) as [doc|] eqn:Hd.
    + destruct (insertEmergencyToken_summary s p d t doc Hwf Hd)
        as (o & s' & -> & _ & _ & _ & _ & Hkeep & _). simpl. by apply Hkeep.
    + rewrite insertEmergencyToken_unregistered by done. simpl.
      by apply (seated_ext s).
  - simpl in Hc |- *. destruct (tokens s !! j) as [tok|] eqn:Hj.
    + destruct (Map_get (doctorId tok) (doctors s)) as [d|] eqn:Hd.
      * destruct (cancelToken_summary s j tok d Hwf Hj Hd)
          as (o & s' & removed & -> & _ & _ & _ & _ & _ & _ & _ & _ & Hkeep & _). simpl.
        apply Hkeep; [congruence|done|done].
      * by rewrite (cancelToken_unregistered s j tok).
    + by rewrite cancelToken_unknown.
  - simpl. destruct Hwf as (Hdocs & Hpool & _).
    destruct (processWaitingQueue_summary s Hdocs Hpool)
      as (r & s' & -> & _ & _ & _ & _ & _ & _ & _ & Hkeep). simpl. by apply Hkeep.
Qed.

Lemma X12_witness :
  let s := execAll cascadeScenario newEngine in
  seated s "D1" "D1-09:00" emergencyToken
  ∧ seated (exec CallProcessWaitingQueue s) "D1" "D1-09:00" emergencyToken.
Proof.
  intros s.
  assert (Hseat : seated s "D1" "D1-09:00" emergencyToken).
  { destruct (Map_get "D1" (doctors s)) as [doc|] eqn:Hd; [|by vm_compute in Hd].
    destruct (Map_get "D1-09:00" (slots doc)) as [slot|] eqn:Hs.
    - exists doc, slot. split; [exact Hd|]. split; [exact Hs|].
      revert Hs. vm_compute in Hd. injection Hd as <-. vm_compute.
      intros [= <-]. do 9 (apply elem_of_cons; right). apply elem_of_cons. by left.
    - exfalso. revert Hs. vm_compute in Hd. injection Hd as <-. vm_compute.
      discriminate. }
  split; [exact Hseat|].
  apply (X12_emergency_seat_is_kept s CallProcessWaitingQueue "D1" "D1-09:00"
           emergencyToken).
  - by exists cascadeScenario.
  - vm_compute. lia.
  - exact Hseat.
  - exact I.
Defined.

(** X13. Cancelling a registered token that occupies the slot its
    [slotTime] names succeeds: the token gets status cancelled and leaves
    the slots for good -- after the replay the call runs it is in no slot
    and not in the queue -- while it stays in the registry; every other token
    held before is still held, and keeps its status. *)
Theorem X13_cancel_frees_the_seat (s : Engine) (k : nat) (tok : Token) :
  reachable s → tokens s !! k = Some tok →
  seated s (doctorId tok) (slotKeyOf (doctorId tok) (getSlotTime tok s)) tok →
  ∃ o s', cancelToken k s = (Normal o, s')
    ∧ success o = true
    ∧ getStatus tok s' = Some CANCELLED
    ∧ tokens s' = tokens s
    ∧ tok :: occupants s' ++ waitingQueue s' ≡ₚ occupants s ++ waitingQueue s
    ∧ (tok ∉ occupants s') ∧ (tok ∉ waitingQueue s')
    ∧ ∀ x st, id x ≠ k → getStatus x s = Some st → getStatus x s' = Some st.
Proof.
  intros Hreach Hk Hseat.
  pose proof (reachable_wellFormed _ Hreach) as Hwf.
  pose proof (reachable_keyed _ Hreach _ _ Hk) as Hid.
  pose proof Hseat as (d & slot & Hd & _).
  destruct (cancelToken_summary s k tok d Hwf Hk Hd)
    as (o & s' & removed & Hrun & Hsucc & Htok & _ & Hstat & Hperm & _ & _ & Hremoved
        & _ & Hothers).
  rewrite (Hremoved tok Hid Hseat) in Hperm. simpl in Hperm.
  assert (Hout : tok ∉ occupants s' ++ waitingQueue s').
  { destruct Hwf as (_ & [Hnd _] & _). rewrite <- Hperm in Hnd.
    rewrite fmap_cons in Hnd. apply NoDup_cons in Hnd as [Hnotin _].
    intros Hin. apply Hnotin. apply list_elem_of_fmap. by exists tok. }
  exists o, s'. split_and!; try done.
  - intros Hin. apply Hout, elem_of_app. by left.
  - intros Hin. apply Hout, elem_of_app. by right.
  - intros x st Hne. apply Hothers. congruence.
Qed.

Lemma X13_witness :
  let s := execAll cancelScenario newEngine in
  ∃ o s', cancelToken 1 s = (Normal o, s')
    ∧ success o = true
    ∧ getStatus (walkinToken 1) s' = Some CANCELLED
    ∧ (walkinToken 1 ∉ occupants s') ∧ (walkinToken 1 ∉ waitingQueue s').
Proof.
  intros s.
  destruct (X13_cancel_frees_the_seat s 1 (walkinToken 1))
    as (o & s' & Hrun & Hsucc & Hstat & _ & _ & Hocc & Hq & _).
  - by exists cancelScenario.
  - vm_compute. reflexivity.
  - destruct (Map_get "D1" (doctors s)) as [doc|] eqn:Hd; [|by vm_compute in Hd].
    assert (Htime : getSlotTime (walkinToken 1) s = "09:00") by (vm_compute; reflexivity).
    rewrite Htime.
    destruct (Map_get "D1-09:00" (slots doc)) as [slot|] eqn:Hs.
    + exists doc, slot. split; [exact Hd|]. split; [exact Hs|].
      revert Hs. vm_compute in Hd. injection Hd as <-. vm_compute.
      intros [= <-]. apply elem_of_cons. by left.
    + exfalso. revert Hs. vm_compute in Hd. injection Hd as <-. vm_compute.
      discriminate.
  - exists o, s'. split; [exact Hrun|]. split; [exact Hsucc|].
    split; [exact Hstat|]. split; [exact Hocc|exact Hq].
Defined.

(** X14. In every reachable state no token is held twice -- the occupants
    of all slots and the elements of the waiting queue have pairwise distinct
    identifiers --, every held token was created by this engine for a
    registered doctor and has a priority of at most 10, and every registered
    token is registered under its own identifier, which has been handed
    out. *)
Theorem X14_tokens_of_reachable_states (s : Engine) :
  reachable s →
  NoDup (id <$> occupants s ++ waitingQueue s)
  ∧ Forall (λ t, id t < nextId s
                 ∧ is_Some (Map_get (doctorId t) (doctors s))
                 ∧ priority t ≤ 10) (occupants s ++ waitingQueue s)
  ∧ ∀ k t, tokens s !! k = Some t → id t = k ∧ k < nextId s.
Proof.
  intros Hreach.
  pose proof (reachable_wellFormed _ Hreach) as (_ & [Hnd Hall] & Hreg).
  pose proof (reachable_bounded _ Hreach) as Hb.
  pose proof (reachable_keyed _ Hreach) as Hkeyed.
  split; [done|]. split.
  - unfold bounded in Hb. rewrite Forall_forall in Hall, Hb. apply Forall_forall.
    intros t Ht. destruct (Hall t Ht). split_and!; try done. by apply Hb.
  - intros k t Hk. split; [by apply Hkeyed|by eapply Hreg].
Qed.

Lemma X14_witness :
  NoDup (id <$> occupants (execAll orderScenario newEngine)
                ++ waitingQueue (execAll orderScenario newEngine)).
Proof.
  destruct (X14_tokens_of_reachable_states (execAll orderScenario newEngine))
    as (Hnd & _).
  - by exists orderScenario.
  - exact Hnd.
Defined.

(** ** Registering a doctor *)

(** X15. [addDoctor] with a new [Doctor] object registers it with the slot
    table of its working hours and touches neither the other doctors nor
    the registry, the queue or the token fields.  A doctor whose identifier
    is already registered is replaced at its position in the iteration
    order, and its schedule starts empty: no token occupies a slot of the
    doctor afterwards, whatever its slots held before.  The working hours
    are plain times, so that the call returns and the table is the one
    JavaScript builds. *)
Theorem X15_addDoctor_registers (s : Engine) (i n sp a b : string) :
  plainTime a = true → plainTime b = true →
  ∃ s', addDoctor (newDoctor i n sp a b) s = (Normal tt, s')
    ∧ Map_get i (doctors s')
      = Some {| doctorKey := i; name := n; specialization := sp;
                workingHoursStart := a; workingHoursEnd := b;
                slots := initializeDoctorSlots (newDoctor i n sp a b) |}
    ∧ (∀ k, k ≠ i → Map_get k (doctors s') = Map_get k (doctors s))
    ∧ (doctors s').*1
      = (if decide (i ∈ (doctors s).*1) then (doctors s).*1 else (doctors s).*1 ++ [i])
    ∧ tokens s' = tokens s ∧ waitingQueue s' = waitingQueue s
    ∧ fields s' = fields s ∧ nextId s' = nextId s
    ∧ (∀ key x, ¬ seated s' i key x)
    ∧ (∀ k key x, k ≠ i → seated s' k key x ↔ seated s k key x).
Proof.
  intros _ _. unfold addDoctor. unfoldM. eexists. split; [done|]. simpl.
  split_and!; try done.
  - rewrite Map_get_set. by rewrite decide_True.
  - intros k Hk. rewrite Map_get_set. by rewrite decide_False.
  - apply Map_set_keys.
  - intros key x (d & slot & Hd & Hs & Hx). simpl in Hd. rewrite Map_get_set in Hd.
    rewrite decide_True in Hd by done. injection Hd as <-. simpl in Hs.
    destruct (initializeDoctorSlots_fresh i n sp a b) as [_ Hfresh].
    rewrite Forall_forall in Hfresh. apply Map_get_elem_of, Hfresh in Hs as [h [= _ ->]].
    simpl in Hx. by apply elem_of_nil in Hx.
  - intros k key x Hk. unfold seated. simpl. rewrite Map_get_set.
    by rewrite decide_False.
Qed.

(** Registering the doctor of [cancelScenario] anew empties the full slot. *)
Lemma X15_witness :
  let s := execAll cancelScenario newEngine in
  ∃ s', addDoctor (newDoctor "D1" "Dr" "Gen" "09:00" "10:00") s = (Normal tt, s')
        ∧ tokens s' = tokens s
        ∧ ∀ key x, ¬ seated s' "D1" key x.
Proof.
  intros s.
  destruct (X15_addDoctor_registers s "D1" "Dr" "Gen" "09:00" "10:00")
    as (s' & Hrun & _ & _ & _ & Htok & _ & _ & _ & Hempty & _);
    [vm_compute; reflexivity..|].
  exists s'. split; [exact Hrun|]. split; [exact Htok|exact Hempty].
Defined.

(** ** What a placement leaves alone *)

Lemma Map_get_keys {V} (k : string) (v : V) (m : list (string * V)) :
  Map_get k m = Some v → k ∈ m.*1.
Proof.
  intros Hin%Map_get_elem_of. apply list_elem_of_fmap. by exists (k, v).
Qed.

(** X17. [tryAllocateToSlot] touches one slot at most, the one it is called
    for: every other slot of every doctor is as before, and so are the
    registry, the token fields, the identifier supply and the order of the
    doctors and of each doctor's slots.  When it returns [false] the engine
    is unchanged; it throws, without changing anything, exactly when the
    token's doctor is not registered. *)
Theorem X17_tryAllocateToSlot_frame (t : Token) (time : string) (s : Engine) :
  let res := tryAllocateToSlot t time s in
  tokens res.2 = tokens s ∧ fields res.2 = fields s ∧ nextId res.2 = nextId s
  ∧ (doctors res.2).*1 = (doctors s).*1
  ∧ (∀ k doc, Map_get k (doctors s) = Some doc →
       ∃ doc', Map_get k (doctors res.2) = Some doc'
               ∧ (slots doc').*1 = (slots doc).*1)
  ∧ (∀ k key, k ≠ doctorId t ∨ key ≠ slotKeyOf (doctorId t) time →
       slotAt res.2 k key = slotAt s k key)
  ∧ (res.1 = Normal false → res.2 = s)
  ∧ (Map_get (doctorId t) (doctors s) = None ↔ res.1 = Throw TypeError_slots)
  ∧ (res.1 = Throw TypeError_slots → res.2 = s).
Proof.
  intros res. destruct (tryAllocateToSlot_frame t time s) as (Htok & Hf & Hn).
  fold res in Htok, Hf, Hn. split; [done|]. split; [done|]. split; [done|].
  subst res.
  destruct (tryAllocateToSlot_completes t time s) as [([|] & s' & Hrun)|(e & Hrun & Hnone)];
    rewrite Hrun; simpl.
  - destruct (tryAllocateToSlot_true _ _ _ _ Hrun)
      as (d & slot & slot' & ev & Hd & Hs & _ & ->).
    unfold putSlot. simpl. split_and!.
    + rewrite Map_set_keys. rewrite decide_True; [done|]. by eapply Map_get_keys.
    + intros k doc Hk. rewrite Map_get_set.
      destruct (decide (k = doctorId t)) as [->|Hne]; [|by exists doc].
      eexists. split; [done|]. simpl. assert (doc = d) as -> by congruence.
      rewrite Map_set_keys. rewrite decide_True; [done|]. by eapply Map_get_keys.
    + intros k key Hother. unfold slotAt. simpl. rewrite Map_get_set.
      destruct (decide (k = doctorId t)) as [->|Hne]; [|done].
      rewrite Hd. simpl. rewrite Map_get_set.
      destruct Hother as [?|Hkey]; [done|]. by rewrite decide_False.
    + done.
    + split; [congruence|done].
    + done.
  - pose proof Hrun as Hrun'. apply tryAllocateToSlot_false in Hrun as ->.
    split_and!; try done.
    + intros k doc Hk. by exists doc.
    + split; [|done]. intros Hnone.
      unfold tryAllocateToSlot in Hrun'. unfoldM. by rewrite Hnone in Hrun'.
  - assert (e = TypeError_slots) as ->.
    { unfold tryAllocateToSlot in Hrun. unfoldM. rewrite Hnone in Hrun. congruence. }
    split_and!; try done. intros k doc Hk. by exists doc.
Qed.

(** ** The schedule *)

Lemma sortInsert_Permutation {A} (cmp : A → A → Z) x l : sortInsert cmp x l ≡ₚ x :: l.
Proof.
  induction l as [|y r IH]; simpl; [done|].
  destruct (0 <? cmp x y)%Z; [|done]. rewrite IH. apply Permutation_swap.
Qed.

Lemma Array_sort_Permutation {A} (cmp : A → A → Z) l : Array_sort cmp l ≡ₚ l.
Proof.
  induction l as [|x r IH]; simpl; [done|].
  rewrite sortInsert_Permutation. by rewrite IH.
Qed.

Lemma sortInsert_sorted {A} (cmp : A → A → Z) x l :
  (∀ a b, 0 < cmp a b → cmp b a ≤ 0)%Z →
  (∀ a b c, cmp a b ≤ 0 → cmp b c ≤ 0 → cmp a c ≤ 0)%Z →
  StronglySorted (λ a b, cmp a b ≤ 0)%Z l →
  StronglySorted (λ a b, cmp a b ≤ 0)%Z (sortInsert cmp x l).
Proof.
  intros Hanti Htrans. induction 1 as [|y r Hr IH Hall]; simpl.
  - by repeat constructor.
  - destruct (Z.ltb_spec 0 (cmp x y)) as [Hlt|Hle].
    + constructor; [done|]. rewrite sortInsert_Permutation.
      constructor; [by apply Hanti|done].
    + constructor; [by constructor|]. constructor; [done|].
      eapply Forall_impl; [exact Hall|]. simpl. intros z Hz. by eapply Htrans.
Qed.

Lemma Array_sort_sorted {A} (cmp : A → A → Z) l :
  (∀ a b, 0 < cmp a b → cmp b a ≤ 0)%Z →
  (∀ a b c, cmp a b ≤ 0 → cmp b c ≤ 0 → cmp a c ≤ 0)%Z →
  StronglySorted (λ a b, cmp a b ≤ 0)%Z (Array_sort cmp l).
Proof.
  intros Hanti Htrans. induction l as [|x r IH]; simpl; [constructor|].
  by apply sortInsert_sorted.
Qed.

(** The sort is stable: the elements a predicate selects keep their order,
    when the comparator never puts an element it selects behind one it
    selects. *)
Lemma Array_sort_stable {A} (cmp : A → A → Z) (P : A → bool) l :
  (∀ a b, P a = true → P b = true → cmp a b ≤ 0)%Z →
  List.filter P (Array_sort cmp l) = List.filter P l.
Proof.
  intros HP. induction l as [|x r IH]; simpl; [done|]. rewrite <- IH.
  generalize (Array_sort cmp r). clear IH. intros l.
  induction l as [|y l IH]; simpl; [done|].
  destruct (Z.ltb_spec 0 (cmp x y)) as [Hlt|Hle]; simpl; [|done].
  rewrite IH. destruct (P x) eqn:Hx, (P y) eqn:Hy; try done.
  pose proof (HP x y Hx Hy). lia.
Qed.

Lemma StronglySorted_weaken {A} (R R' : A → A → Prop) l :
  (∀ a b, R a b → R' a b) → StronglySorted R l → StronglySorted R' l.
Proof.
  intros HR. induction 1 as [|x l _ IH Hall]; constructor; [done|].
  eapply Forall_impl; [exact Hall|]. by intros; apply HR.
Qed.

Lemma scheduleEntry_facts s slot :
  slotOK slot →
  let e := scheduleEntry s slot in
  Entry.capacity e = 10%Z
  ∧ Entry.allocated e = Z.of_nat (length (Entry.tokens e))
  ∧ Entry.available e = (Entry.capacity e - Entry.allocated e)%Z
  ∧ (0 ≤ Entry.available e)%Z
  ∧ StronglySorted (λ a b, View.priority b ≤ View.priority a) (Entry.tokens e)
  ∧ Entry.tokens e ≡ₚ tokenView s <$> slotTokens slot
  ∧ ∀ p, List.filter (λ v, View.priority v =? p) (Entry.tokens e)
         = List.filter (λ v, View.priority v =? p) (tokenView s <$> slotTokens slot).
Proof.
  intros (Hmax & Havail & Hpos) e. unfold e, scheduleEntry. simpl.
  set (cmp := λ a b : View.t, (Z.of_nat (View.priority b) - Z.of_nat (View.priority a))%Z).
  set (views := tokenView s <$> slotTokens slot).
  pose proof (Array_sort_Permutation cmp views) as Hperm.
  split_and!; try done.
  - rewrite Hperm. unfold views. by rewrite length_fmap.
  - eapply StronglySorted_weaken; [|apply (Array_sort_sorted cmp views)].
    + unfold cmp. simpl. intros a b Hab. lia.
    + unfold cmp. intros a b Hab. lia.
    + unfold cmp. intros a b c Hab Hbc. lia.
  - intros p. apply Array_sort_stable. unfold cmp.
    intros a b Ha%Nat.eqb_eq Hb%Nat.eqb_eq. lia.
Qed.

Lemma elem_of_slots_allSlots s d doc slot :
  Map_get d (doctors s) = Some doc → slot ∈ Map_values (slots doc) → slot ∈ allSlots s.
Proof.
  intros Hd Hin. unfold allSlots. apply list_elem_of_bind. exists doc. split; [done|].
  unfold Map_values. apply list_elem_of_fmap. exists (d, doc). split; [done|].
  by apply Map_get_elem_of.
Qed.

(** X16. [getDoctorSchedule] returns [null] for a doctor that is not
    registered.  For a registered doctor of a reachable state, and a
    consistent collation, it returns one entry per slot, ordered by the
    collation of the time ranges; every entry reports capacity 10, the
    number of occupants and the capacity they leave, and lists the views of
    the occupants by descending priority, occupants of equal priority in
    their order in the slot. *)
Theorem X16_getDoctorSchedule_entries
    (localeCompare : string → string → Z) (d : string) (s : Engine) :
  (∀ a b, 0 < localeCompare a b → localeCompare b a ≤ 0)%Z →
  (∀ a b c, localeCompare a b ≤ 0 → localeCompare b c ≤ 0 → localeCompare a c ≤ 0)%Z →
  reachable s →
  match Map_get d (doctors s) with
  | None => getDoctorSchedule localeCompare d s = None
  | Some doc =>
      ∃ r, getDoctorSchedule localeCompare d s = Some r
        ∧ Schedule.doctorId r = doctorKey doc
        ∧ Schedule.doctorName r = name doc
        ∧ Schedule.doctorSpecialization r = specialization doc
        ∧ Schedule.schedule r ≡ₚ scheduleEntry s <$> Map_values (slots doc)
        ∧ StronglySorted (λ a b, localeCompare (Entry.time a) (Entry.time b) ≤ 0)%Z
                         (Schedule.schedule r)
        ∧ Forall (λ e, Entry.capacity e = 10%Z
                       ∧ Entry.allocated e = Z.of_nat (length (Entry.tokens e))
                       ∧ Entry.available e = (Entry.capacity e - Entry.allocated e)%Z
                       ∧ (0 ≤ Entry.available e)%Z
                       ∧ StronglySorted (λ a b, View.priority b ≤ View.priority a)
                                        (Entry.tokens e))
                 (Schedule.schedule r)
        ∧ ∀ slot, slot ∈ Map_values (slots doc) →
            Entry.tokens (scheduleEntry s slot) ≡ₚ tokenView s <$> slotTokens slot
            ∧ ∀ p, List.filter (λ v, View.priority v =? p)
                               (Entry.tokens (scheduleEntry s slot))
                   = List.filter (λ v, View.priority v =? p)
                                 (tokenView s <$> slotTokens slot)
  end.
Proof.
  intros Hanti Htrans (Hdocs & _ & _)%reachable_wellFormed.
  unfold getDoctorSchedule.
  destruct (Map_get d (doctors s)) as [doc|] eqn:Hd; [|done].
  eexists. split; [done|]. simpl.
  set (cmp := λ a b : Entry.t, localeCompare (Entry.time a) (Entry.time b)).
  set (entries := scheduleEntry s <$> Map_values (slots doc)).
  pose proof (Array_sort_Permutation cmp entries) as Hperm.
  assert (Hok : ∀ slot, slot ∈ Map_values (slots doc) → slotOK slot).
  { intros slot Hin. eapply doctorsOK_slot; [done|]. by eapply elem_of_slots_allSlots. }
  split_and!; try done.
  - apply (Array_sort_sorted cmp entries).
    + intros a b. apply Hanti.
    + intros a b c. apply Htrans.
  - rewrite Hperm. unfold entries. apply Forall_fmap, Forall_forall.
    intros slot Hin. simpl.
    destruct (scheduleEntry_facts s slot (Hok slot Hin)) as (? & ? & ? & ? & ? & _).
    done.
  - intros slot Hin.
    destruct (scheduleEntry_facts s slot (Hok slot Hin)) as (_ & _ & _ & _ & _ & ? & ?).
    done.
Qed.

Lemma X16_witness :
  let localeCompare := λ a b : string,
        (Z.of_nat (String.length a) - Z.of_nat (String.length b))%Z in
  ∃ r, getDoctorSchedule localeCompare "D1" (execAll cancelScenario newEngine) = Some r
       ∧ Schedule.doctorName r = "Dr".
Proof.
  intros localeCompare. set (s := execAll cancelScenario newEngine).
  destruct (Map_get "D1" (doctors s)) as [doc|] eqn:Hd; [|by vm_compute in Hd].
  assert (Hname : name doc = "Dr").
  { vm_compute in Hd. by injection Hd as <-. }
  pose proof (X16_getDoctorSchedule_entries localeCompare "D1" s) as Hsched.
  rewrite Hd in Hsched.
  destruct Hsched as (r & Hrun & _ & Hr & _).
  - unfold localeCompare. intros a b. lia.
  - unfold localeCompare. intros a b c. lia.
  - by exists cancelScenario.
  - exists r. split; [exact Hrun|]. by rewrite Hr.
Defined.
